(** * GoSignerVaultCLI: keystore cipher engine, batch signer, transaction
    monitor and history store.

    A shallow embedding of
      - keystore/encrypt.go   (EncryptKey, DecryptKey, deriveKey)
      - keystore/keystore.go  (Manager: SaveKey, LoadKey)
      - core batch signer     (BatchSigner.SignBatch)
      - tx monitor            (Monitor: MonitorTransaction, monitorTransaction,
                               updateStatus, AddCallback, RemoveCallback)
      - tx/history.go         (History: AddTransaction, GetTransaction, save)
      - keystore/keystore.go  (NewManager, ListKeys, DeleteKey)
      - keystore/backup.go    (encryptData, decryptData, deriveKey)
      - tx/history.go         (load, GetTransactionsByAddress,
                               GetRecentTransactions)
      - tx/validator.go       (Validator: ValidateTransaction, the setters)
      - tx/simulator.go       (Simulator: GetGasPriceHistory)
    together with the properties the specification states about them.

    Calls into the Go standard library and go-ethereum (SHA-256, Keccak-256,
    AES-GCM, the curve, encoding/json) are operations of the interfaces
    [CryptoProvider] and [JSONCodec]; what the code itself does (hex
    encoding, slicing, control flow, error paths, file writes, the channel
    of the batch signer, the polling loop) is written out. *)

From Stdlib Require Import ZArith NArith Lia List.
From Stdlib Require Import Strings.String Strings.Ascii Strings.Byte.
From Stdlib Require Import Numbers.DecimalString.
From stdpp Require Import base option list sorting gmap sets strings.

Local Open Scope string_scope.
Local Open Scope Z_scope.

(* ===================================================================== *)
(** * Go runtime: results, bytes, hex                                      *)
(* ===================================================================== *)

(** The errors the modelled functions return, one constructor per
    [errors.New]/[fmt.Errorf] site of the source. *)
Inductive error : Type :=
  | ErrRand               (* io.ReadFull(rand.Reader, ...) failed *)
  | ErrKeySize            (* aes.NewCipher: invalid key size *)
  | ErrInvalidSalt        (* "invalid salt in key file" *)
  | ErrDecodeSalt         (* "failed to decode salt: ..." *)
  | ErrDecodeIV           (* "failed to decode IV: ..." *)
  | ErrDecodeCiphertext   (* "failed to decode ciphertext: ..." *)
  | ErrDecrypt            (* "failed to decrypt key: ..." (tag verification) *)
  | ErrToECDSA            (* "failed to convert to private key: ..." *)
  | ErrMarshal            (* "failed to marshal key/history: ..." *)
  | ErrMkdir              (* "failed to create directory: ..." *)
  | ErrWriteFile          (* "failed to write keystore/history file: ..." *)
  | ErrReadFile           (* "failed to read keystore/history file: ..." *)
  | ErrUnmarshal          (* "failed to unmarshal key / parse history: ..." *)
  | ErrGetTransaction     (* "failed to get transaction: ..." *)
  | ErrGetReceipt         (* "failed to get receipt: ..." *)
  | ErrNotInHistory       (* "transaction not found in history" *)
  | ErrAlreadyMonitored   (* "transaction already being monitored" *)
  | ErrNotMonitored.      (* "transaction not being monitored" *)

(** What a call does: return a value, return an error, or panic (index or
    slice out of range, nil dereference, wrong nonce length). *)
Inductive result (A : Type) : Type :=
  | Ok (a : A)
  | Err (e : error)
  | Panic.
Arguments Ok {A} a.
Arguments Err {A} e.
Arguments Panic {A}.

#[global] Instance result_ret : MRet result := fun A a => Ok a.
#[global] Instance result_bind : MBind result := fun A B f m =>
  match m with
  | Ok a => f a
  | Err e => Err e
  | Panic => Panic
  end.

#[global] Instance result_fmap : FMap result := fun A B f m =>
  match m with
  | Ok a => Ok (f a)
  | Err e => Err e
  | Panic => Panic
  end.

#[global] Instance error_eq_dec : EqDecision error.
Proof. solve_decision. Defined.

#[global] Instance byte_eq_dec : EqDecision byte := Byte.byte_eq_dec.

Definition byte_to_Z (b : byte) : Z := Z.of_N (Byte.to_N b).

Definition byte_of_Z (z : Z) : byte :=
  default x00 (Byte.of_N (Z.to_N (z mod 256))).

(** [[]byte(s)]: a Go string is its bytes. *)
Definition bytes_of_string (s : string) : list byte :=
  map byte_of_ascii (list_ascii_of_string s).

(** One lower-case hex digit of [fmt.Sprintf("%x", ...)]. *)
Definition hex_digit (n : Z) : ascii :=
  if n <? 10 then ascii_of_nat (Z.to_nat (48 + n))
  else ascii_of_nat (Z.to_nat (87 + n)).

(** [fmt.Sprintf("%x", bs)]: two lower-case digits per byte. *)
Fixpoint hex_encode (bs : list byte) : string :=
  match bs with
  | [] => EmptyString
  | b :: bs' =>
      String (hex_digit (byte_to_Z b / 16))
        (String (hex_digit (byte_to_Z b mod 16)) (hex_encode bs'))
  end.

(** [fromHexChar] of encoding/hex: digits and both letter cases. *)
Definition fromHexChar (c : ascii) : option Z :=
  let n := Z.of_nat (nat_of_ascii c) in
  if (48 <=? n) && (n <=? 57) then Some (n - 48)
  else if (97 <=? n) && (n <=? 102) then Some (n - 97 + 10)
  else if (65 <=? n) && (n <=? 70) then Some (n - 65 + 10)
  else None.

(** [hex.DecodeString]: [None] on an odd length or a character that is
    not a hex digit. *)
Fixpoint hex_DecodeString (s : string) : option (list byte) :=
  match s with
  | EmptyString => Some []
  | String _ EmptyString => None
  | String c1 (String c2 s') =>
      match fromHexChar c1, fromHexChar c2, hex_DecodeString s' with
      | Some h, Some l, Some bs => Some (byte_of_Z (h * 16 + l) :: bs)
      | _, _, _ => None
      end
  end.

(** [s[2:]]: dropping the "0x" prefix; slicing past the end panics. *)
Definition slice_from_2 (s : string) : result string :=
  match s with
  | String _ (String _ s') => Ok s'
  | _ => Panic
  end.

(** [big.Int.SetBytes]: big-endian bytes to an integer. *)
Definition bytes_to_Z (bs : list byte) : Z :=
  fold_left (fun acc b => acc * 256 + byte_to_Z b) bs 0.

(** [math.PaddedBigBytes(z, n)]: big-endian, left-padded to [n] bytes. *)
Fixpoint PaddedBigBytes (z : Z) (n : nat) : list byte :=
  match n with
  | O => []
  | S n' => (PaddedBigBytes (z / 256) n' ++ [byte_of_Z z])%list
  end.

(** [fmt.Sprintf("%d", n)] for a non-negative index. *)
Definition decimal_digit (n : nat) : ascii := ascii_of_nat (48 + n)%nat.

Fixpoint decimal_go (fuel n : nat) (acc : string) : string :=
  match fuel with
  | O => acc
  | S fuel' =>
      let acc' := String (decimal_digit (n mod 10)%nat) acc in
      if (n / 10 =? 0)%nat then acc' else decimal_go fuel' (n / 10)%nat acc'
  end.

Definition Sprintf_d (n : nat) : string := decimal_go (S n) n EmptyString.

(* ===================================================================== *)
(** * External collaborators                                               *)
(* ===================================================================== *)

(** The cryptographic primitives the code calls: [crypto/sha256],
    go-ethereum's [crypto.Keccak256], [crypto/aes] with [cipher.NewGCM]
    (sealing and opening under a key and a nonce, with no additional data,
    the tag appended to the ciphertext), the base-point multiplication of
    secp256k1 and [crypto.PubkeyToAddress(..).Hex()].  The two laws are the
    ones every implementation has: a SHA-256 digest is 32 bytes, and
    opening what was sealed under the same key and nonce gives the
    plaintext back. *)
Class CryptoProvider : Type := {
  sha256_Sum256 : list byte → list byte;
  Keccak256 : list byte → list byte;
  gcm_Seal : list byte → list byte → list byte → list byte;
  gcm_Open : list byte → list byte → list byte → option (list byte);
  ScalarBaseMult : Z → Z * Z;
  PubkeyToAddress_Hex : Z * Z → string;
  sha256_Size : ∀ m, length (sha256_Sum256 m) = 32%nat;
  gcm_Open_Seal : ∀ key nonce pt,
    gcm_Open key nonce (gcm_Seal key nonce pt) = Some pt
}.

(** [encoding/json] for one document type: [json.MarshalIndent] and
    [json.Unmarshal].  Unmarshalling empty input is an error
    ("unexpected end of JSON input"). *)
Class JSONCodec (A : Type) : Type := {
  MarshalIndent : A → option (list byte);
  Unmarshal : list byte → option A;
  Unmarshal_empty : Unmarshal [] = None
}.

(** [ecdsa.PrivateKey]: the scalar and the public point. *)
Module ecdsa.
Record PrivateKey : Type := mkPrivateKey {
  D : Z;
  PublicKey : Z * Z
}.
End ecdsa.

(** The order of the secp256k1 group. *)
Definition secp256k1_N : Z :=
  0xFFFFFFFFFFFFFFFFFFFFFFFFFFFFFFFEBAAEDCE6AF48A03BBFD25E8CD0364141.

(** go-ethereum's [crypto.ToECDSA] (strict): the input must be 32 bytes
    ("invalid length, need 256 bits"), below the group order ("invalid
    private key, >=N") and positive ("invalid private key, zero or
    negative"). *)
Definition ToECDSA `{CryptoProvider} (d : list byte) : option ecdsa.PrivateKey :=
  if negb (length d =? 32)%nat then None
  else
    let k := bytes_to_Z d in
    if secp256k1_N <=? k then None
    else if k <=? 0 then None
    else Some {| ecdsa.D := k; ecdsa.PublicKey := ScalarBaseMult k |}.

(** go-ethereum's [crypto.FromECDSA]. *)
Definition FromECDSA (priv : ecdsa.PrivateKey) : list byte :=
  PaddedBigBytes (ecdsa.D priv) 32.

(** [aes.NewCipher]: the key must be 16, 24 or 32 bytes. *)
Definition aes_NewCipher (key : list byte) : result (list byte) :=
  if (length key =? 16)%nat || (length key =? 24)%nat || (length key =? 32)%nat
  then Ok key else Err ErrKeySize.

(** [aesGCM.Seal(nil, iv, plaintext, nil)]: panics unless the nonce is 12
    bytes. *)
Definition aesGCM_Seal `{CryptoProvider} (block iv plaintext : list byte)
  : result (list byte) :=
  if (length iv =? 12)%nat then Ok (gcm_Seal block iv plaintext) else Panic.

(** [aesGCM.Open(nil, iv, ciphertext, nil)]: panics unless the nonce is 12
    bytes; [Ok None] is the error return (message authentication failed). *)
Definition aesGCM_Open `{CryptoProvider} (block iv ciphertext : list byte)
  : result (option (list byte)) :=
  if (length iv =? 12)%nat then Ok (gcm_Open block iv ciphertext) else Panic.

(** [rand.Reader] as a tape of bytes; [io.ReadFull] takes the next [n] or
    fails when the source cannot supply them. *)
Definition Reader : Type := list byte.

Definition ReadFull (n : nat) (r : Reader) : result (list byte) * Reader :=
  if decide (n ≤ length r)%nat then (Ok (take n r), drop n r)
  else (Err ErrRand, []).

(* ===================================================================== *)
(** * package os: files, faults                                            *)
(* ===================================================================== *)

Module os.

Record File : Type := mkFile {
  content : list byte;
  mode : Z
}.

Record FS : Type := mkFS {
  files : gmap string File;
  dirs : gset string
}.

(** What happens to a call: it returns, or the process is killed in the
    middle of it (power loss, SIGKILL). *)
Inductive outcome (A : Type) : Type :=
  | Returned (a : A)
  | Killed.
Arguments Returned {A} a.
Arguments Killed {A}.

(** The environment's part in one [os.WriteFile]: nothing goes wrong; the
    open fails (the file is left as it was); the write fails after [n]
    bytes; the process is killed after [n] bytes. *)
Inductive fault : Type :=
  | NoFault
  | FailOpen
  | FailWrite (n : nat)
  | KilledAfter (n : nat).

(** The permission bits [0600]. *)
Definition perm_0600 : Z := 6 * 64.

(** The file after [OpenFile(name, O_WRONLY|O_CREATE|O_TRUNC, perm)] and a
    write of [data]: [perm] applies only when the file is created. *)
Definition written (fs : FS) (name : string) (data : list byte) (perm : Z) : FS :=
  let m := match files fs !! name with Some f => mode f | None => perm end in
  {| files := <[name := {| content := data; mode := m |}]> (files fs);
     dirs := dirs fs |}.

(** [os.WriteFile(name, data, perm)]: open with truncation, write, close.
    There is no temporary file and no rename: the bytes go to [name]. *)
Definition WriteFile (ft : fault) (fs : FS) (name : string) (data : list byte)
    (perm : Z) : outcome (option error) * FS :=
  match ft with
  | NoFault => (Returned None, written fs name data perm)
  | FailOpen => (Returned (Some ErrWriteFile), fs)
  | FailWrite n => (Returned (Some ErrWriteFile), written fs name (take n data) perm)
  | KilledAfter n => (Killed, written fs name (take n data) perm)
  end.

(** [os.ReadFile]. *)
Definition ReadFile (fs : FS) (name : string) : option (list byte) :=
  content <$> files fs !! name.

(** [os.MkdirAll(dir, perm)]; [fails] is the environment's part. *)
Definition MkdirAll (fails : bool) (fs : FS) (dir : string) : option error * FS :=
  if fails then (Some ErrMkdir, fs)
  else (None, {| files := files fs; dirs := {[dir]} ∪ dirs fs |}).

(** The errors of [os.Remove] and [os.ReadDir]: no such file or
    directory; directory not empty. *)
Inductive PathError : Type :=
  | ENOENT
  | ENOTEMPTY.

(** [s] without the prefix [p], when it has it. *)
Fixpoint strip_prefix (p s : string) : option string :=
  match p, s with
  | EmptyString, _ => Some s
  | String c p', String d s' => if Ascii.eqb c d then strip_prefix p' s' else None
  | String _ _, EmptyString => None
  end.

(** The first element of a relative path: up to the first separator. *)
Fixpoint first_element (s : string) : string :=
  match s with
  | EmptyString => EmptyString
  | String c s' =>
      if Ascii.eqb c "/"%char then EmptyString else String c (first_element s')
  end.

(** The entry of [dir] that [path] is, or lies under. *)
Definition child_of (dir path : string) : option string :=
  match strip_prefix (dir +:+ "/") path with
  | Some rest =>
      if decide (first_element rest = EmptyString) then None
      else Some (first_element rest)
  | None => None
  end.

(** The names of the entries of [dir], each once. *)
Definition children (fs : FS) (dir : string) : list string :=
  remove_dups
    (omap (child_of dir) ((map_to_list (files fs)).*1 ++ elements (dirs fs))%list).

(** A directory is one that was made, or one that holds something. *)
Definition is_dir (fs : FS) (dir : string) : bool :=
  bool_decide (dir ∈ dirs fs) || bool_decide (children fs dir ≠ []).

(** [os.IsNotExist(err)] for the error of [os.Stat(name)]: there is
    neither a file nor a directory of that name. *)
Definition Stat_IsNotExist (fs : FS) (name : string) : bool :=
  bool_decide (files fs !! name = None) && negb (is_dir fs name).

(** The order of file names: bytewise. *)
Definition name_le (a b : string) : Prop := String.leb a b = true.

#[global] Instance name_le_dec : RelDecision name_le.
Proof. intros a b. unfold name_le. apply _. Defined.

(** [os.ReadDir(dir)]: the entries' names, sorted. *)
Definition ReadDir (fs : FS) (dir : string) : PathError + list string :=
  if is_dir fs dir then inr (merge_sort name_le (children fs dir))
  else inl ENOENT.

(** [os.Remove(name)]: removes the file, or the directory when empty. *)
Definition Remove (fs : FS) (name : string) : option PathError * FS :=
  match files fs !! name with
  | Some _ => (None, {| files := delete name (files fs); dirs := dirs fs |})
  | None =>
      if is_dir fs name then
        if decide (children fs name = [])
        then (None, {| files := files fs; dirs := dirs fs ∖ {[name]} |})
        else (Some ENOTEMPTY, fs)
      else (Some ENOENT, fs)
  end.

End os.

(** What one [os.WriteFile] of [data] to [name] does to the file system,
    by what the environment did: no path but [name] is touched, and
    [name] holds all of [data] if the write completed, the first [n]
    bytes of it if it was cut after [n], and what it held before if the
    open failed. *)
Definition written_in_place (ft : os.fault) (fs : os.FS) (name : string)
    (data : list byte) (res : os.outcome (option error) * os.FS) : Prop :=
  (∀ p, p ≠ name → os.files res.2 !! p = os.files fs !! p) ∧
  os.dirs res.2 = os.dirs fs ∧
  match ft with
  | os.NoFault =>
      res.1 = os.Returned None ∧ os.ReadFile res.2 name = Some data
  | os.FailOpen =>
      res.1 = os.Returned (Some ErrWriteFile) ∧ res.2 = fs
  | os.FailWrite n =>
      res.1 = os.Returned (Some ErrWriteFile) ∧
      os.ReadFile res.2 name = Some (take n data)
  | os.KilledAfter n =>
      res.1 = os.Killed ∧ os.ReadFile res.2 name = Some (take n data)
  end.

(** [filepath.Join(dir, file)] on clean paths. *)
Definition filepath_Join (dir file : string) : string := dir +:+ "/" +:+ file.

(** [filepath.Dir(path)] on clean paths: all but the last element. *)
Fixpoint filepath_Dir_go (s : string) : option string :=
  match s with
  | EmptyString => None
  | String c s' =>
      match filepath_Dir_go s' with
      | Some d => Some (String c d)
      | None => if Ascii.eqb c "/"%char then Some EmptyString else None
      end
  end.

Definition filepath_Dir (path : string) : string :=
  match filepath_Dir_go path with
  | None => "."
  | Some EmptyString => "/"
  | Some d => d
  end.

(** [filepath.Ext(path)]: the suffix from the last dot of the last
    element, empty when it has none.  The second component says whether
    the path has a separator. *)
Fixpoint filepath_Ext_go (s : string) : string * bool :=
  match s with
  | EmptyString => (EmptyString, false)
  | String c s' =>
      let '(ext, sep) := filepath_Ext_go s' in
      if Ascii.eqb c "/"%char then (ext, true)
      else if sep then (ext, true)
      else if negb (String.eqb ext EmptyString) then (ext, false)
      else if Ascii.eqb c "."%char then (String c s', false)
      else (EmptyString, false)
  end.

Definition filepath_Ext (path : string) : string := (filepath_Ext_go path).1.

(** Whether a name has a path separator in it. *)
Fixpoint has_separator (s : string) : bool :=
  match s with
  | EmptyString => false
  | String c s' => Ascii.eqb c "/"%char || has_separator s'
  end.

(* ===================================================================== *)
(** * package keystore                                                     *)
(* ===================================================================== *)

Module keystore.

(** A value of [map[string]interface{}]: the code stores ints and strings. *)
Inductive KDFParam : Type :=
  | ParamInt (n : Z)
  | ParamString (s : string).

Record CipherParamsJSON : Type := mkCipherParamsJSON {
  IV : string
}.

Record CryptoJSON : Type := mkCryptoJSON {
  Cipher : string;
  CipherText : string;
  CipherParams : CipherParamsJSON;
  KDF : string;
  KDFParams : gmap string KDFParam;
  MAC : string
}.

Record EncryptedKey : Type := mkEncryptedKey {
  Address : string;
  Crypto : CryptoJSON;
  Version : Z;
  ID : string
}.

Section Cipher.
Context `{CP : CryptoProvider}.

(** [deriveKey]: "Simple key derivation using SHA256.  In production, use
    a proper KDF like PBKDF2": one SHA-256 of password followed by salt. *)
Definition deriveKey (password : string) (salt : list byte) : list byte :=
  sha256_Sum256 (bytes_of_string password ++ salt).

(** [EncryptKey].  The address is taken from
    [crypto.ToECDSA(privateKey).PublicKey] with the error result dropped:
    on bytes that are no key, [ToECDSA] gives nil and the dereference
    panics. *)
Definition EncryptKey (privateKey : list byte) (password : string) (rnd : Reader)
  : result EncryptedKey * Reader :=
  match ReadFull 32 rnd with
  | (Ok salt, rnd1) =>
      let derivedKey := deriveKey password salt in
      match ReadFull 12 rnd1 with
      | (Ok iv, rnd2) =>
          (block ← aes_NewCipher derivedKey;
           ciphertext ← aesGCM_Seal block iv privateKey;
           let mac := Keccak256 (take 16 (drop 16 derivedKey) ++ ciphertext) in
           priv ← match ToECDSA privateKey with Some k => Ok k | None => Panic end;
           Ok {| Address := PubkeyToAddress_Hex (ecdsa.PublicKey priv);
                 Crypto :=
                   {| Cipher := "aes-256-gcm";
                      CipherText := "0x" +:+ hex_encode ciphertext;
                      CipherParams := {| IV := "0x" +:+ hex_encode iv |};
                      KDF := "pbkdf2";
                      KDFParams :=
                        <["c" := ParamInt 262144]>
                          (<["dklen" := ParamInt 32]>
                             (<["prf" := ParamString "hmac-sha256"]>
                                (<["salt" := ParamString ("0x" +:+ hex_encode salt)]> ∅)));
                      MAC := "0x" +:+ hex_encode mac |};
                 Version := 3;
                 ID := hex_encode (Keccak256 (bytes_of_string "GoSignerVaultCLI")) |},
           rnd2)
      | (Err e, rnd2) => (Err e, rnd2)
      | (Panic, rnd2) => (Panic, rnd2)
      end
  | (Err e, rnd1) => (Err e, rnd1)
  | (Panic, rnd1) => (Panic, rnd1)
  end.

(** [DecryptKey].  The salt is the only KDF parameter read; [KDF], the
    other [KDFParams], [Cipher] and [MAC] are not looked at. *)
Definition DecryptKey (key : EncryptedKey) (password : string) : result ecdsa.PrivateKey :=
  match KDFParams (Crypto key) !! "salt" with
  | Some (ParamString saltHex) =>
      saltDigits ← slice_from_2 saltHex;
      match hex_DecodeString saltDigits with
      | None => Err ErrDecodeSalt
      | Some salt =>
          let derivedKey := deriveKey password salt in
          ivDigits ← slice_from_2 (IV (CipherParams (Crypto key)));
          match hex_DecodeString ivDigits with
          | None => Err ErrDecodeIV
          | Some iv =>
              ctDigits ← slice_from_2 (CipherText (Crypto key));
              match hex_DecodeString ctDigits with
              | None => Err ErrDecodeCiphertext
              | Some ciphertext =>
                  block ← aes_NewCipher derivedKey;
                  opened ← aesGCM_Open block iv ciphertext;
                  match opened with
                  | None => Err ErrDecrypt
                  | Some plaintext =>
                      match ToECDSA plaintext with
                      | None => Err ErrToECDSA
                      | Some privateKey => Ok privateKey
                      end
                  end
              end
          end
      end
  | _ => Err ErrInvalidSalt
  end.

(** The record [EncryptKey] builds around a salt, a nonce, the sealed
    bytes, a MAC and an address. *)
Definition sealed_key (address : string) (salt iv ciphertext mac : list byte)
  : EncryptedKey :=
  {| Address := address;
     Crypto :=
       {| Cipher := "aes-256-gcm";
          CipherText := "0x" +:+ hex_encode ciphertext;
          CipherParams := {| IV := "0x" +:+ hex_encode iv |};
          KDF := "pbkdf2";
          KDFParams :=
            <["c" := ParamInt 262144]>
              (<["dklen" := ParamInt 32]>
                 (<["prf" := ParamString "hmac-sha256"]>
                    (<["salt" := ParamString ("0x" +:+ hex_encode salt)]> ∅)));
          MAC := "0x" +:+ hex_encode mac |};
     Version := 3;
     ID := hex_encode (Keccak256 (bytes_of_string "GoSignerVaultCLI")) |}.

(** Encrypting, then decrypting under the same password, then the bytes
    of the key that comes out ([crypto.FromECDSA]). *)
Definition round_trip (secret : list byte) (password : string) (rnd : Reader)
  : result (list byte) :=
  key ← (EncryptKey secret password rnd).1;
  priv ← DecryptKey key password;
  Ok (FromECDSA priv).

(** The bytes a record's [ciphertext] field holds: what GCM sealed, the
    tag last. *)
Definition ciphertext_bytes (key : EncryptedKey) : option (list byte) :=
  match slice_from_2 (CipherText (Crypto key)) with
  | Ok digits => hex_DecodeString digits
  | _ => None
  end.

Definition with_ciphertext (key : EncryptedKey) (ciphertext : list byte)
  : EncryptedKey :=
  {| Address := Address key;
     Crypto :=
       {| Cipher := Cipher (Crypto key);
          CipherText := "0x" +:+ hex_encode ciphertext;
          CipherParams := CipherParams (Crypto key);
          KDF := KDF (Crypto key);
          KDFParams := KDFParams (Crypto key);
          MAC := MAC (Crypto key) |};
     Version := Version key;
     ID := ID key |}.

(** The record declaring another KDF: its name, iteration count, key
    length and PRF. *)
Definition redeclare_kdf (key : EncryptedKey) (kdf : string) (c dklen : Z)
    (prf : string) : EncryptedKey :=
  {| Address := Address key;
     Crypto :=
       {| Cipher := Cipher (Crypto key);
          CipherText := CipherText (Crypto key);
          CipherParams := CipherParams (Crypto key);
          KDF := kdf;
          KDFParams :=
            <["c" := ParamInt c]>
              (<["dklen" := ParamInt dklen]>
                 (<["prf" := ParamString prf]> (KDFParams (Crypto key))));
          MAC := MAC (Crypto key) |};
     Version := Version key;
     ID := ID key |}.

(** Bytes that are a secp256k1 private key. *)
Definition valid_key (secret : list byte) : Prop :=
  length secret = 32%nat ∧ 0 < bytes_to_Z secret < secp256k1_N.

(** How GCM's [Open] is defined, for keys and nonces of the sizes the
    code uses: it recomputes the tag over the ciphertext, compares it
    with the tag given, and on a match undoes the counter-mode
    encryption; so the boxes it accepts are those [Seal] makes, under
    that key and nonce, of the plaintext it returns.  This says nothing
    of other keys: another key may accept the same box. *)
Definition gcm_opens_only_sealed : Prop :=
  ∀ key nonce box plaintext,
    length key = 32%nat → length nonce = 12%nat →
    gcm_Open key nonce box = Some plaintext →
    box = gcm_Seal key nonce plaintext.

End Cipher.

(** [Manager]. *)
Record Manager : Type := mkManager {
  keystoreDir : string
}.

Section Manager.
Context `{JK : JSONCodec EncryptedKey}.

(** [SaveKey]: marshal, then one [os.WriteFile] to the key's own path. *)
Definition SaveKey (ft : os.fault) (m : Manager) (key : EncryptedKey) (name : string)
    (fs : os.FS) : os.outcome (option error) * os.FS :=
  let filePath := filepath_Join (keystoreDir m) (name +:+ ".json") in
  match MarshalIndent key with
  | None => (os.Returned (Some ErrMarshal), fs)
  | Some data => os.WriteFile ft fs filePath data os.perm_0600
  end.

(** [LoadKey]. *)
Definition LoadKey (m : Manager) (name : string) (fs : os.FS) : result EncryptedKey :=
  let filePath := filepath_Join (keystoreDir m) (name +:+ ".json") in
  match os.ReadFile fs filePath with
  | None => Err ErrReadFile
  | Some data =>
      match Unmarshal data with
      | None => Err ErrUnmarshal
      | Some key => Ok key
      end
  end.

End Manager.

(** [DefaultKeystoreDir]. *)
Definition DefaultKeystoreDir : string := ".keystore".

(** [NewManager]: the default directory for an empty name, then
    [os.MkdirAll]. *)
Definition NewManager (mkdir_fails : bool) (keystoreDir : string) (fs : os.FS)
  : result Manager * os.FS :=
  let keystoreDir :=
    if String.eqb keystoreDir EmptyString then DefaultKeystoreDir else keystoreDir in
  match os.MkdirAll mkdir_fails fs keystoreDir with
  | (Some _, fs') => (Err ErrMkdir, fs')
  | (None, fs') => (Ok {| keystoreDir := keystoreDir |}, fs')
  end.

(** [ListKeys]: of the entries of the directory, those with the extension
    [.json], without it. *)
Definition ListKeys (m : Manager) (fs : os.FS) : os.PathError + list string :=
  match os.ReadDir fs (keystoreDir m) with
  | inl e => inl e
  | inr entries =>
      inr (omap (λ name,
                 if String.eqb (filepath_Ext name) ".json"
                 then Some (substring 0 (String.length name - 5) name)
                 else None) entries)
  end.

(** [DeleteKey]: [os.Remove] of the key's file, its error returned as it
    is. *)
Definition DeleteKey (m : Manager) (name : string) (fs : os.FS)
  : option os.PathError * os.FS :=
  os.Remove fs (filepath_Join (keystoreDir m) (name +:+ ".json")).

End keystore.

(* ===================================================================== *)
(** * package core: the batch signer                                       *)
(* ===================================================================== *)

Module core.

(** [Transaction] of signer.go; a nil pointer is [None]. *)
Record Transaction : Type := mkTransaction {
  Nonce : Z;
  GasPrice : option Z;
  GasLimit : Z;
  To : option Z;
  Value : option Z;
  Data : list byte;
  ChainID : option Z
}.

Record Wallet : Type := mkWallet {
  PrivateKey : ecdsa.PrivateKey;
  PublicKey : Z * Z;
  Address : Z
}.

Record BatchSigner : Type := mkBatchSigner {
  wallet : Wallet
}.

Record BatchSignResult : Type := mkBatchSignResult {
  TransactionID : string;
  Signature : list byte;
  Error : string
}.

Section BatchSigner.

(** [Wallet.SignTransaction(tx) ([]byte, error)], the method [SignBatch]
    calls; its body is not among the sources.  It returns a signature and
    an error; [Some msg] is a non-nil error whose [Error()] is [msg]. *)
Variable Wallet_SignTransaction : Wallet → Transaction → list byte * option string.

(** The zero value [make([]BatchSignResult, n)] fills the slice with. *)
Definition zero_result : BatchSignResult :=
  {| TransactionID := EmptyString; Signature := []; Error := EmptyString |}.

(** The body of the goroutine started for [(index, transaction)]: the
    message it sends on [resultChan]. *)
Definition sign_one (bs : BatchSigner) (index : nat) (transaction : Transaction)
  : nat * BatchSignResult :=
  let result := {| TransactionID := "tx_" +:+ Sprintf_d index;
                   Signature := []; Error := EmptyString |} in
  let '(signature, err) := Wallet_SignTransaction (wallet bs) transaction in
  let result :=
    match err with
    | Some msg => {| TransactionID := TransactionID result;
                     Signature := Signature result; Error := msg |}
    | None => {| TransactionID := TransactionID result;
                 Signature := signature; Error := Error result |}
    end in
  (index, result).

(** The collecting loop: [results[result.index] = result.result] for each
    message, in the order received. *)
Definition collect (results : list BatchSignResult)
    (received : list (nat * BatchSignResult)) : list BatchSignResult :=
  foldl (λ rs msg, <[msg.1 := msg.2]> rs) results received.

(** [SignBatch].  [order] is the order in which the goroutines complete
    and send: the channel holds [len(transactions)] messages, so no send
    blocks, and it is closed once every goroutine has sent. *)
Definition SignBatch (order : list nat) (bs : BatchSigner)
    (transactions : list Transaction) : list BatchSignResult :=
  let results := replicate (length transactions) zero_result in
  let sent := imap (sign_one bs) transactions in
  let received := omap (λ i, sent !! i) order in
  collect results received.

End BatchSigner.

End core.

(* ===================================================================== *)
(** * package tx: the transaction monitor                                  *)
(* ===================================================================== *)

(** [types.Receipt], the fields the code reads. *)
Module types.
Record Receipt : Type := mkReceipt {
  Status : Z;
  BlockNumber : Z;
  GasUsed : Z
}.
Definition ReceiptStatusFailed : Z := 0.
Definition ReceiptStatusSuccessful : Z := 1.
End types.

Module monitor.

Record TransactionStatus : Type := mkTransactionStatus {
  Hash : Z;
  Status : string;
  BlockNum : Z;
  GasUsed : Z;
  Error : string;
  Timestamp : Z
}.

(** A callback is a function value; [RemoveCallback] tells two apart by
    their formatted representation, which is what a [Callback] is here. *)
Definition Callback : Type := nat.

Record Monitor : Type := mkMonitor {
  statuses : gmap Z TransactionStatus;
  callbacks : gmap Z (list Callback)
}.

(** [NewMonitor]. *)
Definition NewMonitor : Monitor := {| statuses := ∅; callbacks := ∅ |}.

(** [updateStatus]: the new fields, then every callback registered for the
    hash, in order, on the updated status.  The second component is the
    list of callback invocations made. *)
Definition updateStatus (m : Monitor) (hash : Z) (status : string)
    (blockNum gasUsed : Z) (errMsg : string) (now : Z)
  : Monitor * list (Callback * TransactionStatus) :=
  match statuses m !! hash with
  | Some txStatus =>
      let txStatus' := {| Hash := Hash txStatus; Status := status;
                          BlockNum := blockNum; GasUsed := gasUsed;
                          Error := errMsg; Timestamp := now |} in
      ({| statuses := <[hash := txStatus']> (statuses m);
          callbacks := callbacks m |},
       match callbacks m !! hash with
       | Some cbs => map (λ callback, (callback, txStatus')) cbs
       | None => []
       end)
  | None => (m, [])
  end.

(** [GetStatus]. *)
Definition GetStatus (m : Monitor) (hash : Z) : result TransactionStatus :=
  match statuses m !! hash with
  | Some status => Ok status
  | None => Err ErrNotMonitored
  end.

(** [AddCallback]. *)
Definition AddCallback (m : Monitor) (hash : Z) (callback : Callback) : Monitor :=
  {| statuses := statuses m;
     callbacks := <[hash := (default [] (callbacks m !! hash) ++ [callback])%list]>
                    (callbacks m) |}.

(** The loop of [RemoveCallback]: drop the first entry equal to [callback]. *)
Fixpoint remove_first (callback : Callback) (cbs : list Callback) : list Callback :=
  match cbs with
  | [] => []
  | cb :: cbs' => if decide (cb = callback) then cbs' else cb :: remove_first callback cbs'
  end.

(** [RemoveCallback]. *)
Definition RemoveCallback (m : Monitor) (hash : Z) (callback : Callback) : Monitor :=
  match callbacks m !! hash with
  | Some cbs =>
      if decide (callback ∈ cbs)
      then {| statuses := statuses m;
              callbacks := <[hash := remove_first callback cbs]> (callbacks m) |}
      else m
  | None => m
  end.

(** What [select] leaves the loop of [monitorTransaction] to do next. *)
Inductive loop_next : Type := Continue | Return.

(** [monitorTransaction], one pass through [case <-ticker.C]: [resp] is what
    [client.TransactionReceipt] returned, [inl msg] an error whose
    [Error()] is [msg]. *)
Definition monitorTransaction_tick (m : Monitor) (hash : Z) (resp : string + types.Receipt) (now : Z)
  : Monitor * list (Callback * TransactionStatus) * loop_next :=
  match resp with
  | inl msg =>
      if String.eqb msg "not found" then (m, [], Continue)
      else (updateStatus m hash "error" 0 0 msg now, Return)
  | inr receipt =>
      let status :=
        if types.Status receipt =? types.ReceiptStatusFailed then "failed"
        else "success" in
      (updateStatus m hash status (types.BlockNumber receipt)
         (types.GasUsed receipt) EmptyString now, Return)
  end.

(** The monitor together with its goroutines and what they have done:
    [loops] holds the hash of every running [monitorTransaction], [polls]
    the hashes of the receipt queries made, [calls] the callback
    invocations (the hash dispatched for, the callback, the status passed),
    oldest first. *)
Record World : Type := mkWorld {
  mon : Monitor;
  loops : list Z;
  polls : list Z;
  calls : list (Z * (Callback * TransactionStatus))
}.

Definition init : World :=
  {| mon := NewMonitor; loops := []; polls := []; calls := [] |}.

(** What can happen: a call of the API, or one [select] of a running loop
    ([Tick]: the ticker fired and the query answered [resp]; [CtxDone]:
    the context was cancelled). *)
Inductive event : Type :=
  | CallMonitorTransaction (hash : Z) (now : Z)
  | Tick (hash : Z) (resp : string + types.Receipt) (now : Z)
  | CtxDone (hash : Z)
  | CallAddCallback (hash : Z) (callback : Callback)
  | CallRemoveCallback (hash : Z) (callback : Callback).

(** One goroutine less for [hash]. *)
Fixpoint exit_loop (hash : Z) (ls : list Z) : list Z :=
  match ls with
  | [] => []
  | h :: ls' => if decide (h = hash) then ls' else h :: exit_loop hash ls'
  end.

(** [MonitorTransaction]: refuse a hash already tracked, else record it as
    pending and start its loop. *)
Definition MonitorTransaction (w : World) (hash now : Z) : option error * World :=
  match statuses (mon w) !! hash with
  | Some _ => (Some ErrAlreadyMonitored, w)
  | None =>
      let status := {| Hash := hash; Status := "pending"; BlockNum := 0;
                       GasUsed := 0; Error := EmptyString; Timestamp := now |} in
      (None,
       {| mon := {| statuses := <[hash := status]> (statuses (mon w));
                    callbacks := callbacks (mon w) |};
          loops := hash :: loops w;
          polls := polls w;
          calls := calls w |})
  end.

(** One step; [None] when the event cannot happen (no loop runs for the
    hash). *)
Definition step (w : World) (e : event) : option World :=
  match e with
  | CallMonitorTransaction hash now => Some (MonitorTransaction w hash now).2
  | Tick hash resp now =>
      if decide (hash ∈ loops w) then
        let '(m', invoked, next) := monitorTransaction_tick (mon w) hash resp now in
        Some {| mon := m';
                loops := match next with
                         | Continue => loops w
                         | Return => exit_loop hash (loops w)
                         end;
                polls := (polls w ++ [hash])%list;
                calls := (calls w ++ map (pair hash) invoked)%list |}
      else None
  | CtxDone hash =>
      if decide (hash ∈ loops w) then
        Some {| mon := mon w; loops := exit_loop hash (loops w);
                polls := polls w; calls := calls w |}
      else None
  | CallAddCallback hash callback =>
      Some {| mon := AddCallback (mon w) hash callback; loops := loops w;
              polls := polls w; calls := calls w |}
  | CallRemoveCallback hash callback =>
      Some {| mon := RemoveCallback (mon w) hash callback; loops := loops w;
              polls := polls w; calls := calls w |}
  end.

Fixpoint run (w : World) (es : list event) : option World :=
  match es with
  | [] => Some w
  | e :: es' =>
      match step w e with
      | Some w' => run w' es'
      | None => None
      end
  end.

(** The worlds an execution can be in. *)
Definition reachable (w : World) : Prop := ∃ es, run init es = Some w.

(** The specification's machine: the states and what an observation of
    the ledger does to each. *)
Inductive State : Type := Pending | Success | Failed | Error_.

Inductive observation : Type :=
  | NotYetFound
  | QueryError
  | ReceiptSuccess
  | ReceiptFailed.

Definition spec_step (s : State) (o : observation) : State :=
  match s with
  | Pending =>
      match o with
      | NotYetFound => Pending
      | QueryError => Error_
      | ReceiptSuccess => Success
      | ReceiptFailed => Failed
      end
  | _ => s
  end.

Definition terminal (s : State) : bool :=
  match s with Pending => false | _ => true end.

(** The state a status string stands for. *)
Definition state_of (status : string) : option State :=
  if String.eqb status "pending" then Some Pending
  else if String.eqb status "success" then Some Success
  else if String.eqb status "failed" then Some Failed
  else if String.eqb status "error" then Some Error_
  else None.

(** The observation a query result is. *)
Definition observe (resp : string + types.Receipt) : observation :=
  match resp with
  | inl msg => if String.eqb msg "not found" then NotYetFound else QueryError
  | inr receipt =>
      if types.Status receipt =? types.ReceiptStatusFailed then ReceiptFailed
      else ReceiptSuccess
  end.

(** The state of a hash in a world. *)
Definition state_at (w : World) (hash : Z) : option State :=
  st ← statuses (mon w) !! hash; state_of (Status st).

(** The specification's account of an event, for the state of [hash]:
    monitoring an untracked hash makes it Pending, a query answered in a
    loop of the hash moves it by [spec_step], nothing else touches it. *)
Definition spec_after (hash : Z) (e : event) (s : option State) : option State :=
  match e with
  | CallMonitorTransaction hash' _ =>
      if decide (hash' = hash) then Some (default Pending s) else s
  | Tick hash' resp _ =>
      if decide (hash' = hash) then (λ st, spec_step st (observe resp)) <$> s else s
  | _ => s
  end.

(** The events that are a [select] of a loop of [hash]. *)
Definition of_loop (hash : Z) (e : event) : bool :=
  match e with
  | Tick hash' _ _ | CtxDone hash' => bool_decide (hash' = hash)
  | _ => false
  end.

(** The queries made and the callbacks invoked for [hash]. *)
Definition polls_of (hash : Z) (w : World) : list Z :=
  filter (λ h, h = hash) (polls w).

Definition calls_of (hash : Z) (w : World) : list (Z * (Callback * TransactionStatus)) :=
  filter (λ c, c.1 = hash) (calls w).

End monitor.

(* ===================================================================== *)
(** * package tx: the transaction history                                  *)
(* ===================================================================== *)

Module history.

Record TransactionRecord : Type := mkTransactionRecord {
  Hash : Z;
  From : string;
  To : string;
  Value : string;
  GasUsed : Z;
  GasPrice : string;
  BlockNumber : Z;
  Status : string;
  Timestamp : Z;
  Data : string;
  Error : string
}.

Record History : Type := mkHistory {
  records : gmap Z TransactionRecord;
  filePath : string
}.

(** What [AddTransaction] reads off the [types.Transaction] the client
    returns: [From().String()], [To().String()], [Value().String()],
    [GasPrice().String()] and [Data()].  [To()] is a pointer, nil for a
    contract creation: then there is no [To().String()], the call
    dereferences nil. *)
Record TxView : Type := mkTxView {
  From_String : string;
  To_String : option string;
  Value_String : string;
  GasPrice_String : string;
  TxData : list byte
}.

(** The answers of [ethclient.Client]; [inl msg] is an error. *)
Record Client : Type := mkClient {
  TransactionByHash : Z → string + (TxView * bool);
  TransactionReceipt : Z → string + types.Receipt
}.

Section History.
Context `{JH : JSONCodec (gmap Z TransactionRecord)}.

(** [save]: marshal the whole map, make the directory, then one
    [os.WriteFile] to [filePath]. *)
Definition save (mkdir_fails : bool) (ft : os.fault) (h : History) (fs : os.FS)
  : os.outcome (option error) * os.FS :=
  match MarshalIndent (records h) with
  | None => (os.Returned (Some ErrMarshal), fs)
  | Some data =>
      let dir := filepath_Dir (filePath h) in
      match os.MkdirAll mkdir_fails fs dir with
      | (Some _, fs') => (os.Returned (Some ErrMkdir), fs')
      | (None, fs') => os.WriteFile ft fs' (filePath h) data os.perm_0600
      end
  end.

(** [load]: when [os.Stat] says the path does not exist, the history is
    left as it is; otherwise the file is read, and what cannot be read (a
    directory) is an error. *)
Definition load (h : History) (fs : os.FS) : option error * History :=
  if os.Stat_IsNotExist fs (filePath h) then (None, h)
  else
    match os.ReadFile fs (filePath h) with
    | None => (Some ErrReadFile, h)
    | Some data =>
        match Unmarshal data with
        | None => (Some ErrUnmarshal, h)
        | Some rs => (None, {| records := rs; filePath := filePath h |})
        end
    end.

(** [AddTransaction]: query, build the record, store it in the map, then
    [return h.save()].  [Ok] holds what the call returns and what it
    leaves; [Panic] is the nil dereference in [tx.To().String()], before
    anything is stored. *)
Definition AddTransaction (client : Client) (now : Z) (mkdir_fails : bool)
    (ft : os.fault) (h : History) (hash : Z) (fs : os.FS)
  : result (os.outcome (option error) * History * os.FS) :=
  match TransactionByHash client hash with
  | inl _ => Ok (os.Returned (Some ErrGetTransaction), h, fs)
  | inr (tx, isPending) =>
      let receipt :=
        if isPending then inr None
        else match TransactionReceipt client hash with
             | inl msg => inl msg
             | inr r => inr (Some r)
             end in
      match receipt with
      | inl _ => Ok (os.Returned (Some ErrGetReceipt), h, fs)
      | inr receipt =>
          match To_String tx with
          | None => Panic
          | Some to =>
              let record :=
                {| Hash := hash;
                   From := From_String tx;
                   To := to;
                   Value := Value_String tx;
                   GasUsed := match receipt with
                              | Some r => types.GasUsed r
                              | None => 0
                              end;
                   GasPrice := GasPrice_String tx;
                   BlockNumber := match receipt with
                                  | Some r => types.BlockNumber r
                                  | None => 0
                                  end;
                   Status := match receipt with
                             | Some r =>
                                 if types.Status r =? types.ReceiptStatusFailed
                                 then "failed" else "success"
                             | None => "pending"
                             end;
                   Timestamp := now;
                   Data := "0x" +:+ hex_encode (TxData tx);
                   Error := EmptyString |} in
              let h' := {| records := <[hash := record]> (records h);
                           filePath := filePath h |} in
              let '(ret, fs') := save mkdir_fails ft h' fs in
              Ok (ret, h', fs')
          end
      end
  end.

(** [GetTransaction]. *)
Definition GetTransaction (h : History) (hash : Z) : result TransactionRecord :=
  match records h !! hash with
  | Some record => Ok record
  | None => Err ErrNotInHistory
  end.

End History.

(** [for _, record := range h.records]: Go leaves the order of a range
    over a map open; [order] is the keys in the order of one range, and
    this the records it visits. *)
Definition range_records (order : list Z) (h : History) : list TransactionRecord :=
  omap (λ hash, records h !! hash) order.

(** [GetTransactionsByAddress]. *)
Definition GetTransactionsByAddress (order : list Z) (h : History) (address : string)
  : list TransactionRecord :=
  filter (λ record, From record = address ∨ To record = address)
    (range_records order h).

(** The order [sort.Slice] is given: [records[i].Timestamp.After(
    records[j].Timestamp)]. *)
Definition After (a b : TransactionRecord) : Prop := Timestamp b < Timestamp a.

(** What [sort.Slice] leaves: no record in front of a later one.  The
    sort is not stable; records of one timestamp come in any order. *)
Definition newest_first (a b : TransactionRecord) : Prop := ¬ After b a.

#[global] Instance newest_first_dec : RelDecision newest_first.
Proof. intros a b. unfold newest_first, After. apply _. Defined.

(** [GetRecentTransactions]; [sort_Slice] is the sort, [limit] an [int]. *)
Definition GetRecentTransactions
    (sort_Slice : list TransactionRecord → list TransactionRecord)
    (order : list Z) (h : History) (limit : Z) : list TransactionRecord :=
  let records := sort_Slice (range_records order h) in
  if (0 <? limit) && (limit <? Z.of_nat (length records))
  then take (Z.to_nat limit) records
  else records.

End history.

(* ===================================================================== *)
(** * keystore/backup.go: the cipher of the backup archive                 *)
(* ===================================================================== *)

Module backup.

(** The errors of [encryptData] and [decryptData]: those of [rand.Read],
    [aes.NewCipher] and [gcm.Open], returned as they are, and
    "ciphertext too short". *)
Inductive DataError : Type :=
  | ErrRandRead
  | ErrNewCipher
  | ErrTooShort
  | ErrOpen.

Inductive outcome : Type :=
  | Data (bytes : list byte)
  | Failed (e : DataError)
  | Panicked.

Section Data.
Context `{CP : CryptoProvider}.

(** [deriveKey] of backup.go: "This is a simplified version for
    demonstration": one SHA-256 of the password, no salt. *)
Definition deriveKey (password : string) : list byte :=
  sha256_Sum256 (bytes_of_string password).

(** [encryptData]: [gcm.Seal(nonce, nonce, data, nil)] appends the sealed
    bytes to the nonce. *)
Definition encryptData (data : list byte) (password : string) (rnd : Reader)
  : outcome * Reader :=
  let key := deriveKey password in
  match aes_NewCipher key with
  | Ok block =>
      match ReadFull 12 rnd with
      | (Ok nonce, rnd') =>
          match aesGCM_Seal block nonce data with
          | Ok sealed => (Data (nonce ++ sealed)%list, rnd')
          | _ => (Panicked, rnd')
          end
      | (_, rnd') => (Failed ErrRandRead, rnd')
      end
  | _ => (Failed ErrNewCipher, rnd)
  end.

(** [decryptData]: the first 12 bytes are the nonce, the rest is opened. *)
Definition decryptData (data : list byte) (password : string) : outcome :=
  let key := deriveKey password in
  match aes_NewCipher key with
  | Ok block =>
      if (length data <? 12)%nat then Failed ErrTooShort
      else
        let nonce := take 12 data in
        let ciphertext := drop 12 data in
        match aesGCM_Open block nonce ciphertext with
        | Ok (Some plaintext) => Data plaintext
        | Ok None => Failed ErrOpen
        | _ => Panicked
        end
  | _ => Failed ErrNewCipher
  end.

End Data.
End backup.

(* ===================================================================== *)
(** * tx/validator.go                                                      *)
(* ===================================================================== *)

Module validator.

(** [Transaction] of tx/transaction.go; a nil pointer is [None]. *)
Record Transaction : Type := mkTransaction {
  From : Z;
  To : option Z;
  Value : option Z;
  Gas : Z;
  GasPrice : option Z;
  Data : list byte;
  Nonce : Z;
  ChainID : option Z
}.

Record ValidationError : Type := mkValidationError {
  Field : string;
  Message : string
}.

(** [Validator]; the four limits are pointers to a [big.Int], and a nil
    pointer is [None]: [NewValidator] sets them all, the setters store
    what they are given. *)
Record Validator : Type := mkValidator {
  MinGasPrice : option Z;
  MaxGasPrice : option Z;
  MaxGasLimit : Z;
  MinValue : option Z;
  MaxValue : option Z
}.

(** [NewValidator]: 1 wei to 1000 gwei, 10M gas, 0 to 1M ETH. *)
Definition NewValidator : Validator :=
  {| MinGasPrice := Some 1;
     MaxGasPrice := Some 1000000000000;
     MaxGasLimit := 10000000;
     MinValue := Some 0;
     MaxValue := Some (1000000 * 10 ^ 18) |}.

(** [fmt.Sprintf("%d", n)] of a [uint64]. *)
Definition Sprintf_d_uint64 (z : Z) : string := NilZero.string_of_int (Z.to_int z).

(** [String()] of a [big.Int] pointer: decimal, with a sign when
    negative, and a marker for nil. *)
Definition big_String (x : option Z) : string :=
  match x with
  | Some z => NilZero.string_of_int (Z.to_int z)
  | None => "<nil>"
  end.

(** [x.Cmp(y)]: -1, 0 or +1.  Math/big compares the pointers first, so
    nil against nil is 0 with nothing dereferenced; nil against a number,
    either way round, dereferences nil. *)
Definition Cmp (x y : option Z) : result Z :=
  match x, y with
  | Some a, Some b =>
      Ok match a ?= b with Lt => -1 | Eq => 0 | Gt => 1 end
  | None, None => Ok 0
  | _, _ => Panic
  end.

(** [if failed { errors = append(errors, e) }]. *)
Definition report (failed : bool) (e : ValidationError) (errors : list ValidationError)
  : list ValidationError :=
  if failed then (errors ++ [e])%list else errors.

(** The errors [ValidateTransaction] makes. *)
Definition gasPrice_too_low (v : Validator) (tx : Transaction) : ValidationError :=
  {| Field := "gasPrice";
     Message := "gas price too low: " +:+ big_String (GasPrice tx) +:+ " < " +:+
                big_String (MinGasPrice v) |}.

Definition gasPrice_too_high (v : Validator) (tx : Transaction) : ValidationError :=
  {| Field := "gasPrice";
     Message := "gas price too high: " +:+ big_String (GasPrice tx) +:+ " > " +:+
                big_String (MaxGasPrice v) |}.

Definition gas_too_high (v : Validator) (tx : Transaction) : ValidationError :=
  {| Field := "gas";
     Message := "gas limit too high: " +:+ Sprintf_d_uint64 (Gas tx) +:+ " > " +:+
                Sprintf_d_uint64 (MaxGasLimit v) |}.

Definition value_too_low (v : Validator) (tx : Transaction) : ValidationError :=
  {| Field := "value";
     Message := "value too low: " +:+ big_String (Value tx) +:+ " < " +:+
                big_String (MinValue v) |}.

Definition value_too_high (v : Validator) (tx : Transaction) : ValidationError :=
  {| Field := "value";
     Message := "value too high: " +:+ big_String (Value tx) +:+ " > " +:+
                big_String (MaxValue v) |}.

Definition to_required : ValidationError :=
  {| Field := "to"; Message := "recipient address is required" |}.

Definition chainId_required : ValidationError :=
  {| Field := "chainId"; Message := "valid chain ID is required" |}.

(** [ValidateTransaction]: the checks in the order of the source; a
    [Cmp] that dereferences nil ends it in a panic. *)
Definition ValidateTransaction (v : Validator) (tx : Transaction)
  : result (list ValidationError) :=
  let errors := [] in
  c ← Cmp (GasPrice tx) (MinGasPrice v);
  let errors := report (c <? 0) (gasPrice_too_low v tx) errors in
  c ← Cmp (GasPrice tx) (MaxGasPrice v);
  let errors := report (0 <? c) (gasPrice_too_high v tx) errors in
  let errors := report (MaxGasLimit v <? Gas tx) (gas_too_high v tx) errors in
  c ← Cmp (Value tx) (MinValue v);
  let errors := report (c <? 0) (value_too_low v tx) errors in
  c ← Cmp (Value tx) (MaxValue v);
  let errors := report (0 <? c) (value_too_high v tx) errors in
  let errors := report (bool_decide (To tx = None)) to_required errors in
  let errors :=
    report (match ChainID tx with
            | None => true
            | Some chainID => chainID <=? 0
            end) chainId_required errors in
  Ok errors.

(** [SetGasPriceLimits], [SetGasLimit], [SetValueLimits]: the pointers
    are stored as they come, nil or not. *)
Definition SetGasPriceLimits (v : Validator) (min max : option Z) : Validator :=
  {| MinGasPrice := min; MaxGasPrice := max; MaxGasLimit := MaxGasLimit v;
     MinValue := MinValue v; MaxValue := MaxValue v |}.

Definition SetGasLimit (v : Validator) (max : Z) : Validator :=
  {| MinGasPrice := MinGasPrice v; MaxGasPrice := MaxGasPrice v; MaxGasLimit := max;
     MinValue := MinValue v; MaxValue := MaxValue v |}.

Definition SetValueLimits (v : Validator) (min max : option Z) : Validator :=
  {| MinGasPrice := MinGasPrice v; MaxGasPrice := MaxGasPrice v;
     MaxGasLimit := MaxGasLimit v; MinValue := min; MaxValue := max |}.

End validator.

(* ===================================================================== *)
(** * tx/simulator.go: the gas price history                               *)
(* ===================================================================== *)

Module simulator.

(** What [GetGasPriceHistory] reads of a block: the base fee, nil before
    EIP-1559, and the gas prices of its transactions. *)
Record Block : Type := mkBlock {
  BaseFee : option Z;
  Transactions : list Z
}.

(** The two calls of the RPC client that are made; [None] is an error
    return.  [BlockByNumber] is given the value of the [big.Int]. *)
Record Client : Type := mkClient {
  BlockNumber : option Z;
  BlockByNumber : Z → option Block
}.

Inductive HistoryError : Type :=
  | ErrBlockNumber                  (* "failed to get block number: ..." *)
  | ErrBlock (blockNumber : Z).     (* "failed to get block %d: ..." *)

(** Conversions to [uint64] and to [int64]. *)
Definition uint64 (z : Z) : Z := z mod 2 ^ 64.

Definition int64 (z : Z) : Z := (z + 2 ^ 63) mod 2 ^ 64 - 2 ^ 63.

(** The body of the loop, [n] iterations from index [i]. *)
Fixpoint price_loop (c : Client) (currentBlock : Z) (i : Z) (n : nat)
    (prices : list Z) : HistoryError + list Z :=
  match n with
  | O => inr prices
  | S n' =>
      let blockNumber := uint64 (currentBlock - uint64 i) in
      match BlockByNumber c (int64 blockNumber) with
      | None => inl (ErrBlock blockNumber)
      | Some block =>
          let prices :=
            match BaseFee block with
            | Some baseFee => (prices ++ [baseFee])%list
            | None =>
                match Transactions block with
                | gasPrice :: _ => (prices ++ [gasPrice])%list
                | [] => prices
                end
            end in
          price_loop c currentBlock (i + 1) n' prices
      end
  end.

(** [GetGasPriceHistory]. *)
Definition GetGasPriceHistory (c : Client) (blocks : Z) : HistoryError + list Z :=
  match BlockNumber c with
  | None => inl ErrBlockNumber
  | Some currentBlock => price_loop c currentBlock 0 (Z.to_nat blocks) []
  end.

End simulator.

(* ===================================================================== *)
(** * Stand-ins for the collaborators                                      *)
(* ===================================================================== *)

(** Small executable implementations of the interfaces, as a unit test
    would stub them, to run the code on concrete inputs.  They have the
    laws of the interfaces; they are not the real primitives. *)
Module Mock.

Definition sha256 (m : list byte) : list byte := take 32 (m ++ replicate 32 x00).

Definition keccak (m : list byte) : list byte := take 32 (m ++ replicate 32 xff).

(** A sealed box that shows its contents: plaintext, the key twice, the
    nonce, the plaintext again. *)
Definition seal (key nonce pt : list byte) : list byte :=
  pt ++ key ++ key ++ nonce ++ pt.

Definition open (key nonce ct : list byte) : option (list byte) :=
  let pt := take ((length ct - 2 * length key - length nonce) / 2)%nat ct in
  if decide (ct = seal key nonce pt) then Some pt else None.

Definition base_mult (d : Z) : Z * Z := (d, d + 1).

Definition address_hex (pub : Z * Z) : string :=
  "0x" +:+ hex_encode (PaddedBigBytes pub.1 20).

(** A codec over a finite collection of known documents: [render] writes
    one, reading one back is a search for the document so written. *)
Definition read_back {A : Type} (render : A → list byte) (known : list A)
    (data : list byte) : option A :=
  if decide (data = []) then None
  else find (λ d, bool_decide (render d = data)) known.

Definition render_param (p : string * keystore.KDFParam) : string :=
  p.1 +:+ "=" +:+
  match p.2 with
  | keystore.ParamInt n => Sprintf_d (Z.to_nat n)
  | keystore.ParamString s => s
  end +:+ ";".

Definition render_key (k : keystore.EncryptedKey) : list byte :=
  bytes_of_string
    ("address=" +:+ keystore.Address k +:+
     ";cipher=" +:+ keystore.Cipher (keystore.Crypto k) +:+
     ";ciphertext=" +:+ keystore.CipherText (keystore.Crypto k) +:+
     ";iv=" +:+ keystore.IV (keystore.CipherParams (keystore.Crypto k)) +:+
     ";kdf=" +:+ keystore.KDF (keystore.Crypto k) +:+
     ";kdfparams=" +:+
       String.concat EmptyString
         (map render_param (map_to_list (keystore.KDFParams (keystore.Crypto k)))) +:+
     ";mac=" +:+ keystore.MAC (keystore.Crypto k) +:+
     ";version=" +:+ Sprintf_d (Z.to_nat (keystore.Version k)) +:+
     ";id=" +:+ keystore.ID k).

Definition render_record (p : Z * history.TransactionRecord) : string :=
  Sprintf_d (Z.to_nat p.1) +:+ ":" +:+ history.From p.2 +:+ ">" +:+
  history.To p.2 +:+ " " +:+ history.Value p.2 +:+ " " +:+
  history.Status p.2 +:+ " " +:+ history.Data p.2 +:+ ";".

Definition render_history (rs : gmap Z history.TransactionRecord) : list byte :=
  bytes_of_string
    ("{" +:+ String.concat EmptyString (map render_record (map_to_list rs)) +:+ "}").

(** A signer for the batch: a transaction without a recipient is
    refused, any other is signed. *)
Definition sign (w : core.Wallet) (tx : core.Transaction) : list byte * option string :=
  match core.To tx with
  | None => ([], Some "failed to sign transaction")
  | Some _ =>
      (PaddedBigBytes (ecdsa.D (core.PrivateKey w) + core.Nonce tx) 65, None)
  end.

End Mock.

(* ===================================================================== *)
(** * Bytes and hex: round trips                                           *)
(* ===================================================================== *)

Lemma byte_of_to_Z (b : byte) : byte_of_Z (byte_to_Z b) = b.
Proof. destruct b; reflexivity. Qed.

Lemma byte_to_Z_range (b : byte) : 0 <= byte_to_Z b < 256.
Proof.
  unfold byte_to_Z. pose proof (Byte.to_N_bounded b). lia.
Qed.

Lemma byte_of_Z_mod (z : Z) : byte_of_Z (z mod 256) = byte_of_Z z.
Proof. unfold byte_of_Z. by rewrite Z.mod_mod. Qed.

(** The two digits written for a byte read back as that byte. *)
Lemma hex_digits_of_byte (b : byte) :
  fromHexChar (hex_digit (byte_to_Z b / 16)) = Some (byte_to_Z b / 16) ∧
  fromHexChar (hex_digit (byte_to_Z b mod 16)) = Some (byte_to_Z b mod 16).
Proof. destruct b; split; reflexivity. Qed.

Lemma hex_decode_encode (bs : list byte) :
  hex_DecodeString (hex_encode bs) = Some bs.
Proof.
  induction bs as [|b bs IH]; [done|].
  cbn [hex_encode hex_DecodeString].
  destruct (hex_digits_of_byte b) as [-> ->]. rewrite IH.
  f_equal. f_equal.
  rewrite <- (byte_of_to_Z b) at 3. f_equal.
  pose proof (Z.div_mod (byte_to_Z b) 16). lia.
Qed.

Lemma slice_from_2_0x (s : string) : slice_from_2 ("0x" +:+ s) = Ok s.
Proof. reflexivity. Qed.

Lemma bytes_to_Z_snoc (bs : list byte) (b : byte) :
  bytes_to_Z (bs ++ [b]) = bytes_to_Z bs * 256 + byte_to_Z b.
Proof. unfold bytes_to_Z. by rewrite fold_left_app. Qed.

Lemma PaddedBigBytes_bytes_to_Z (bs : list byte) :
  PaddedBigBytes (bytes_to_Z bs) (length bs) = bs.
Proof.
  induction bs as [|b bs IH] using rev_ind; [done|].
  rewrite length_app, Nat.add_comm. cbn [length Nat.add PaddedBigBytes].
  rewrite bytes_to_Z_snoc.
  pose proof (byte_to_Z_range b).
  replace ((bytes_to_Z bs * 256 + byte_to_Z b) / 256) with (bytes_to_Z bs)
    by (apply Z.div_unique with (r := byte_to_Z b); lia).
  rewrite IH. f_equal. f_equal.
  rewrite <- byte_of_Z_mod.
  replace ((bytes_to_Z bs * 256 + byte_to_Z b) mod 256) with (byte_to_Z b)
    by (apply Z.mod_unique with (q := bytes_to_Z bs); lia).
  apply byte_of_to_Z.
Qed.

Example hex_encode_bytes : hex_encode [x00; x0f; xa5; xff] = "000fa5ff".
Proof. reflexivity. Qed.

Example hex_DecodeString_both_cases :
  hex_DecodeString "000FA5ff" = Some [x00; x0f; xa5; xff] ∧
  hex_DecodeString "0g" = None ∧ hex_DecodeString "abc" = None.
Proof. repeat split; reflexivity. Qed.

Example Sprintf_d_digits : Sprintf_d 0 = "0" ∧ Sprintf_d 907 = "907".
Proof. split; reflexivity. Qed.

(* ===================================================================== *)
(** * The cipher engine                                                    *)
(* ===================================================================== *)

Section CipherFacts.
Context `{CP : CryptoProvider}.
Import keystore.

Lemma ReadFull_enough (n : nat) (r : Reader) :
  (n ≤ length r)%nat → ReadFull n r = (Ok (take n r), drop n r).
Proof. intros. unfold ReadFull. by rewrite decide_True. Qed.

Lemma ReadFull_Ok (n : nat) (r r' : Reader) (bs : list byte) :
  ReadFull n r = (Ok bs, r') →
  (n ≤ length r)%nat ∧ bs = take n r ∧ r' = drop n r ∧ length bs = n.
Proof.
  unfold ReadFull. case_decide; [|done].
  intros [= <- <-]. rewrite length_take. repeat split; lia.
Qed.

Lemma deriveKey_length (password : string) (salt : list byte) :
  length (deriveKey password salt) = 32%nat.
Proof. apply sha256_Size. Qed.

Lemma aes_NewCipher_deriveKey (password : string) (salt : list byte) :
  aes_NewCipher (deriveKey password salt) = Ok (deriveKey password salt).
Proof. unfold aes_NewCipher. by rewrite deriveKey_length. Qed.

Lemma ToECDSA_valid (secret : list byte) :
  valid_key secret ↔ is_Some (ToECDSA secret).
Proof.
  unfold valid_key, ToECDSA. split.
  - intros [Hl [H0 HN]]. rewrite Hl. cbn [Nat.eqb negb].
    replace (32 =? 32)%nat with true by done. cbn [negb].
    rewrite (proj2 (Z.leb_gt _ _) HN), (proj2 (Z.leb_gt _ _) H0). eauto.
  - intros [k Hk].
    destruct (Nat.eqb_spec (length secret) 32); [|done]. cbn [negb] in Hk.
    destruct (Z.leb_spec secp256k1_N (bytes_to_Z secret)); [done|].
    destruct (Z.leb_spec (bytes_to_Z secret) 0); [done|]. done.
Qed.

Lemma ToECDSA_Some (secret : list byte) (priv : ecdsa.PrivateKey) :
  ToECDSA secret = Some priv →
  length secret = 32%nat ∧ ecdsa.D priv = bytes_to_Z secret ∧
  ecdsa.PublicKey priv = ScalarBaseMult (bytes_to_Z secret).
Proof.
  unfold ToECDSA.
  destruct (Nat.eqb_spec (length secret) 32); [|done]. cbn [negb].
  destruct (secp256k1_N <=? bytes_to_Z secret); [done|].
  destruct (bytes_to_Z secret <=? 0); [done|].
  by intros [= <-].
Qed.

Lemma FromECDSA_ToECDSA (secret : list byte) (priv : ecdsa.PrivateKey) :
  ToECDSA secret = Some priv → FromECDSA priv = secret.
Proof.
  intros H. apply ToECDSA_Some in H as (Hl & HD & _).
  unfold FromECDSA. rewrite HD, <- Hl. apply PaddedBigBytes_bytes_to_Z.
Qed.

(** What [EncryptKey] returns when it returns a record. *)
Lemma EncryptKey_Ok_inv (secret : list byte) (password : string) (rnd : Reader)
    (key : EncryptedKey) :
  (EncryptKey secret password rnd).1 = Ok key →
  let salt := take 32 rnd in
  let iv := take 12 (drop 32 rnd) in
  let derivedKey := deriveKey password salt in
  let ciphertext := gcm_Seal derivedKey iv secret in
  (44 ≤ length rnd)%nat ∧
  ∃ priv, ToECDSA secret = Some priv ∧
    key = sealed_key (PubkeyToAddress_Hex (ecdsa.PublicKey priv)) salt iv ciphertext
            (Keccak256 (take 16 (drop 16 derivedKey) ++ ciphertext)).
Proof.
  unfold EncryptKey.
  destruct (ReadFull 32 rnd) as [[salt| |] rnd1] eqn:Hs; [|done..].
  apply ReadFull_Ok in Hs as (Hl1 & -> & -> & Hls).
  destruct (ReadFull 12 (drop 32 rnd)) as [[iv| |] rnd2] eqn:Hi; [|done..].
  apply ReadFull_Ok in Hi as (Hl2 & -> & -> & Hli).
  rewrite length_drop in Hl2.
  cbn [fst]. rewrite aes_NewCipher_deriveKey. cbn [mbind result_bind].
  unfold aesGCM_Seal. rewrite Hli. cbn [Nat.eqb mbind result_bind].
  replace (12 =? 12)%nat with true by done. cbn [mbind result_bind].
  destruct (ToECDSA secret) as [priv|] eqn:Hk; [|done].
  cbn [mbind result_bind]. intros [= <-].
  split; [lia|]. by exists priv.
Qed.

Lemma EncryptKey_Ok (secret : list byte) (password : string) (rnd : Reader)
    (priv : ecdsa.PrivateKey) :
  (44 ≤ length rnd)%nat → ToECDSA secret = Some priv →
  let salt := take 32 rnd in
  let iv := take 12 (drop 32 rnd) in
  let derivedKey := deriveKey password salt in
  let ciphertext := gcm_Seal derivedKey iv secret in
  (EncryptKey secret password rnd).1 =
    Ok (sealed_key (PubkeyToAddress_Hex (ecdsa.PublicKey priv)) salt iv ciphertext
          (Keccak256 (take 16 (drop 16 derivedKey) ++ ciphertext))).
Proof.
  intros Hl Hk. unfold EncryptKey.
  rewrite ReadFull_enough by lia.
  rewrite ReadFull_enough by (rewrite length_drop; lia).
  cbn [fst]. rewrite aes_NewCipher_deriveKey. cbn [mbind result_bind].
  unfold aesGCM_Seal. rewrite length_take, length_drop.
  replace (12 `min` (length rnd - 32) =? 12)%nat with true
    by (symmetry; apply Nat.eqb_eq; lia).
  cbn [mbind result_bind]. rewrite Hk. done.
Qed.

(** [DecryptKey] on a record laid out as [EncryptKey] writes it: the hex
    fields decode to the bytes they were written from, and the outcome is
    that of opening the sealed bytes under the key derived from the
    password and the record's salt. *)
Lemma DecryptKey_sealed_key (address : string) (salt iv ciphertext mac : list byte)
    (password : string) :
  length iv = 12%nat →
  DecryptKey (sealed_key address salt iv ciphertext mac) password =
    match gcm_Open (deriveKey password salt) iv ciphertext with
    | None => Err ErrDecrypt
    | Some plaintext =>
        match ToECDSA plaintext with
        | None => Err ErrToECDSA
        | Some privateKey => Ok privateKey
        end
    end.
Proof.
  intros Hiv. unfold DecryptKey, sealed_key.
  cbn [Crypto KDFParams CipherParams IV CipherText].
  rewrite !lookup_insert_ne by done. rewrite lookup_insert_eq.
  rewrite !slice_from_2_0x. cbn [mbind result_bind].
  rewrite !hex_decode_encode.
  rewrite aes_NewCipher_deriveKey. cbn [mbind result_bind].
  unfold aesGCM_Open. rewrite Hiv.
  replace (12 =? 12)%nat with true by done. cbn [mbind result_bind].
  done.
Qed.

Lemma ciphertext_bytes_sealed_key (address : string)
    (salt iv ciphertext mac : list byte) :
  ciphertext_bytes (sealed_key address salt iv ciphertext mac) = Some ciphertext.
Proof.
  unfold ciphertext_bytes, sealed_key. cbn [Crypto CipherText].
  by rewrite slice_from_2_0x, hex_decode_encode.
Qed.

Lemma with_ciphertext_sealed_key (address : string)
    (salt iv ciphertext ciphertext' mac : list byte) :
  with_ciphertext (sealed_key address salt iv ciphertext mac) ciphertext' =
  sealed_key address salt iv ciphertext' mac.
Proof. reflexivity. Qed.

End CipherFacts.

(* ===================================================================== *)
(** * The stand-ins have the laws of the interfaces                        *)
(* ===================================================================== *)

Module MockFacts.

Lemma sha256_length (m : list byte) : length (Mock.sha256 m) = 32%nat.
Proof.
  unfold Mock.sha256. rewrite length_take, length_app, length_replicate. lia.
Qed.

Lemma seal_length (key nonce pt : list byte) :
  length (Mock.seal key nonce pt) =
  (2 * length pt + 2 * length key + length nonce)%nat.
Proof. unfold Mock.seal. rewrite !length_app. lia. Qed.

Lemma open_seal (key nonce pt : list byte) :
  Mock.open key nonce (Mock.seal key nonce pt) = Some pt.
Proof.
  unfold Mock.open. cbv zeta. rewrite seal_length.
  replace ((2 * length pt + 2 * length key + length nonce
            - 2 * length key - length nonce) / 2)%nat with (length pt).
  2:{ replace (2 * length pt + 2 * length key + length nonce
               - 2 * length key - length nonce)%nat
        with (length pt * 2)%nat by lia.
      by rewrite Nat.div_mul. }
  assert (take (length pt) (Mock.seal key nonce pt) = pt) as ->
    by (unfold Mock.seal; apply take_app_length).
  by rewrite decide_True.
Qed.

Lemma open_Some (key nonce ct pt : list byte) :
  Mock.open key nonce ct = Some pt → ct = Mock.seal key nonce pt.
Proof.
  unfold Mock.open. case_decide as H; [|done]. by intros [= <-].
Qed.

Lemma seal_lookup_front (key nonce pt : list byte) (a : nat) :
  (a < length pt)%nat → Mock.seal key nonce pt !! a = pt !! a.
Proof. intros. unfold Mock.seal. by rewrite lookup_app_l. Qed.

Lemma seal_lookup_back (key nonce pt : list byte) (a : nat) :
  Mock.seal key nonce pt !! (length pt + 2 * length key + length nonce + a)%nat
  = pt !! a.
Proof.
  unfold Mock.seal.
  rewrite lookup_app_r by lia. rewrite lookup_app_r by lia.
  rewrite lookup_app_r by lia. rewrite lookup_app_r by lia.
  f_equal. lia.
Qed.

Lemma seal_lookup_key1 (key nonce pt : list byte) (b : nat) :
  (b < length key)%nat →
  Mock.seal key nonce pt !! (length pt + b)%nat = key !! b.
Proof.
  intros. unfold Mock.seal.
  rewrite lookup_app_r by lia. rewrite lookup_app_l by lia.
  f_equal. lia.
Qed.

Lemma seal_lookup_key2 (key nonce pt : list byte) (b : nat) :
  (b < length key)%nat →
  Mock.seal key nonce pt !! (length pt + length key + b)%nat = key !! b.
Proof.
  intros. unfold Mock.seal.
  rewrite lookup_app_r by lia. rewrite lookup_app_r by lia.
  rewrite lookup_app_l by lia. f_equal. lia.
Qed.

(** Two boxes of the same sizes that agree everywhere but at one position
    are the same box under the same key: each part is written twice. *)
Lemma seal_agree (key key' nonce pt pt' : list byte) (j : nat) :
  length key' = length key → length pt' = length pt →
  (∀ a, a ≠ j → Mock.seal key' nonce pt' !! a = Mock.seal key nonce pt !! a) →
  pt' = pt ∧ key' = key.
Proof.
  intros Hk Hp Hag. split.
  - apply list_eq. intros a.
    destruct (decide (a < length pt)%nat) as [Ha|Ha].
    + destruct (decide (a = j)) as [->|Hne].
      * rewrite <- (seal_lookup_back key' nonce pt' j).
        rewrite <- (seal_lookup_back key nonce pt j).
        rewrite Hk, Hp. apply Hag. lia.
      * rewrite <- (seal_lookup_front key' nonce pt' a) by lia.
        rewrite <- (seal_lookup_front key nonce pt a) by lia.
        by apply Hag.
    + rewrite !lookup_ge_None_2 by lia. done.
  - apply list_eq. intros b.
    destruct (decide (b < length key)%nat) as [Hb|Hb].
    + destruct (decide (length pt + b = j)%nat) as [Hj|Hne].
      * rewrite <- (seal_lookup_key2 key' nonce pt' b) by lia.
        rewrite <- (seal_lookup_key2 key nonce pt b) by lia.
        rewrite Hk, Hp. apply Hag. lia.
      * rewrite <- (seal_lookup_key1 key' nonce pt' b) by lia.
        rewrite <- (seal_lookup_key1 key nonce pt b) by lia.
        rewrite Hp. by apply Hag.
    + rewrite !lookup_ge_None_2 by lia. done.
Qed.

End MockFacts.

Module MockInstances.

#[export] Instance crypto : CryptoProvider :=
  {| sha256_Sum256 := Mock.sha256;
     Keccak256 := Mock.keccak;
     gcm_Seal := Mock.seal;
     gcm_Open := Mock.open;
     ScalarBaseMult := Mock.base_mult;
     PubkeyToAddress_Hex := Mock.address_hex;
     sha256_Size := MockFacts.sha256_length;
     gcm_Open_Seal := MockFacts.open_seal |}.

Lemma read_back_empty {A : Type} (render : A → list byte) (known : list A) :
  Mock.read_back render known [] = None.
Proof. reflexivity. Qed.

(** The codec over the keystore records [known]. *)
Definition key_codec (known : list keystore.EncryptedKey)
  : JSONCodec keystore.EncryptedKey :=
  {| MarshalIndent := λ k, Some (Mock.render_key k);
     Unmarshal := Mock.read_back Mock.render_key known;
     Unmarshal_empty := read_back_empty Mock.render_key known |}.

(** The codec over the history documents [known]. *)
Definition history_codec (known : list (gmap Z history.TransactionRecord))
  : JSONCodec (gmap Z history.TransactionRecord) :=
  {| MarshalIndent := λ rs, Some (Mock.render_history rs);
     Unmarshal := Mock.read_back Mock.render_history known;
     Unmarshal_empty := read_back_empty Mock.render_history known |}.

(** The stand-in opens only what it sealed. *)
Lemma crypto_opens_only_sealed : keystore.gcm_opens_only_sealed.
Proof. intros key nonce box plaintext _ _. apply MockFacts.open_Some. Qed.

End MockInstances.

(** Inputs the examples run on. *)
Module Vectors.
Import MockInstances.

(** The secret [b"\x01"*32] of the specification's scenario. *)
Definition secret : list byte := replicate 32 x01.
Definition password : string := "correct horse battery staple".
Definition wrong_password : string := "wrong password".
(** 32 bytes for the salt, 12 for the nonce. *)
Definition entropy : Reader := (replicate 32 xa5 ++ replicate 12 x3c)%list.
(** Bytes that are no key: the scalar zero. *)
Definition zero_secret : list byte := replicate 32 x00.

Definition salt : list byte := take 32 entropy.
Definition iv : list byte := take 12 (drop 32 entropy).

(** The record [EncryptKey] makes of them. *)
Definition key : keystore.EncryptedKey :=
  let derivedKey := keystore.deriveKey password salt in
  let ciphertext := gcm_Seal derivedKey iv secret in
  keystore.sealed_key
    (PubkeyToAddress_Hex (ScalarBaseMult (bytes_to_Z secret)))
    salt iv ciphertext
    (Keccak256 (take 16 (drop 16 derivedKey) ++ ciphertext)).

(** A second record, of another secret under another password. *)
Definition secret2 : list byte := replicate 31 x00 ++ [x07].
Definition entropy2 : Reader := (replicate 32 x11 ++ replicate 12 x22)%list.
Definition key2 : keystore.EncryptedKey :=
  let salt := take 32 entropy2 in
  let iv := take 12 (drop 32 entropy2) in
  let derivedKey := keystore.deriveKey wrong_password salt in
  let ciphertext := gcm_Seal derivedKey iv secret2 in
  keystore.sealed_key
    (PubkeyToAddress_Hex (ScalarBaseMult (bytes_to_Z secret2)))
    salt iv ciphertext
    (Keccak256 (take 16 (drop 16 derivedKey) ++ ciphertext)).

Lemma secret_valid : keystore.valid_key secret.
Proof. split; [reflexivity|]. vm_compute. split; reflexivity. Qed.

Lemma EncryptKey_key :
  (keystore.EncryptKey secret password entropy).1 = Ok key.
Proof. vm_compute. reflexivity. Qed.

Lemma EncryptKey_key2 :
  (keystore.EncryptKey secret2 wrong_password entropy2).1 = Ok key2.
Proof. vm_compute. reflexivity. Qed.

End Vectors.

(* ===================================================================== *)
(** * Claims about the cipher engine                                       *)
(* ===================================================================== *)

Section CipherClaims.
Context `{CP : CryptoProvider}.
Import keystore.

Lemma DecryptKey_redeclare_kdf (key : EncryptedKey) (password kdf prf : string)
    (c dklen : Z) :
  DecryptKey (redeclare_kdf key kdf c dklen prf) password = DecryptKey key password.
Proof.
  unfold DecryptKey, redeclare_kdf. cbn [Crypto KDFParams CipherParams CipherText].
  by rewrite !lookup_insert_ne by done.
Qed.

(** The MAC a record carries is not looked at either. *)
Lemma DecryptKey_ignores_MAC (key : EncryptedKey) (mac password : string) :
  DecryptKey
    {| Address := Address key;
       Crypto := {| Cipher := Cipher (Crypto key);
                    CipherText := CipherText (Crypto key);
                    CipherParams := CipherParams (Crypto key);
                    KDF := KDF (Crypto key);
                    KDFParams := KDFParams (Crypto key);
                    MAC := mac |};
       Version := Version key;
       ID := ID key |} password
  = DecryptKey key password.
Proof. reflexivity. Qed.

(** C1 (what the code does instead).  The record [EncryptKey] returns
    declares PBKDF2 with 262144 rounds of HMAC-SHA256 and a 32-byte key,
    but the key it is sealed under is one SHA-256 of the password followed
    by the salt; and [DecryptKey] never reads the declaration: whatever
    KDF name, round count, key length and PRF a record declares, the
    outcome is the same. *)
Theorem deriveKey_is_one_sha256_whatever_is_declared
    (secret : list byte) (password : string) (rnd : Reader) (key : EncryptedKey) :
  (EncryptKey secret password rnd).1 = Ok key →
  (KDF (Crypto key) = "pbkdf2" ∧
   KDFParams (Crypto key) !! "c" = Some (ParamInt 262144) ∧
   KDFParams (Crypto key) !! "dklen" = Some (ParamInt 32) ∧
   KDFParams (Crypto key) !! "prf" = Some (ParamString "hmac-sha256")) ∧
  ciphertext_bytes key =
    Some (gcm_Seal (sha256_Sum256 (bytes_of_string password ++ take 32 rnd))
            (take 12 (drop 32 rnd)) secret) ∧
  ∀ password' kdf c dklen prf,
    DecryptKey (redeclare_kdf key kdf c dklen prf) password' = DecryptKey key password'.
Proof.
  intros H. apply EncryptKey_Ok_inv in H as (_ & priv & _ & ->).
  split; [|split].
  - unfold sealed_key. cbn [Crypto KDF KDFParams].
    repeat split; by simplify_map_eq.
  - by rewrite ciphertext_bytes_sealed_key.
  - intros. apply DecryptKey_redeclare_kdf.
Qed.

(** C2 (as amended).  Given the 44 bytes of randomness [EncryptKey]
    draws, and for every password: when the secret is a secp256k1 private
    key (32 bytes, a scalar above zero and below the group order),
    [EncryptKey] returns a record and [DecryptKey] of that record under
    the same password returns the key whose bytes are the secret; and
    those are the only secrets that make the round trip. *)
Theorem EncryptKey_DecryptKey_round_trip
    (secret : list byte) (password : string) (rnd : Reader) :
  (44 ≤ length rnd)%nat →
  (valid_key secret ↔ round_trip secret password rnd = Ok secret).
Proof.
  intros Hl. split.
  - intros Hv. apply ToECDSA_valid in Hv as [priv Hk].
    unfold round_trip. rewrite (EncryptKey_Ok _ _ _ priv Hl Hk).
    cbn [mbind result_bind].
    rewrite DecryptKey_sealed_key by (rewrite length_take, length_drop; lia).
    rewrite gcm_Open_Seal, Hk. cbn [mbind result_bind].
    f_equal. by apply FromECDSA_ToECDSA.
  - unfold round_trip.
    destruct (EncryptKey secret password rnd).1 as [key| |] eqn:He; [|done..].
    intros _. apply EncryptKey_Ok_inv in He as (_ & priv & Hk & _).
    apply ToECDSA_valid. eauto.
Qed.

(** X23.  [DecryptKey] fails closed, and GCM's tag is the only check it
    makes of the sealed bytes (the [mac] field is not read).  On a record [EncryptKey] made, with any bytes in place of the sealed
    bytes and under any password, it returns the decryption error exactly
    when GCM's [Open] rejects the bytes under the key derived from that
    password, and a key only when [Open] accepts them.  As [Open] accepts
    only what [Seal] makes, a key that comes out is one the bytes are
    the sealed box of; so under the right password altered bytes never
    give the key back that was encrypted: they give the error, or (should
    they be the sealed box of another key) that other key. *)
Theorem DecryptKey_fails_closed
    (secret : list byte) (password : string) (rnd : Reader) (key : EncryptedKey)
    (sealed : list byte) :
  (EncryptKey secret password rnd).1 = Ok key →
  ciphertext_bytes key = Some sealed →
  (∀ box password',
     DecryptKey (with_ciphertext key box) password' =
       match gcm_Open (deriveKey password' (take 32 rnd)) (take 12 (drop 32 rnd)) box with
       | None => Err ErrDecrypt
       | Some plaintext =>
           match ToECDSA plaintext with
           | None => Err ErrToECDSA
           | Some privateKey => Ok privateKey
           end
       end) ∧
  with_ciphertext key sealed = key ∧
  (gcm_opens_only_sealed →
     (∀ box password' privateKey,
        DecryptKey (with_ciphertext key box) password' = Ok privateKey →
        box = gcm_Seal (deriveKey password' (take 32 rnd)) (take 12 (drop 32 rnd))
                (FromECDSA privateKey)) ∧
     (∀ box, box ≠ sealed →
        DecryptKey (with_ciphertext key box) password ≠ DecryptKey key password)).
Proof.
  intros H Hct. apply EncryptKey_Ok_inv in H as (Hl & priv & Hpriv & ->).
  rewrite ciphertext_bytes_sealed_key in Hct. injection Hct as <-.
  assert (Hiv : length (take 12 (drop 32 rnd)) = 12%nat)
    by (rewrite length_take, length_drop; lia).
  assert (Hall : ∀ box password',
     DecryptKey (with_ciphertext
                   (sealed_key (PubkeyToAddress_Hex (ecdsa.PublicKey priv))
                      (take 32 rnd) (take 12 (drop 32 rnd))
                      (gcm_Seal (deriveKey password (take 32 rnd))
                         (take 12 (drop 32 rnd)) secret)
                      (Keccak256
                         (take 16 (drop 16 (deriveKey password (take 32 rnd))) ++
                          gcm_Seal (deriveKey password (take 32 rnd))
                            (take 12 (drop 32 rnd)) secret))) box) password' =
       match gcm_Open (deriveKey password' (take 32 rnd)) (take 12 (drop 32 rnd)) box with
       | None => Err ErrDecrypt
       | Some plaintext =>
           match ToECDSA plaintext with
           | None => Err ErrToECDSA
           | Some privateKey => Ok privateKey
           end
       end).
  { intros box password'. rewrite with_ciphertext_sealed_key.
    by apply DecryptKey_sealed_key. }
  split; [exact Hall|]. split; [by rewrite with_ciphertext_sealed_key|].
  intros Honly.
  assert (Hbox : ∀ box password' privateKey,
     DecryptKey (with_ciphertext
                   (sealed_key (PubkeyToAddress_Hex (ecdsa.PublicKey priv))
                      (take 32 rnd) (take 12 (drop 32 rnd))
                      (gcm_Seal (deriveKey password (take 32 rnd))
                         (take 12 (drop 32 rnd)) secret)
                      (Keccak256
                         (take 16 (drop 16 (deriveKey password (take 32 rnd))) ++
                          gcm_Seal (deriveKey password (take 32 rnd))
                            (take 12 (drop 32 rnd)) secret))) box) password'
       = Ok privateKey →
     box = gcm_Seal (deriveKey password' (take 32 rnd)) (take 12 (drop 32 rnd))
             (FromECDSA privateKey)).
  { intros box password' privateKey. rewrite Hall.
    destruct (gcm_Open _ _ box) as [plaintext|] eqn:Hopen; [|done].
    destruct (ToECDSA plaintext) as [k|] eqn:Hk; [|done]. intros [= ->].
    rewrite (FromECDSA_ToECDSA _ _ Hk).
    apply Honly; [apply deriveKey_length|done|done]. }
  split; [exact Hbox|].
  intros box Hne Heq.
  rewrite DecryptKey_sealed_key in Heq by done.
  rewrite gcm_Open_Seal, Hpriv in Heq.
  apply Hbox in Heq. rewrite (FromECDSA_ToECDSA _ _ Hpriv) in Heq. done.
Qed.

(** C9.  Every record [EncryptKey] returns has the ID
    [hex(Keccak256("GoSignerVaultCLI"))], so any two of them have the same
    ID, whatever the keys and passwords; and it declares version 3,
    cipher aes-256-gcm and KDF pbkdf2. *)
Theorem EncryptKey_constant_id_and_declarations
    (secret secret' : list byte) (password password' : string)
    (rnd rnd' : Reader) (key key' : EncryptedKey) :
  (EncryptKey secret password rnd).1 = Ok key →
  (EncryptKey secret' password' rnd').1 = Ok key' →
  ID key = hex_encode (Keccak256 (bytes_of_string "GoSignerVaultCLI")) ∧
  ID key' = ID key ∧
  Version key = 3 ∧
  Cipher (Crypto key) = "aes-256-gcm" ∧
  KDF (Crypto key) = "pbkdf2".
Proof.
  intros H H'.
  apply EncryptKey_Ok_inv in H as (_ & priv & _ & ->).
  apply EncryptKey_Ok_inv in H' as (_ & priv' & _ & ->).
  done.
Qed.

(** C10.  Sealed bytes whose tag verifies under the password are not
    enough: when the plaintext that comes out is no secp256k1 private key
    (a wrong length, zero, or not below the group order), [DecryptKey],
    given the right password, returns the conversion error and no
    plaintext. *)
Theorem DecryptKey_requires_a_private_key
    (address : string) (salt iv mac plaintext : list byte) (password : string) :
  length iv = 12%nat → ToECDSA plaintext = None →
  let sealed := gcm_Seal (deriveKey password salt) iv plaintext in
  aesGCM_Open (deriveKey password salt) iv sealed = Ok (Some plaintext) ∧
  DecryptKey (sealed_key address salt iv sealed mac) password = Err ErrToECDSA.
Proof.
  intros Hiv Hk sealed. subst sealed. split.
  - unfold aesGCM_Open. rewrite Hiv, gcm_Open_Seal. done.
  - rewrite DecryptKey_sealed_key by done. by rewrite gcm_Open_Seal, Hk.
Qed.

End CipherClaims.

Module CipherWitnesses.
Import keystore MockInstances Vectors.

(** C1 at the vectors. *)
Lemma deriveKey_is_one_sha256_witness :
  KDFParams (Crypto key) !! "c" = Some (ParamInt 262144) ∧
  ciphertext_bytes key =
    Some (gcm_Seal (sha256_Sum256 (bytes_of_string password ++ salt)) iv secret) ∧
  DecryptKey (redeclare_kdf key "scrypt" 1 16 "none") password = DecryptKey key password.
Proof.
  destruct (deriveKey_is_one_sha256_whatever_is_declared
              secret password entropy key EncryptKey_key)
    as ((_ & Hc & _) & Hs & Hd).
  split; [exact Hc|]. split; [exact Hs|]. apply Hd.
Defined.

(** C2 at the specification's scenario. *)
Lemma round_trip_witness : round_trip secret password entropy = Ok secret.
Proof.
  apply (EncryptKey_DecryptKey_round_trip secret password entropy).
  - vm_compute. lia.
  - exact secret_valid.
Defined.

Example DecryptKey_without_salt :
  DecryptKey (redeclare_kdf
                {| Address := Address key;
                   Crypto := {| Cipher := Cipher (Crypto key);
                                CipherText := CipherText (Crypto key);
                                CipherParams := CipherParams (Crypto key);
                                KDF := KDF (Crypto key);
                                KDFParams := ∅;
                                MAC := MAC (Crypto key) |};
                   Version := Version key; ID := ID key |}
                "pbkdf2" 262144 32 "hmac-sha256") password
  = Err ErrInvalidSalt.
Proof. reflexivity. Qed.

Example DecryptKey_ciphertext_not_hex :
  DecryptKey
    {| Address := Address key;
       Crypto := {| Cipher := Cipher (Crypto key);
                    CipherText := "0xzz";
                    CipherParams := CipherParams (Crypto key);
                    KDF := KDF (Crypto key);
                    KDFParams := KDFParams (Crypto key);
                    MAC := MAC (Crypto key) |};
       Version := Version key; ID := ID key |} password
  = Err ErrDecodeCiphertext.
Proof. vm_compute. reflexivity. Qed.

Example DecryptKey_iv_too_short_to_slice :
  DecryptKey
    {| Address := Address key;
       Crypto := {| Cipher := Cipher (Crypto key);
                    CipherText := CipherText (Crypto key);
                    CipherParams := {| IV := "0" |};
                    KDF := KDF (Crypto key);
                    KDFParams := KDFParams (Crypto key);
                    MAC := MAC (Crypto key) |};
       Version := Version key; ID := ID key |} password
  = Panic.
Proof. vm_compute. reflexivity. Qed.

(** C2, as first stated, fails on a secret that is no private key: on 32
    zero bytes [EncryptKey] panics (it takes the public key of what
    [crypto.ToECDSA] returns, which is nil), so nothing is there to
    decrypt. *)
Lemma round_trip_counterexample :
  round_trip zero_secret password entropy ≠ Ok zero_secret.
Proof. vm_compute. discriminate. Qed.

(** X23 at the vectors: 48 zero bytes in place of the sealed bytes do not
    give the key back. *)
Lemma DecryptKey_fails_closed_witness :
  DecryptKey (with_ciphertext key (replicate 48 x00)) password ≠ DecryptKey key password.
Proof.
  destruct (DecryptKey_fails_closed secret password entropy key
              (gcm_Seal (deriveKey password salt) iv secret) EncryptKey_key)
    as (_ & _ & H); [by vm_compute|].
  destruct (H crypto_opens_only_sealed) as [_ Hne].
  apply Hne. vm_compute. discriminate.
Defined.

(** The scenario of the specification, with the stand-in for the cipher:
    the wrong password is rejected. *)
Example DecryptKey_wrong_password_at_the_vectors :
  DecryptKey key wrong_password = Err ErrDecrypt.
Proof. vm_compute. reflexivity. Qed.

(** C9 at two records of different secrets and passwords. *)
Lemma EncryptKey_constant_id_witness :
  ID key2 = ID key ∧ Version key = 3 ∧ KDF (Crypto key) = "pbkdf2".
Proof.
  destruct (EncryptKey_constant_id_and_declarations
              secret secret2 password wrong_password entropy entropy2 key key2
              EncryptKey_key EncryptKey_key2)
    as (_ & Hid & Hv & _ & Hk).
  auto.
Defined.

(** C10 at the vectors: 32 zero bytes sealed under the password. *)
Lemma DecryptKey_requires_a_private_key_witness :
  DecryptKey
    (sealed_key "0x00" salt iv (gcm_Seal (deriveKey password salt) iv zero_secret) [])
    password = Err ErrToECDSA.
Proof.
  apply (DecryptKey_requires_a_private_key "0x00" salt iv [] zero_secret password);
    reflexivity.
Defined.

End CipherWitnesses.

(* ===================================================================== *)
(** * The batch signer                                                     *)
(* ===================================================================== *)

Section BatchFacts.
Import core.
Variable sign : Wallet → Transaction → list byte * option string.

Lemma collect_length (received : list (nat * BatchSignResult))
    (results : list BatchSignResult) :
  length (collect results received) = length results.
Proof.
  revert results. induction received as [|msg received IH]; intros results; [done|].
  cbn. unfold collect in IH. rewrite IH. apply length_insert.
Qed.

(** A slot no message is addressed to keeps its value. *)
Lemma collect_lookup_other (received : list (nat * BatchSignResult))
    (results : list BatchSignResult) (i : nat) :
  i ∉ received.*1 → collect results received !! i = results !! i.
Proof.
  revert results. induction received as [|msg received IH]; intros results Hi; [done|].
  cbn in *. apply not_elem_of_cons in Hi as [Hne Hi].
  unfold collect in IH. rewrite IH by done.
  by apply list_lookup_insert_ne.
Qed.

(** When no two messages have the same index, each slot holds the message
    addressed to it, wherever in the sequence it arrived. *)
Lemma collect_lookup (received : list (nat * BatchSignResult))
    (results : list BatchSignResult) (i : nat) (r : BatchSignResult) :
  NoDup received.*1 → (i, r) ∈ received → (i < length results)%nat →
  collect results received !! i = Some r.
Proof.
  revert results. induction received as [|msg received IH]; intros results Hnd Hin Hlt.
  - by apply elem_of_nil in Hin.
  - cbn in *. apply NoDup_cons in Hnd as [Hfresh Hnd].
    apply elem_of_cons in Hin as [<-|Hin].
    + cbn in *. fold (collect (<[i:=r]> results) received).
      rewrite collect_lookup_other by done.
      by apply list_lookup_insert_eq.
    + unfold collect in IH. apply IH; [done..|]. by rewrite length_insert.
Qed.

Lemma sign_one_index (bs : BatchSigner) (i : nat) (tx : Transaction) :
  (sign_one sign bs i tx).1 = i.
Proof. unfold sign_one. by destruct (sign _ _) as [? [?|]]. Qed.

(** The messages received are those of the goroutines in [order]. *)
Lemma received_indices (bs : BatchSigner) (txs : list Transaction) (order : list nat) :
  (∀ i, i ∈ order → (i < length txs)%nat) →
  (omap (λ i, imap (sign_one sign bs) txs !! i) order).*1 = order.
Proof.
  induction order as [|i order IH]; intros Hin; [done|].
  destruct (lookup_lt_is_Some_2 txs i) as [tx Htx]; [apply Hin; left|].
  cbn. rewrite list_lookup_imap, Htx. cbn.
  rewrite sign_one_index. f_equal. apply IH. intros j Hj. apply Hin. by right.
Qed.

Lemma received_elem (bs : BatchSigner) (txs : list Transaction) (order : list nat)
    (i : nat) (tx : Transaction) :
  i ∈ order → txs !! i = Some tx →
  sign_one sign bs i tx ∈ omap (λ i, imap (sign_one sign bs) txs !! i) order.
Proof.
  intros Hi Htx. apply list_elem_of_omap. exists i. split; [done|].
  by rewrite list_lookup_imap, Htx.
Qed.

Lemma SignBatch_lookup (order : list nat) (bs : BatchSigner)
    (txs : list Transaction) (i : nat) (tx : Transaction) :
  order ≡ₚ seq 0 (length txs) → txs !! i = Some tx →
  SignBatch sign order bs txs !! i = Some (sign_one sign bs i tx).2.
Proof.
  intros Hperm Htx. unfold SignBatch.
  assert (Hbound : ∀ j, j ∈ order → (j < length txs)%nat).
  { intros j Hj. rewrite Hperm in Hj. apply elem_of_seq in Hj. lia. }
  assert (Hi : (i < length txs)%nat) by (by eapply lookup_lt_Some).
  apply collect_lookup.
  - rewrite received_indices by done. rewrite Hperm. apply NoDup_seq.
  - rewrite <- (sign_one_index bs i tx) at 1. rewrite <- surjective_pairing.
    apply received_elem; [|done]. rewrite Hperm. apply elem_of_seq. lia.
  - by rewrite length_replicate.
Qed.

Lemma SignBatch_length (order : list nat) (bs : BatchSigner) (txs : list Transaction) :
  length (SignBatch sign order bs txs) = length txs.
Proof. unfold SignBatch. by rewrite collect_length, length_replicate. Qed.

(** What [sign_one] puts in the result. *)
Lemma sign_one_result (bs : BatchSigner) (i : nat) (tx : Transaction) :
  let r := (sign_one sign bs i tx).2 in
  TransactionID r = "tx_" +:+ Sprintf_d i ∧
  match (sign (wallet bs) tx).2 with
  | Some msg => Error r = msg ∧ Signature r = []
  | None => Error r = EmptyString ∧ Signature r = (sign (wallet bs) tx).1
  end.
Proof. unfold sign_one. by destruct (sign _ _) as [? [?|]]. Qed.

(** C4.  Whatever the order in which the goroutines complete, [SignBatch]
    returns as many results as there are transactions, and the result at
    position [i] is the outcome of signing the transaction at position
    [i]: it is named [tx_i], and it carries what the wallet's
    [SignTransaction] returned for that transaction, the message of its
    error and no signature when it failed, its signature and no error
    otherwise.  So the results are the same for every order of
    completion. *)
Theorem SignBatch_results_in_request_order (order : list nat) (bs : BatchSigner)
    (txs : list Transaction) :
  order ≡ₚ seq 0 (length txs) →
  length (SignBatch sign order bs txs) = length txs ∧
  (∀ i tx, txs !! i = Some tx →
     SignBatch sign order bs txs !! i =
       Some (match sign (wallet bs) tx with
             | (_, Some msg) =>
                 {| TransactionID := "tx_" +:+ Sprintf_d i;
                    Signature := []; Error := msg |}
             | (signature, None) =>
                 {| TransactionID := "tx_" +:+ Sprintf_d i;
                    Signature := signature; Error := EmptyString |}
             end)) ∧
  (∀ order', order' ≡ₚ seq 0 (length txs) →
     SignBatch sign order' bs txs = SignBatch sign order bs txs).
Proof.
  intros Hperm. split; [apply SignBatch_length|]. split.
  - intros i tx Htx. rewrite (SignBatch_lookup _ _ _ _ _ Hperm Htx).
    unfold sign_one. by destruct (sign (wallet bs) tx) as [signature [msg|]].
  - intros order' Hperm'. apply list_eq. intros i.
    destruct (txs !! i) as [tx|] eqn:Htx.
    + by rewrite !(SignBatch_lookup _ _ _ i tx).
    + rewrite !(lookup_ge_None_2 (SignBatch _ _ _ _)); [done|..];
        rewrite SignBatch_length; by apply lookup_ge_None_1.
Qed.

(** C5.  Whatever the order of completion, the result for request [i] is
    made from request [i] alone: it has the error message and no signature
    when signing it failed, the signature and no error otherwise, never
    both; its signature and error are those of the request signed as a
    batch of one; and it is the same in any batch, in any order, that has
    the request at position [i], whatever the other requests are and
    whether they fail. *)
Theorem SignBatch_isolates_failures (order : list nat) (bs : BatchSigner)
    (txs : list Transaction) (i : nat) (tx : Transaction) :
  order ≡ₚ seq 0 (length txs) → txs !! i = Some tx →
  ∃ r, SignBatch sign order bs txs !! i = Some r ∧
    match (sign (wallet bs) tx).2 with
    | Some msg => Error r = msg ∧ Signature r = []
    | None => Error r = EmptyString ∧ Signature r = (sign (wallet bs) tx).1
    end ∧
    (Signature r = [] ∨ Error r = EmptyString) ∧
    (∃ alone, SignBatch sign [0%nat] bs [tx] = [alone] ∧
       Signature alone = Signature r ∧ Error alone = Error r) ∧
    (∀ order' txs', order' ≡ₚ seq 0 (length txs') → txs' !! i = Some tx →
       SignBatch sign order' bs txs' !! i = Some r).
Proof.
  intros Hperm Htx. exists (sign_one sign bs i tx).2.
  pose proof (sign_one_result bs i tx) as [_ Hr].
  pose proof (sign_one_result bs 0 tx) as [_ Hr0].
  cbv zeta in Hr, Hr0.
  split; [by apply SignBatch_lookup|]. split; [exact Hr|]. split; [|split].
  - destruct (sign (wallet bs) tx).2; destruct Hr; auto.
  - exists (sign_one sign bs 0 tx).2. split.
    + pose proof (SignBatch_lookup [0%nat] bs [tx] 0 tx (reflexivity _) eq_refl) as H0.
      pose proof (SignBatch_length [0%nat] bs [tx]) as Hlen.
      destruct (SignBatch sign [0%nat] bs [tx]) as [|a [|b l]]; [done| |done].
      by injection H0 as ->.
    + destruct (sign (wallet bs) tx).2; destruct Hr as [-> ->], Hr0 as [-> ->]; done.
  - intros order' txs' Hperm' Htx'. by apply SignBatch_lookup.
Qed.

End BatchFacts.

Module BatchWitnesses.
Import core.

Definition signer : BatchSigner :=
  {| wallet := {| PrivateKey := {| ecdsa.D := 7; ecdsa.PublicKey := (7, 8) |};
                  PublicKey := (7, 8); Address := 99 |} |}.

Definition transfer (nonce : Z) : Transaction :=
  {| Nonce := nonce; GasPrice := Some 1; GasLimit := 21000; To := Some 42;
     Value := Some 5; Data := []; ChainID := Some 1 |}.

(** A request the signer refuses: no recipient. *)
Definition malformed : Transaction :=
  {| Nonce := 1; GasPrice := Some 1; GasLimit := 21000; To := None;
     Value := Some 5; Data := []; ChainID := Some 1 |}.

Definition requests : list Transaction := [transfer 0; malformed; transfer 2].

Lemma completion_order : [2; 0; 1]%nat ≡ₚ seq 0 (length requests).
Proof. apply (Permutation_cons_app [0; 1]%nat [] 2%nat). reflexivity. Qed.

(** C4 at the scenario of the specification, the last goroutine
    completing first: the third result is that of the third request, with
    the signature the signer gave for it. *)
Lemma SignBatch_results_in_request_order_witness :
  length (SignBatch Mock.sign [2; 0; 1]%nat signer requests) = 3%nat ∧
  SignBatch Mock.sign [2; 0; 1]%nat signer requests !! 2%nat =
    Some {| TransactionID := "tx_2";
            Signature := PaddedBigBytes 9 65;
            Error := EmptyString |} ∧
  SignBatch Mock.sign [0; 1; 2]%nat signer requests
  = SignBatch Mock.sign [2; 0; 1]%nat signer requests.
Proof.
  destruct (SignBatch_results_in_request_order Mock.sign [2; 0; 1]%nat signer
              requests completion_order) as (Hlen & Hpos & Hord).
  split; [exact Hlen|]. split.
  - exact (Hpos 2%nat (transfer 2) eq_refl).
  - apply Hord. reflexivity.
Defined.

(** C5 at the same scenario: request 1 fails, and its result has the
    error and no signature. *)
Lemma SignBatch_isolates_failures_witness :
  ∃ r, SignBatch Mock.sign [2; 0; 1]%nat signer requests !! 1%nat = Some r ∧
       Error r = "failed to sign transaction" ∧ Signature r = [].
Proof.
  destruct (SignBatch_isolates_failures Mock.sign [2; 0; 1]%nat signer requests
              1 malformed completion_order eq_refl) as (r & Hr & Hm & _).
  exists r. split; [exact Hr|]. exact Hm.
Defined.

(** The scenario as the specification words it. *)
Example SignBatch_three_requests_one_malformed :
  Error <$> SignBatch Mock.sign [2; 0; 1]%nat signer requests =
  [EmptyString; "failed to sign transaction"; EmptyString].
Proof. reflexivity. Qed.

End BatchWitnesses.

(* ===================================================================== *)
(** * The transaction monitor                                              *)
(* ===================================================================== *)

Module MonitorFacts.
Import monitor.

(** What holds of every world an execution reaches: no hash has two
    loops, a hash with a loop is tracked and pending, and every tracked
    status is one of the four the specification names. *)
Record Inv (w : World) : Prop := mkInv {
  inv_nodup : NoDup (loops w);
  inv_pending : ∀ h, h ∈ loops w →
    ∃ st, statuses (mon w) !! h = Some st ∧ Status st = "pending";
  inv_known : ∀ h st, statuses (mon w) !! h = Some st → is_Some (state_of (Status st))
}.

Lemma exit_loop_elem (h h' : Z) (ls : list Z) :
  h' ∈ exit_loop h ls → h' ∈ ls.
Proof.
  induction ls as [|x ls IH]; cbn; [done|].
  case_decide; [by right|].
  intros [->|Hin]%elem_of_cons; [by left|]. right. by apply IH.
Qed.

Lemma exit_loop_NoDup (h : Z) (ls : list Z) :
  NoDup ls → NoDup (exit_loop h ls) ∧ h ∉ exit_loop h ls.
Proof.
  induction 1 as [|x ls Hx Hnd [IH1 IH2]]; cbn.
  - split; [constructor|apply not_elem_of_nil].
  - case_decide as Hd.
    + subst. done.
    + split.
      * constructor; [|done]. intros Hin. by apply exit_loop_elem in Hin.
      * apply not_elem_of_cons. split; [congruence|done].
Qed.

Lemma updateStatus_lookup_ne (m : Monitor) (h h' : Z) (status errMsg : string)
    (blockNum gasUsed now : Z) :
  h' ≠ h →
  statuses (updateStatus m h status blockNum gasUsed errMsg now).1 !! h'
  = statuses m !! h'.
Proof.
  intros Hne. unfold updateStatus. destruct (statuses m !! h); [|done].
  cbn. by rewrite lookup_insert_ne.
Qed.

Lemma updateStatus_lookup_eq (m : Monitor) (h : Z) (status errMsg : string)
    (blockNum gasUsed now : Z) (st : TransactionStatus) :
  statuses m !! h = Some st →
  statuses (updateStatus m h status blockNum gasUsed errMsg now).1 !! h
  = Some {| Hash := Hash st; Status := status; BlockNum := blockNum;
            GasUsed := gasUsed; Error := errMsg; Timestamp := now |}.
Proof.
  intros Hst. unfold updateStatus. rewrite Hst. cbn. by rewrite lookup_insert_eq.
Qed.

Lemma updateStatus_known (m : Monitor) (h : Z) (status errMsg : string)
    (blockNum gasUsed now : Z) :
  is_Some (state_of status) →
  (∀ h' st, statuses m !! h' = Some st → is_Some (state_of (Status st))) →
  ∀ h' st, statuses (updateStatus m h status blockNum gasUsed errMsg now).1 !! h'
           = Some st → is_Some (state_of (Status st)).
Proof.
  intros Hs Hm h' st. destruct (decide (h' = h)) as [->|Hne].
  - destruct (statuses m !! h) as [st0|] eqn:Hst.
    + rewrite (updateStatus_lookup_eq _ _ _ _ _ _ _ _ Hst). by intros [= <-].
    + unfold updateStatus. rewrite Hst. cbn. by rewrite Hst.
  - rewrite updateStatus_lookup_ne by done. apply Hm.
Qed.

(** The statuses after a tick. *)
Lemma monitorTransaction_tick_lookup_ne (m : Monitor) (h h' : Z) (resp : string + types.Receipt)
    (now : Z) :
  h' ≠ h → statuses (monitorTransaction_tick m h resp now).1.1 !! h' = statuses m !! h'.
Proof.
  intros Hne. unfold monitorTransaction_tick. destruct resp as [msg|receipt].
  - destruct (String.eqb msg "not found"); [done|].
    cbn. by apply updateStatus_lookup_ne.
  - cbn. by apply updateStatus_lookup_ne.
Qed.

Lemma monitorTransaction_tick_known (m : Monitor) (h : Z) (resp : string + types.Receipt) (now : Z) :
  (∀ h' st, statuses m !! h' = Some st → is_Some (state_of (Status st))) →
  ∀ h' st, statuses (monitorTransaction_tick m h resp now).1.1 !! h' = Some st →
           is_Some (state_of (Status st)).
Proof.
  intros Hm. unfold monitorTransaction_tick. destruct resp as [msg|receipt].
  - destruct (String.eqb msg "not found"); [done|].
    cbn. by apply updateStatus_known.
  - cbn. apply updateStatus_known; [|done].
    by destruct (types.Status receipt =? types.ReceiptStatusFailed).
Qed.

(** The state after a tick, of a hash that was pending. *)
Lemma monitorTransaction_tick_state (m : Monitor) (h : Z) (resp : string + types.Receipt) (now : Z)
    (st : TransactionStatus) :
  statuses m !! h = Some st → Status st = "pending" →
  (st' ← statuses (monitorTransaction_tick m h resp now).1.1 !! h; state_of (Status st'))
  = Some (spec_step Pending (observe resp)).
Proof.
  intros Hst Hp. unfold monitorTransaction_tick, observe. destruct resp as [msg|receipt].
  - destruct (String.eqb msg "not found").
    + cbn. rewrite Hst. cbn. by rewrite Hp.
    + cbn. by rewrite (updateStatus_lookup_eq _ _ _ _ _ _ _ _ Hst).
  - cbn. rewrite (updateStatus_lookup_eq _ _ _ _ _ _ _ _ Hst). cbn.
    by destruct (types.Status receipt =? types.ReceiptStatusFailed).
Qed.

(** A tick that lets the loop go on has changed nothing. *)
Lemma monitorTransaction_tick_Continue (m : Monitor) (h : Z) (resp : string + types.Receipt) (now : Z) :
  (monitorTransaction_tick m h resp now).2 = Continue → (monitorTransaction_tick m h resp now).1 = (m, []).
Proof.
  unfold monitorTransaction_tick. destruct resp as [msg|receipt]; [|done].
  by destruct (String.eqb msg "not found").
Qed.

Lemma Inv_init : Inv init.
Proof.
  split; cbn.
  - constructor.
  - intros h Hh. by apply elem_of_nil in Hh.
  - intros h st Hst. by rewrite lookup_empty in Hst.
Qed.

Lemma Inv_step (w w' : World) (e : event) :
  Inv w → step w e = Some w' → Inv w'.
Proof.
  intros [Hnd Hpend Hknown] Hstep. destruct e as [h now|h resp now|h|h cb|h cb]; cbn in Hstep.
  - (* MonitorTransaction *)
    unfold MonitorTransaction in Hstep.
    destruct (statuses (mon w) !! h) as [st|] eqn:Hst; injection Hstep as <-; cbn.
    + by split.
    + split; cbn.
      * constructor; [|done]. intros Hin.
        destruct (Hpend h Hin) as (st & Hst' & _). congruence.
      * intros h' [->|Hin]%elem_of_cons.
        -- eexists. by rewrite lookup_insert_eq.
        -- destruct (Hpend h' Hin) as (st & Hst' & Hp).
           exists st. split; [|done].
           rewrite lookup_insert_ne; [done|]. congruence.
      * intros h' st. destruct (decide (h' = h)) as [->|Hne].
        -- rewrite lookup_insert_eq. by intros [= <-].
        -- rewrite lookup_insert_ne by done. apply Hknown.
  - (* Tick *)
    case_decide as Hin; [|done].
    pose proof (monitorTransaction_tick_lookup_ne (mon w) h) as Hne.
    pose proof (monitorTransaction_tick_known (mon w) h resp now Hknown) as Hk.
    pose proof (monitorTransaction_tick_Continue (mon w) h resp now) as Hc.
    destruct (monitorTransaction_tick (mon w) h resp now) as [[m' invoked] next] eqn:Hot.
    injection Hstep as <-. cbn in *.
    destruct next.
    + injection (Hc eq_refl) as -> ->. by split.
    + destruct (exit_loop_NoDup h (loops w) Hnd) as [Hnd' Hout].
      split; cbn; [done| |done].
      intros h' Hin'. assert (h' ≠ h) by (intros ->; done).
      apply exit_loop_elem in Hin'.
      destruct (Hpend h' Hin') as (st & Hst & Hp). exists st.
      specialize (Hne h' resp now). rewrite Hot in Hne. cbn in Hne.
      by rewrite Hne.
  - (* CtxDone *)
    case_decide as Hin; [|done]. injection Hstep as <-.
    destruct (exit_loop_NoDup h (loops w) Hnd) as [Hnd' Hout].
    split; cbn; [done| |done].
    intros h' Hin'. apply exit_loop_elem in Hin'. by apply Hpend.
  - (* AddCallback *)
    injection Hstep as <-. by split.
  - (* RemoveCallback *)
    injection Hstep as <-. unfold RemoveCallback.
    destruct (callbacks (mon w) !! h); [case_decide|]; by split.
Qed.

Lemma Inv_run (es : list event) (w w' : World) :
  Inv w → run w es = Some w' → Inv w'.
Proof.
  revert w. induction es as [|e es IH]; intros w Hinv; cbn.
  - by intros [= <-].
  - destruct (step w e) as [w1|] eqn:Hs; [|done].
    apply IH. by eapply Inv_step.
Qed.

Lemma Inv_reachable (w : World) : reachable w → Inv w.
Proof. intros [es Hes]. eapply Inv_run; [apply Inv_init|done]. Qed.

(** A hash in a terminal state has no loop. *)
Lemma terminal_no_loop (w : World) (h : Z) (s : State) :
  Inv w → state_at w h = Some s → terminal s = true → h ∉ loops w.
Proof.
  intros [_ Hpend _] Hs Ht Hin.
  destruct (Hpend h Hin) as (st & Hst & Hp).
  unfold state_at in Hs. rewrite Hst in Hs. cbn in Hs. rewrite Hp in Hs.
  injection Hs as <-. done.
Qed.

(** Invocations made for one hash are none of another's. *)
Lemma calls_of_other (h h' : Z) (invoked : list (Callback * TransactionStatus)) :
  h ≠ h' →
  filter (λ c : Z * (Callback * TransactionStatus), c.1 = h) (map (pair h') invoked) = [].
Proof.
  intros Hne. induction invoked as [|x invoked IH]; [done|].
  cbn [map]. rewrite filter_cons_False by (cbn; congruence). done.
Qed.

(** One step from a world in which a tracked hash has no loop: the step
    is none of that hash's loop, and leaves its status, its queries and
    its callback invocations as they were. *)
Lemma step_without_loop (w w' : World) (e : event) (h : Z) :
  is_Some (statuses (mon w) !! h) → h ∉ loops w → step w e = Some w' →
  of_loop h e = false ∧
  statuses (mon w') !! h = statuses (mon w) !! h ∧
  polls_of h w' = polls_of h w ∧
  calls_of h w' = calls_of h w ∧
  h ∉ loops w'.
Proof.
  intros [st Hst] Hout Hstep.
  destruct e as [h' now|h' resp now|h'|h' cb|h' cb]; cbn in Hstep.
  - unfold MonitorTransaction in Hstep.
    destruct (statuses (mon w) !! h') as [st'|] eqn:Hst'; injection Hstep as <-; cbn.
    + done.
    + assert (h ≠ h') by congruence.
      rewrite lookup_insert_ne by done. repeat split; try done.
      apply not_elem_of_cons. done.
  - case_decide as Hin; [|done].
    assert (Hne : h ≠ h') by (intros ->; done).
    pose proof (monitorTransaction_tick_lookup_ne (mon w) h' h resp now Hne) as Hl.
    destruct (monitorTransaction_tick (mon w) h' resp now) as [[m' invoked] next].
    injection Hstep as <-. cbn in *.
    split; [by apply bool_decide_eq_false|]. split; [done|].
    split; [|split].
    + unfold polls_of. cbn. rewrite filter_app. cbn.
      rewrite decide_False by done. apply app_nil_r.
    + unfold calls_of. cbn. rewrite filter_app.
      rewrite calls_of_other by done. apply app_nil_r.
    + destruct next; [done|]. intros Hin'. by apply exit_loop_elem in Hin'.
  - case_decide as Hin; [|done].
    assert (Hne : h' ≠ h) by (intros ->; done).
    injection Hstep as <-. cbn.
    split; [by apply bool_decide_eq_false|]. repeat split; try done.
    intros Hin'. by apply exit_loop_elem in Hin'.
  - injection Hstep as <-. done.
  - injection Hstep as <-. unfold RemoveCallback.
    destruct (callbacks (mon w) !! h'); [case_decide|]; done.
Qed.

Lemma run_without_loop (es : list event) (w w' : World) (h : Z) :
  is_Some (statuses (mon w) !! h) → h ∉ loops w → run w es = Some w' →
  statuses (mon w') !! h = statuses (mon w) !! h ∧
  polls_of h w' = polls_of h w ∧
  calls_of h w' = calls_of h w ∧
  (h ∉ loops w') ∧
  Forall (λ e, of_loop h e = false) es.
Proof.
  revert w. induction es as [|e es IH]; intros w Hst Hout; cbn.
  - intros [= <-]. by repeat split.
  - destruct (step w e) as [w1|] eqn:Hs; [|done]. intros Hrun.
    destruct (step_without_loop w w1 e h Hst Hout Hs) as (He & H1 & H2 & H3 & H4).
    destruct (IH w1) as (G1 & G2 & G3 & G4 & G5); [by rewrite H1|done|done|].
    repeat split; try congruence. by constructor.
Qed.

(** One step moves the state of each hash as the specification says. *)
Lemma step_refines_spec (w w' : World) (e : event) (h : Z) :
  Inv w → step w e = Some w' → state_at w' h = spec_after h e (state_at w h).
Proof.
  intros [Hnd Hpend Hknown] Hstep. unfold state_at.
  destruct e as [h' now|h' resp now|h'|h' cb|h' cb]; cbn in Hstep; cbn [spec_after].
  - unfold MonitorTransaction in Hstep.
    destruct (statuses (mon w) !! h') as [st'|] eqn:Hst'; injection Hstep as <-; cbn.
    + case_decide as Hd; [|done]. subst h'. rewrite Hst'. cbn.
      destruct (Hknown h st' Hst') as [s Hs]. by rewrite Hs.
    + case_decide as Hd.
      * subst h'. rewrite lookup_insert_eq, Hst'. done.
      * by rewrite lookup_insert_ne.
  - case_decide as Hin; [|done].
    pose proof (monitorTransaction_tick_lookup_ne (mon w) h' h resp now) as Hl.
    pose proof (monitorTransaction_tick_state (mon w) h' resp now) as Hs.
    destruct (monitorTransaction_tick (mon w) h' resp now) as [[m' invoked] next].
    injection Hstep as <-. cbn in *.
    case_decide as Hd.
    + subst h'. destruct (Hpend h Hin) as (st & Hst & Hp).
      rewrite (Hs st Hst Hp), Hst. cbn. by rewrite Hp.
    + by rewrite Hl.
  - case_decide as Hin; [|done]. by injection Hstep as <-.
  - by injection Hstep as <-.
  - injection Hstep as <-. unfold RemoveCallback.
    destruct (callbacks (mon w) !! h'); [case_decide|]; done.
Qed.

(** C6.  In every world an execution reaches, and for every hash: each
    step moves the state of the hash as the specification's machine does
    (untracked to Pending when monitoring starts; Pending to Success,
    Failed or Error on a receipt or a query error; Pending to Pending on
    "not found"; no other change); and once the state is Success, Failed
    or Error, then in whatever follows the status of the hash stays as it
    is, no query is made for it, no callback is invoked for it, and no
    loop runs for it. *)
Theorem monitor_follows_the_state_machine (w : World) (hash : Z) :
  reachable w →
  (∀ e w', step w e = Some w' →
     state_at w' hash = spec_after hash e (state_at w hash)) ∧
  (∀ s, state_at w hash = Some s → terminal s = true →
     ∀ es w', run w es = Some w' →
       statuses (mon w') !! hash = statuses (mon w) !! hash ∧
       polls_of hash w' = polls_of hash w ∧
       calls_of hash w' = calls_of hash w ∧
       (hash ∉ loops w') ∧
       Forall (λ e, of_loop hash e = false) es).
Proof.
  intros Hinv%Inv_reachable. split.
  - intros e w'. by apply step_refines_spec.
  - intros s Hs Ht es w' Hrun.
    apply (run_without_loop es w w' hash); [|by eapply terminal_no_loop|done].
    unfold state_at in Hs. destruct (statuses (mon w) !! hash); [eauto|done].
Qed.

End MonitorFacts.

Module MonitorWitnesses.
Import monitor.

Definition failed_receipt : types.Receipt :=
  {| types.Status := types.ReceiptStatusFailed; types.BlockNumber := 12;
     types.GasUsed := 21000 |}.

(** Hash 7 is monitored with two callbacks, is not found once, then its
    receipt says failed. *)
Definition trace : list event :=
  [CallMonitorTransaction 7 100; CallAddCallback 7 1%nat; CallAddCallback 7 2%nat;
   Tick 7 (inl "not found") 105; Tick 7 (inr failed_receipt) 110].

Definition after_trace : World :=
  default init (run init trace).

(** What may follow: another hash is monitored and answered, a callback
    is added for hash 7. *)
Definition later : list event :=
  [CallMonitorTransaction 8 120; CallAddCallback 7 3%nat;
   Tick 8 (inl "boom") 125; CallMonitorTransaction 7 130].

Lemma after_trace_reachable : reachable after_trace.
Proof. exists trace. reflexivity. Qed.

(** C6 at the trace. *)
Lemma monitor_follows_the_state_machine_witness :
  state_at after_trace 7 = Some Failed ∧
  ∃ w', run after_trace later = Some w' ∧
        statuses (mon w') !! 7 = statuses (mon after_trace) !! 7 ∧
        calls_of 7 w' = calls_of 7 after_trace.
Proof.
  split; [reflexivity|].
  destruct (run after_trace later) as [w'|] eqn:Hrun; [|by vm_compute in Hrun].
  exists w'. split; [reflexivity|].
  destruct (MonitorFacts.monitor_follows_the_state_machine after_trace 7
              after_trace_reachable)
    as [_ Hterm].
  destruct (Hterm Failed eq_refl eq_refl later w' Hrun) as (H1 & _ & H3 & _).
  split; [exact H1|exact H3].
Defined.

(** The scenario of the specification: the transition to failed happens
    once and invokes each registered callback once, in registration
    order, with the final record. *)
Example failed_receipt_dispatches_each_callback_once :
  polls after_trace = [7; 7] ∧
  (λ c, (c.1, c.2.1, Status c.2.2)) <$> calls after_trace
    = [(7, 1%nat, "failed"); (7, 2%nat, "failed")] ∧
  loops after_trace = [].
Proof. repeat split; reflexivity. Qed.

(** A hash the ledger never finds stays pending, with its loop running. *)
Example never_found_stays_pending :
  ∃ w, run init [CallMonitorTransaction 7 100; Tick 7 (inl "not found") 105;
                 Tick 7 (inl "not found") 110] = Some w ∧
       state_at w 7 = Some Pending ∧ loops w = [7].
Proof. eexists. repeat split; reflexivity. Qed.

End MonitorWitnesses.

(* ===================================================================== *)
(** * Persisted writes: the keystore manager and the history store         *)
(* ===================================================================== *)

Section StoreFacts.
Context `{JK : JSONCodec keystore.EncryptedKey}.
Context `{JH : JSONCodec (gmap Z history.TransactionRecord)}.

Lemma ReadFile_written (fs : os.FS) (name : string) (data : list byte) (perm : Z) :
  os.ReadFile (os.written fs name data perm) name = Some data.
Proof. unfold os.ReadFile, os.written. cbn. by rewrite lookup_insert_eq. Qed.

Lemma WriteFile_in_place (ft : os.fault) (fs : os.FS) (name : string)
    (data : list byte) (perm : Z) :
  written_in_place ft fs name data (os.WriteFile ft fs name data perm).
Proof.
  unfold written_in_place.
  destruct ft; cbn; (split; [|split; [done|]]);
    try (intros p Hp; by rewrite lookup_insert_ne);
    try done; split; try done; apply ReadFile_written.
Qed.

(** C7 (as amended).  [SaveKey] and [save] write the marshalled content
    with one [os.WriteFile] to the destination path itself; there is no
    temporary file and no rename.  So no other path is touched; a write
    that completes leaves the whole content at the destination, where
    [LoadKey] reads it back; a write cut after [n] bytes leaves the first
    [n] bytes there, and [LoadKey] fails on what a write cut at once
    leaves. *)
Theorem saves_write_in_place (ft : os.fault) (m : keystore.Manager)
    (key : keystore.EncryptedKey) (name : string) (h : history.History)
    (fs : os.FS) :
  match MarshalIndent key with
  | Some data =>
      written_in_place ft fs
        (filepath_Join (keystore.keystoreDir m) (name +:+ ".json")) data
        (keystore.SaveKey ft m key name fs) ∧
      keystore.LoadKey m name (keystore.SaveKey os.NoFault m key name fs).2 =
        match Unmarshal data with
        | Some k => Ok k
        | None => Err ErrUnmarshal
        end ∧
      keystore.LoadKey m name (keystore.SaveKey (os.KilledAfter 0) m key name fs).2 =
        Err ErrUnmarshal
  | None => keystore.SaveKey ft m key name fs = (os.Returned (Some ErrMarshal), fs)
  end ∧
  match MarshalIndent (history.records h) with
  | Some data =>
      history.save true ft h fs = (os.Returned (Some ErrMkdir), fs) ∧
      written_in_place ft
        (os.MkdirAll false fs (filepath_Dir (history.filePath h))).2
        (history.filePath h) data
        (history.save false ft h fs)
  | None => ∀ mkdir_fails,
      history.save mkdir_fails ft h fs = (os.Returned (Some ErrMarshal), fs)
  end.
Proof.
  split.
  - unfold keystore.SaveKey, keystore.LoadKey.
    destruct (MarshalIndent key) as [data|]; [|done].
    split; [apply WriteFile_in_place|]. cbn.
    rewrite !ReadFile_written. split; [done|].
    cbn. by rewrite Unmarshal_empty.
  - unfold history.save.
    destruct (MarshalIndent (history.records h)) as [data|]; [|done].
    split; [done|]. cbn. apply WriteFile_in_place.
Qed.

(** C8 (as amended).  When [AddTransaction] returns nil, the file at the
    history's path holds the marshalled map, the new record in it.  When
    saving fails (marshalling, making the directory, or writing), the
    error of [save] is what [AddTransaction] returns, and the record stays
    in the in-memory map; the files are then as the failed [save] left
    them: as before when marshalling or making the directory failed, with
    the directory made and the file as before when the file could not be
    opened, and with the first [n] bytes of the new document in the file,
    for some [n] that may be its whole length, when the write failed
    later.  When a query fails, the history and the files are as
    before. *)
Theorem AddTransaction_persists_or_reports (client : history.Client) (now : Z)
    (mkdir_fails : bool) (ft : os.fault) (h : history.History) (hash : Z)
    (fs : os.FS) (out : os.outcome (option error)) (h' : history.History)
    (fs' : os.FS) :
  history.AddTransaction client now mkdir_fails ft h hash fs = Ok (out, h', fs') →
  (out = os.Returned None →
     ∃ data, MarshalIndent (history.records h') = Some data ∧
             os.ReadFile fs' (history.filePath h') = Some data ∧
             is_Some (history.records h' !! hash)) ∧
  (∀ e, out = os.Returned (Some e) →
     ((e = ErrGetTransaction ∨ e = ErrGetReceipt) ∧ h' = h ∧ fs' = fs) ∨
     (is_Some (history.records h' !! hash) ∧
      history.save mkdir_fails ft h' fs = (out, fs') ∧
      ((e = ErrMarshal ∧ MarshalIndent (history.records h') = None ∧ fs' = fs) ∨
       (e = ErrMkdir ∧ fs' = fs) ∨
       (e = ErrWriteFile ∧
        ∃ data, MarshalIndent (history.records h') = Some data ∧
          let made := (os.MkdirAll false fs (filepath_Dir (history.filePath h'))).2 in
          (∀ p, p ≠ history.filePath h' → os.files fs' !! p = os.files fs !! p) ∧
          os.dirs fs' = os.dirs made ∧
          (fs' = made ∨
           ∃ n, os.ReadFile fs' (history.filePath h') = Some (take n data)))))).
Proof.
  unfold history.AddTransaction.
  destruct (history.TransactionByHash client hash) as [msg|[tx isPending]].
  { intros [= <- <- <-]. split; [done|]. intros e [= <-]. left. by repeat split; auto. }
  destruct isPending;
    [|destruct (history.TransactionReceipt client hash) as [msg|r]].
  2:{ intros [= <- <- <-]. split; [done|]. intros e [= <-]. left. by repeat split; auto. }
  all: cbv zeta.
  all: destruct (history.To_String tx) as [to|]; [|done].
  all: match goal with |- context [history.save ?a ?b ?x ?c] => set (hnew := x) end.
  all: destruct (history.save mkdir_fails ft hnew fs) as [ret fs1] eqn:Hsave.
  all: intros [= <- <- <-].
  all: assert (Hrec : is_Some (history.records hnew !! hash))
         by (subst hnew; cbn; rewrite lookup_insert_eq; eauto).
  all: pose proof Hsave as Hsave'.
  all: unfold history.save in Hsave.
  all: destruct (MarshalIndent (history.records hnew)) as [data|] eqn:Hm;
         [|injection Hsave as <- <-; split; [done|];
           intros e [= <-]; right; (split; [assumption|split; [assumption|]]);
           left; by repeat split].
  all: unfold os.MkdirAll in Hsave; destruct mkdir_fails;
         [injection Hsave as <- <-; split; [done|];
          intros e [= <-]; right; (split; [assumption|split; [assumption|]]);
          right; left; by split|].
  all: destruct ft; cbn in Hsave; injection Hsave as <- <-.
  all: split;
         [ first [ done
                 | intros _; exists data; split; [done|]; split; [|done];
                   apply ReadFile_written ]
         | intros e He;
           first
             [ done
             | injection He as <-; right;
               (split; [assumption|split; [assumption|]]);
               right; right; (split; [done|]); exists data; (split; [done|]);
               cbv zeta; unfold os.MkdirAll; cbn [snd os.files os.dirs os.written];
               (split; [intros p Hp; first [done | by rewrite lookup_insert_ne]|]);
               (split; [done|]);
               first [ by left
                     | right; eexists; apply ReadFile_written ] ] ].
Qed.

End StoreFacts.

Module StoreWitnesses.
Import MockInstances.

Definition manager : keystore.Manager := {| keystore.keystoreDir := ".keystore" |}.

Definition empty_fs : os.FS := {| os.files := ∅; os.dirs := ∅ |}.

Definition codec : JSONCodec keystore.EncryptedKey :=
  key_codec [Vectors.key; Vectors.key2].

(** The files after the first record was saved under the name alice. *)
Definition saved_fs : os.FS :=
  (keystore.SaveKey (JK := codec) os.NoFault manager Vectors.key "alice" empty_fs).2.

(** The files after the process was killed 10 bytes into saving a second
    record under the same name. *)
Definition killed_fs : os.FS :=
  (keystore.SaveKey (JK := codec) (os.KilledAfter 10) manager Vectors.key2 "alice"
     saved_fs).2.

(** C7, as first stated, fails: the record saved first loads; the process
    is killed 10 bytes into saving another record under the same name;
    the only file there is is the destination, it holds those 10 bytes,
    and loading it fails. *)
Lemma SaveKey_killed_counterexample :
  keystore.LoadKey (JK := codec) manager "alice" saved_fs = Ok Vectors.key ∧
  (map_to_list (os.files killed_fs)).*1 = [".keystore/alice.json"] ∧
  os.ReadFile killed_fs ".keystore/alice.json"
    = Some (take 10 (Mock.render_key Vectors.key2)) ∧
  keystore.LoadKey (JK := codec) manager "alice" killed_fs = Err ErrUnmarshal.
Proof. vm_compute. repeat split; reflexivity. Qed.

Definition client : history.Client :=
  {| history.TransactionByHash := λ hash,
       inr ({| history.From_String := "0xaa"; history.To_String := Some "0xbb";
               history.Value_String := "5"; history.GasPrice_String := "1";
               history.TxData := [x01] |}, false);
     history.TransactionReceipt := λ hash,
       inr {| types.Status := types.ReceiptStatusSuccessful;
              types.BlockNumber := 12; types.GasUsed := 21000 |} |}.

Definition empty_history : history.History :=
  {| history.records := ∅; history.filePath := "data/history.json" |}.

Definition hcodec : JSONCodec (gmap Z history.TransactionRecord) :=
  history_codec [].

(** C8 at a write that goes through. *)
Lemma AddTransaction_persists_witness :
  ∃ h' fs' data,
    history.AddTransaction (JH := hcodec) client 100 false os.NoFault
      empty_history 1 empty_fs = Ok (os.Returned None, h', fs') ∧
    os.ReadFile fs' "data/history.json" = Some data ∧
    @MarshalIndent _ hcodec (history.records h') = Some data.
Proof.
  destruct (history.AddTransaction (JH := hcodec) client 100 false os.NoFault
              empty_history 1 empty_fs) as [[[out h'] fs']| |] eqn:Hadd;
    [|by vm_compute in Hadd..].
  destruct (AddTransaction_persists_or_reports (JH := hcodec) client 100 false
              os.NoFault empty_history 1 empty_fs out h' fs' Hadd) as [Hok _].
  assert (Hout : out = os.Returned None) by (vm_compute in Hadd; congruence).
  destruct (Hok Hout) as (data & Hm & Hr & _).
  assert (Hp : history.filePath h' = "data/history.json")
    by (vm_compute in Hadd; injection Hadd as _ <- _; reflexivity).
  exists h', fs', data. rewrite Hp in Hr. subst out. auto.
Defined.

(** C8, as first stated, fails: the file cannot be opened for writing,
    [AddTransaction] returns the error, no file is in the file system,
    and the record is in the history all the same. *)
Lemma AddTransaction_failed_write_counterexample :
  ∃ h' fs',
    history.AddTransaction (JH := hcodec) client 100 false os.FailOpen
      empty_history 1 empty_fs = Ok (os.Returned (Some ErrWriteFile), h', fs') ∧
    os.ReadFile fs' "data/history.json" = None ∧
    history.GetTransaction empty_history 1 = Err ErrNotInHistory ∧
    history.Status <$> history.GetTransaction h' 1 = Ok "success".
Proof. eexists _, _. vm_compute. repeat split; reflexivity. Qed.

(** A write that fails at the very end: the error is returned, and the
    whole new document, the record in it, is in the file. *)
Example AddTransaction_write_fails_at_the_end :
  ∃ h' fs' data,
    history.AddTransaction (JH := hcodec) client 100 false (os.FailWrite 1000)
      empty_history 1 empty_fs = Ok (os.Returned (Some ErrWriteFile), h', fs') ∧
    @MarshalIndent _ hcodec (history.records h') = Some data ∧
    os.ReadFile fs' "data/history.json" = Some data.
Proof. eexists _, _, _. vm_compute. repeat split; reflexivity. Qed.

End StoreWitnesses.

(* ===================================================================== *)
(** * More of the keystore manager: listing, deleting, other names         *)
(* ===================================================================== *)

Section PathFacts.

Lemma append_cons (c : ascii) (s t : string) :
  String c s +:+ t = String c (s +:+ t).
Proof. reflexivity. Qed.

Lemma append_assoc (s t u : string) : (s +:+ t) +:+ u = s +:+ (t +:+ u).
Proof. induction s as [|c s IH]; [done|]. rewrite !append_cons. by rewrite IH. Qed.

Lemma append_length (s t : string) :
  String.length (s +:+ t) = (String.length s + String.length t)%nat.
Proof. induction s as [|c s IH]; [done|]. rewrite append_cons. cbn. by rewrite IH. Qed.

Lemma strip_prefix_app (p s : string) : os.strip_prefix p (p +:+ s) = Some s.
Proof.
  induction p as [|c p IH]; [done|].
  rewrite append_cons. cbn -[Ascii.eqb]. by rewrite Ascii.eqb_refl.
Qed.

Lemma strip_prefix_Some (p s r : string) :
  os.strip_prefix p s = Some r → s = p +:+ r.
Proof.
  revert s. induction p as [|c p IH]; intros s; cbn -[Ascii.eqb].
  - by intros [= ->].
  - destruct s as [|d s]; [done|].
    destruct (Ascii.eqb_spec c d) as [->|]; [|done].
    intros H. by rewrite append_cons, (IH s H).
Qed.

Lemma first_element_no_separator (s : string) :
  has_separator s = false → os.first_element s = s.
Proof.
  induction s as [|c s IH]; [done|]. cbn -[Ascii.eqb].
  destruct (Ascii.eqb c "/"); [done|]. cbn [orb]. intros H. by rewrite IH.
Qed.

Lemma has_separator_app (s t : string) :
  has_separator (s +:+ t) = has_separator s || has_separator t.
Proof.
  induction s as [|c s IH]; [done|]. rewrite append_cons. cbn -[Ascii.eqb].
  rewrite IH. by rewrite orb_assoc.
Qed.

(** Appending the same suffix to different strings gives different
    strings. *)
Lemma append_inj_l (s s' t : string) : s +:+ t = s' +:+ t → s = s'.
Proof.
  revert s'. induction s as [|c s IH]; intros [|c' s'] H.
  - done.
  - apply (f_equal String.length) in H. rewrite !append_length in H. cbn in H. lia.
  - apply (f_equal String.length) in H. rewrite !append_length in H. cbn in H. lia.
  - rewrite !append_cons in H. injection H as -> H. f_equal. by apply IH.
Qed.

(** The paths of two keys are the same only when the names are. *)
Lemma key_path_inj (dir name name' : string) :
  filepath_Join dir (name +:+ ".json") = filepath_Join dir (name' +:+ ".json") →
  name = name'.
Proof.
  unfold filepath_Join. intros H.
  apply String.app_inj in H. apply String.app_inj in H.
  by apply append_inj_l in H.
Qed.

(** The entry of [dir] that the path of a file directly in it is. *)
Lemma child_of_Join (dir name : string) :
  has_separator name = false → name ≠ EmptyString →
  os.child_of dir (filepath_Join dir name) = Some name.
Proof.
  intros Hs Hn. unfold os.child_of, filepath_Join.
  rewrite <- append_assoc, strip_prefix_app.
  rewrite first_element_no_separator by done. by rewrite decide_False.
Qed.

Lemma filepath_Ext_go_json (k : string) :
  (filepath_Ext_go (k +:+ ".json")).1 = ".json".
Proof.
  induction k as [|c k IH]; [done|].
  rewrite append_cons. cbn -[Ascii.eqb String.eqb].
  destruct (filepath_Ext_go (k +:+ ".json")) as [ext sep]. cbn in IH. subst ext.
  destruct (Ascii.eqb c "/"); [done|]. by destruct sep.
Qed.

(** A name has the extension [.json] exactly when it ends in it. *)
Lemma filepath_Ext_json (name : string) :
  filepath_Ext name = ".json" ↔ ∃ k, name = k +:+ ".json".
Proof.
  unfold filepath_Ext. split.
  - induction name as [|c name IH]; [done|].
    cbn -[Ascii.eqb String.eqb].
    destruct (filepath_Ext_go name) as [ext sep]. cbn [fst] in *.
    destruct (Ascii.eqb c "/").
    { cbn. intros H. destruct (IH H) as [k ->]. by exists (String c k). }
    destruct sep.
    { cbn. intros H. destruct (IH H) as [k ->]. by exists (String c k). }
    destruct (String.eqb_spec ext EmptyString) as [->|Hne]; cbn [negb].
    + destruct (Ascii.eqb c "."); cbn; [|done].
      intros H. exists EmptyString. done.
    + cbn. intros H. destruct (IH H) as [k ->]. by exists (String c k).
  - intros [k ->]. apply filepath_Ext_go_json.
Qed.

Lemma substring_prefix (k t : string) :
  substring 0 (String.length k) (k +:+ t) = k.
Proof.
  induction k as [|c k IH].
  - by destruct t.
  - rewrite append_cons. cbn. by rewrite IH.
Qed.

(** Cutting the five characters of [.json] off gives the key's name. *)
Lemma trim_json (k : string) :
  substring 0 (String.length (k +:+ ".json") - 5) (k +:+ ".json") = k.
Proof.
  rewrite append_length. cbn [String.length].
  replace (String.length k + 5 - 5)%nat with (String.length k) by lia.
  apply substring_prefix.
Qed.

End PathFacts.

Section ManagerFacts.
Context `{JK : JSONCodec keystore.EncryptedKey}.
Import keystore.

(** The path of a key's file. *)
Definition key_path (m : Manager) (name : string) : string :=
  filepath_Join (keystoreDir m) (name +:+ ".json").

Lemma children_elem (fs : os.FS) (dir path name : string) :
  is_Some (os.files fs !! path) → os.child_of dir path = Some name →
  name ∈ os.children fs dir.
Proof.
  intros [f Hf] Hc. unfold os.children. apply elem_of_remove_dups.
  apply list_elem_of_omap. exists path. split; [|done].
  apply elem_of_app. left. apply list_elem_of_fmap. exists (path, f).
  split; [done|]. by apply elem_of_map_to_list.
Qed.

Lemma ReadDir_elem (fs : os.FS) (dir name : string) :
  name ∈ os.children fs dir →
  ∃ entries, os.ReadDir fs dir = inr entries ∧ name ∈ entries.
Proof.
  intros Hin. unfold os.ReadDir, os.is_dir.
  rewrite (bool_decide_eq_true_2 (os.children fs dir ≠ [])).
  2:{ intros Hnil. rewrite Hnil in Hin. by apply elem_of_nil in Hin. }
  rewrite orb_true_r. eexists. split; [done|].
  by rewrite merge_sort_Permutation.
Qed.

(** The keys [ListKeys] returns, given the entries of the directory. *)
Lemma ListKeys_elem (m : Manager) (fs : os.FS) (keys : list string) (k : string) :
  ListKeys m fs = inr keys →
  (k ∈ keys ↔ (k +:+ ".json") ∈ os.children fs (keystoreDir m)).
Proof.
  unfold ListKeys, os.ReadDir.
  destruct (os.is_dir fs (keystoreDir m)); [|done]. intros [= <-].
  rewrite list_elem_of_omap. setoid_rewrite merge_sort_Permutation. split.
  - intros (n & Hn & Hk).
    destruct (String.eqb_spec (filepath_Ext n) ".json") as [He|]; [|done].
    apply filepath_Ext_json in He as [k' ->].
    rewrite trim_json in Hk. by injection Hk as <-.
  - intros Hin. exists (k +:+ ".json"). split; [done|].
    rewrite (proj2 (filepath_Ext_json _)) by eauto.
    cbn. by rewrite trim_json.
Qed.

Lemma NoDup_omap_inj {A B : Type} (f : A → option B) (l : list A) :
  (∀ x y z, f x = Some z → f y = Some z → x = y) →
  NoDup l → NoDup (omap f l).
Proof.
  intros Hinj. induction 1 as [|x l Hx Hnd IH]; cbn; [constructor|].
  destruct (f x) as [z|] eqn:Hfx; [|done].
  constructor; [|done]. intros (y & Hy & Hfy)%list_elem_of_omap.
  by rewrite (Hinj x y z Hfx Hfy) in Hx.
Qed.

(** X1.  [ListKeys] fails exactly when the keystore directory does not
    exist; otherwise the keys it returns are exactly the entries of the
    directory that end in [.json], with those five characters cut off,
    and none is returned twice. *)
Theorem ListKeys_lists_the_json_entries (m : Manager) (fs : os.FS) :
  match ListKeys m fs with
  | inl e => e = os.ENOENT ∧ os.is_dir fs (keystoreDir m) = false
  | inr keys =>
      os.is_dir fs (keystoreDir m) = true ∧
      NoDup keys ∧
      ∀ k, k ∈ keys ↔ (k +:+ ".json") ∈ os.children fs (keystoreDir m)
  end.
Proof.
  destruct (ListKeys m fs) as [e|keys] eqn:HL.
  - unfold ListKeys, os.ReadDir in HL.
    destruct (os.is_dir fs (keystoreDir m)); [done|]. by injection HL as <-.
  - split; [|split].
    + unfold ListKeys, os.ReadDir in HL.
      by destruct (os.is_dir fs (keystoreDir m)).
    + unfold ListKeys, os.ReadDir in HL.
      destruct (os.is_dir fs (keystoreDir m)); [|done]. injection HL as <-.
      apply NoDup_omap_inj.
      * intros n1 n2 k H1 H2.
        destruct (String.eqb_spec (filepath_Ext n1) ".json") as [He1|]; [|done].
        destruct (String.eqb_spec (filepath_Ext n2) ".json") as [He2|]; [|done].
        apply filepath_Ext_json in He1 as [k1 ->].
        apply filepath_Ext_json in He2 as [k2 ->].
        rewrite trim_json in H1, H2. congruence.
      * rewrite merge_sort_Permutation. apply NoDup_remove_dups.
    + intros k. by apply ListKeys_elem.
Qed.

(** X2.  A key saved under a name without a path separator is listed
    under that name, also when the write was cut short or the process
    was killed in it: all it takes is that the file was opened. *)
Theorem SaveKey_then_ListKeys (ft : os.fault) (m : Manager) (key : EncryptedKey)
    (name : string) (data : list byte) (fs : os.FS) :
  has_separator name = false → MarshalIndent key = Some data → ft ≠ os.FailOpen →
  ∃ keys, ListKeys m (SaveKey ft m key name fs).2 = inr keys ∧ name ∈ keys.
Proof.
  intros Hsep Hm Hft.
  assert (Hin : (name +:+ ".json") ∈
                os.children (SaveKey ft m key name fs).2 (keystoreDir m)).
  { apply (children_elem _ _ (key_path m name)).
    - unfold SaveKey. rewrite Hm. fold (key_path m name).
      destruct ft; [|done|..]; cbn; rewrite lookup_insert_eq; eauto.
    - apply child_of_Join.
      + rewrite has_separator_app, Hsep. done.
      + by destruct name. }
  destruct (ReadDir_elem _ _ _ Hin) as (entries & Hrd & _).
  destruct (ListKeys m (SaveKey ft m key name fs).2) as [e|keys] eqn:HL.
  - unfold ListKeys in HL. by rewrite Hrd in HL.
  - exists keys. split; [done|]. by apply (ListKeys_elem _ _ _ _ HL).
Qed.

Lemma LoadKey_files (m : Manager) (name : string) (fs fs' : os.FS) :
  os.files fs' !! key_path m name = os.files fs !! key_path m name →
  LoadKey m name fs' = LoadKey m name fs.
Proof.
  intros H. unfold LoadKey, os.ReadFile. fold (key_path m name). by rewrite H.
Qed.

Lemma Remove_files_other (fs : os.FS) (name p : string) :
  p ≠ name → os.files (os.Remove fs name).2 !! p = os.files fs !! p.
Proof.
  intros Hne. unfold os.Remove.
  destruct (os.files fs !! name); cbn.
  - by rewrite lookup_delete_ne.
  - destruct (os.is_dir fs name); [|done]. by case_decide.
Qed.

(** X3.  Saving or deleting one key leaves every other key as it is:
    whatever happens to the write, [LoadKey] of another name gives what
    it gave before.  The names are without a path separator, so that
    the two paths [filepath.Join] makes of them are two files. *)
Theorem other_keys_are_left_alone (ft : os.fault) (m : Manager) (key : EncryptedKey)
    (name name' : string) (fs : os.FS) :
  has_separator name = false → has_separator name' = false → name' ≠ name →
  LoadKey m name' (SaveKey ft m key name fs).2 = LoadKey m name' fs ∧
  LoadKey m name' (DeleteKey m name fs).2 = LoadKey m name' fs.
Proof.
  intros _ _ Hne.
  assert (Hp : key_path m name' ≠ key_path m name)
    by (intros H; by apply key_path_inj in H).
  split; apply LoadKey_files.
  - unfold SaveKey. destruct (MarshalIndent key) as [data|]; [|done].
    fold (key_path m name).
    destruct ft; cbn; try done; by rewrite lookup_insert_ne.
  - unfold DeleteKey. fold (key_path m name). by apply Remove_files_other.
Qed.

(** X4.  Deleting a key that was saved returns no error, takes exactly
    its file away, and [LoadKey] of it then fails to read; deleting a
    name under which there is neither a file nor a directory returns
    [ENOENT] and changes nothing. *)
Theorem DeleteKey_of_a_saved_key (m : Manager) (key : EncryptedKey) (name : string)
    (data : list byte) (fs : os.FS) :
  MarshalIndent key = Some data →
  let saved := (SaveKey os.NoFault m key name fs).2 in
  let deleted := (DeleteKey m name saved).2 in
  (DeleteKey m name saved).1 = None ∧
  os.files deleted = delete (key_path m name) (os.files fs) ∧
  LoadKey m name deleted = Err ErrReadFile ∧
  (os.is_dir deleted (key_path m name) = false →
   DeleteKey m name deleted = (Some os.ENOENT, deleted)).
Proof.
  intros Hm saved deleted. subst saved deleted.
  unfold SaveKey, DeleteKey. rewrite Hm. fold (key_path m name). cbn [snd os.WriteFile].
  assert (Hrem : os.Remove (os.written fs (key_path m name) data os.perm_0600)
                   (key_path m name)
                 = (None, {| os.files := delete (key_path m name) (os.files fs);
                             os.dirs := os.dirs fs |})).
  { unfold os.Remove, os.written. cbn. rewrite lookup_insert_eq. cbn.
    by rewrite delete_insert_eq. }
  rewrite Hrem. cbn [fst snd os.files].
  split; [done|]. split; [done|]. split.
  - unfold LoadKey, os.ReadFile. fold (key_path m name). cbn.
    by rewrite lookup_delete_eq.
  - intros Hd. unfold os.Remove. cbn [os.files]. rewrite lookup_delete_eq.
    by rewrite Hd.
Qed.

End ManagerFacts.

Module ManagerWitnesses.
Import MockInstances StoreWitnesses.

(** X2 at a write killed after 10 bytes. *)
Lemma SaveKey_then_ListKeys_witness :
  ∃ keys, keystore.ListKeys manager
            (keystore.SaveKey (JK := codec) (os.KilledAfter 10) manager
               Vectors.key "alice" empty_fs).2 = inr keys ∧
          "alice" ∈ keys.
Proof.
  apply (SaveKey_then_ListKeys (JK := codec) (os.KilledAfter 10) manager
           Vectors.key "alice" (Mock.render_key Vectors.key) empty_fs);
    [reflexivity|reflexivity|discriminate].
Defined.

(** X3 at the names alice and bob. *)
Lemma other_keys_are_left_alone_witness :
  keystore.LoadKey (JK := codec) manager "alice"
    (keystore.SaveKey (JK := codec) os.NoFault manager Vectors.key2 "bob" saved_fs).2
  = keystore.LoadKey (JK := codec) manager "alice" saved_fs.
Proof.
  apply (other_keys_are_left_alone (JK := codec) os.NoFault manager Vectors.key2
           "bob" "alice" saved_fs); [reflexivity|reflexivity|discriminate].
Defined.

(** X4 at the key saved under alice. *)
Lemma DeleteKey_of_a_saved_key_witness :
  keystore.LoadKey (JK := codec) manager "alice"
    (keystore.DeleteKey manager "alice" saved_fs).2 = Err ErrReadFile.
Proof.
  apply (DeleteKey_of_a_saved_key (JK := codec) manager Vectors.key "alice"
           (Mock.render_key Vectors.key) empty_fs eq_refl).
Defined.

(** Two keys and a file that is none. *)
Example ListKeys_skips_other_files :
  keystore.ListKeys manager
    (os.WriteFile os.NoFault
       (keystore.SaveKey (JK := codec) os.NoFault manager Vectors.key2 "bob"
          saved_fs).2
       ".keystore/notes.txt" [x01] os.perm_0600).2
  = inr ["alice"; "bob"].
Proof. vm_compute. reflexivity. Qed.

Example ListKeys_without_directory :
  keystore.ListKeys manager empty_fs = inl os.ENOENT.
Proof. vm_compute. reflexivity. Qed.

End ManagerWitnesses.

(* ===================================================================== *)
(** * More of the history store: queries and reloading                     *)
(* ===================================================================== *)

Section HistoryFacts.
Context `{JH : JSONCodec (gmap Z history.TransactionRecord)}.
Import history.

(** The keys of the map, in the order of one range over it. *)
Definition ranges_over (order : list Z) (h : History) : Prop :=
  order ≡ₚ (map_to_list (records h)).*1.

Lemma omap_lookup_fst {A : Type} (m : gmap Z A) (l : list (Z * A)) :
  (∀ k v, (k, v) ∈ l → m !! k = Some v) →
  omap (λ k, m !! k) l.*1 = l.*2.
Proof.
  induction l as [|[k v] l IH]; intros H; [done|].
  cbn. rewrite (H k v) by left. cbn. f_equal. apply IH.
  intros k' v' Hin. apply H. by right.
Qed.

(** A range visits every record once. *)
Lemma range_records_Permutation (order : list Z) (h : History) :
  ranges_over order h → range_records order h ≡ₚ (map_to_list (records h)).*2.
Proof.
  intros Hperm. unfold range_records. rewrite Hperm.
  rewrite omap_lookup_fst; [done|].
  intros k v Hin. by apply elem_of_map_to_list.
Qed.

Lemma range_records_elem (order : list Z) (h : History) (r : TransactionRecord) :
  ranges_over order h →
  (r ∈ range_records order h ↔ ∃ hash, records h !! hash = Some r).
Proof.
  intros Hperm. rewrite (range_records_Permutation _ _ Hperm).
  rewrite list_elem_of_fmap. split.
  - intros ([k v] & -> & Hin). exists k. by apply elem_of_map_to_list.
  - intros [k Hk]. exists (k, r). split; [done|]. by apply elem_of_map_to_list.
Qed.

(** X5.  Whatever the order of the range over the map,
    [GetTransactionsByAddress] returns each stored record that has the
    address as sender or recipient, once for each hash it is stored
    under, and nothing else. *)
Theorem GetTransactionsByAddress_is_the_matching_records (order : list Z)
    (h : History) (address : string) :
  ranges_over order h →
  GetTransactionsByAddress order h address ≡ₚ
    filter (λ record, From record = address ∨ To record = address)
      (map_to_list (records h)).*2 ∧
  ∀ r, r ∈ GetTransactionsByAddress order h address ↔
       (∃ hash, records h !! hash = Some r) ∧ (From r = address ∨ To r = address).
Proof.
  intros Hperm. unfold GetTransactionsByAddress. split.
  - by rewrite (range_records_Permutation _ _ Hperm).
  - intros r. rewrite list_elem_of_filter, (range_records_elem _ _ _ Hperm). tauto.
Qed.

Section Recent.
(** [sort.Slice] with the order above: whatever sort it is, it permutes
    the slice and leaves no record in front of a later one. *)
Variable sort_Slice : list TransactionRecord → list TransactionRecord.
Hypothesis sort_Slice_Permutation : ∀ l, sort_Slice l ≡ₚ l.
Hypothesis sort_Slice_sorted : ∀ l, StronglySorted newest_first (sort_Slice l).

(** X6.  Whatever the order of the range over the map and whatever the
    sort does with records of one timestamp: [GetRecentTransactions]
    returns [limit] records when [limit] is positive and below the number
    stored, all of them otherwise (so for [limit ≤ 0] too); they are stored
    records, newest first; and the ones left out are no newer than any
    returned. *)
Theorem GetRecentTransactions_newest_first (order : list Z) (h : History)
    (limit : Z) :
  ranges_over order h →
  let result := GetRecentTransactions sort_Slice order h limit in
  length result =
    (if (0 <? limit) && (limit <? Z.of_nat (size (records h)))
     then Z.to_nat limit else size (records h)) ∧
  StronglySorted newest_first result ∧
  ∃ rest, (result ++ rest)%list ≡ₚ (map_to_list (records h)).*2 ∧
          ∀ r r', r ∈ result → r' ∈ rest → Timestamp r' ≤ Timestamp r.
Proof.
  intros Hperm result. subst result. unfold GetRecentTransactions.
  set (sorted := sort_Slice (range_records order h)).
  assert (Hsp : sorted ≡ₚ (map_to_list (records h)).*2).
  { subst sorted. rewrite sort_Slice_Permutation.
    by apply range_records_Permutation. }
  assert (Hlen : length sorted = size (records h)).
  { rewrite Hsp, length_fmap. apply length_map_to_list. }
  assert (Hss : StronglySorted newest_first sorted) by apply sort_Slice_sorted.
  rewrite Hlen.
  destruct ((0 <? limit) && (limit <? Z.of_nat (size (records h)))) eqn:Hlim.
  - apply andb_true_iff in Hlim as [H0 H1].
    apply Z.ltb_lt in H0, H1.
    rewrite <- (take_drop (Z.to_nat limit) sorted) in Hss, Hsp.
    split; [rewrite length_take; lia|]. split.
    + by apply StronglySorted_app_1_l in Hss.
    + exists (drop (Z.to_nat limit) sorted). split; [done|].
      intros r r' Hr Hr'.
      pose proof (StronglySorted_app_1_elem_of _ _ _ r r' Hss Hr Hr') as HR.
      unfold newest_first, After in HR. lia.
  - split; [done|]. split; [done|].
    exists []. rewrite app_nil_r. split; [done|].
    intros r r' _ Hr'. by apply elem_of_nil in Hr'.
Qed.

End Recent.

Lemma save_NoFault (h : History) (fs : os.FS) (data : list byte) :
  MarshalIndent (records h) = Some data →
  save false os.NoFault h fs =
    (os.Returned None,
     os.written (os.MkdirAll false fs (filepath_Dir (filePath h))).2
       (filePath h) data os.perm_0600).
Proof. intros Hm. unfold save. by rewrite Hm. Qed.

(** X7.  What a completed [save] wrote, [load] reads back: when the codec
    unmarshals the document to the map it was marshalled from, a history
    at the same path loads exactly the saved records, whatever it held
    before. *)
Theorem load_after_save (h h0 : History) (fs : os.FS) (data : list byte) :
  MarshalIndent (records h) = Some data → Unmarshal data = Some (records h) →
  filePath h0 = filePath h →
  (save false os.NoFault h fs).1 = os.Returned None ∧
  load h0 (save false os.NoFault h fs).2 =
    (None, {| records := records h; filePath := filePath h |}).
Proof.
  intros Hm Hu Hp. rewrite (save_NoFault _ _ _ Hm). split; [done|].
  unfold load. rewrite Hp. cbn [snd].
  unfold os.Stat_IsNotExist, os.ReadFile, os.written. cbn [os.files].
  rewrite lookup_insert_eq. cbn. by rewrite Hu.
Qed.


(** X9.  When both queries answer, [AddTransaction] on a transaction
    with a recipient stores under the hash a record with the time of the
    call, the status the receipt tells (pending, with no gas and no
    block, when there is none yet), replacing whatever was stored under
    that hash; records under other hashes stay as they are; that is so
    whether or not the save then succeeds.  On a transaction without a
    recipient (a contract creation) it panics. *)
Theorem AddTransaction_stores_and_replaces (client : Client) (now : Z)
    (mkdir_fails : bool) (ft : os.fault) (h : History) (hash : Z) (fs : os.FS)
    (tx : TxView) (isPending : bool) (receipt : types.Receipt) :
  TransactionByHash client hash = inr (tx, isPending) →
  (isPending = false → TransactionReceipt client hash = inr receipt) →
  match To_String tx with
  | None => AddTransaction client now mkdir_fails ft h hash fs = Panic
  | Some to =>
      ∃ out h' fs',
        AddTransaction client now mkdir_fails ft h hash fs = Ok (out, h', fs') ∧
        (∃ record, GetTransaction h' hash = Ok record ∧
           Hash record = hash ∧ Timestamp record = now ∧
           From record = From_String tx ∧ To record = to ∧
           Status record =
             (if isPending then "pending"
              else if types.Status receipt =? types.ReceiptStatusFailed then "failed"
                   else "success") ∧
           (isPending = true → GasUsed record = 0 ∧ BlockNumber record = 0)) ∧
        (∀ hash', hash' ≠ hash → GetTransaction h' hash' = GetTransaction h hash') ∧
        dom (records h') = {[hash]} ∪ dom (records h)
  end.
Proof.
  intros Htx Hrc. unfold AddTransaction. rewrite Htx.
  destruct isPending.
  - cbv zeta. destruct (To_String tx) as [to|]; [|done].
    destruct (save _ _ _ _) as [ret fs1]. eexists _, _, _. split; [done|].
    unfold GetTransaction. cbn [records]. split; [|split].
    + rewrite lookup_insert_eq. eexists. split; [done|]. by repeat split.
    + intros hash' Hne. by rewrite lookup_insert_ne.
    + by rewrite dom_insert_L.
  - rewrite (Hrc eq_refl). cbv zeta. destruct (To_String tx) as [to|]; [|done].
    destruct (save _ _ _ _) as [ret fs1]. eexists _, _, _. split; [done|].
    unfold GetTransaction. cbn [records]. split; [|split].
    + rewrite lookup_insert_eq. eexists. split; [done|]. by repeat split.
    + intros hash' Hne. by rewrite lookup_insert_ne.
    + by rewrite dom_insert_L.
Qed.

End HistoryFacts.

Module HistoryWitnesses.
Import history MockInstances StoreWitnesses.

Definition record (hash : Z) (from to : string) (time : Z) : TransactionRecord :=
  {| Hash := hash; From := from; To := to; Value := "1"; GasUsed := 21000;
     GasPrice := "1"; BlockNumber := 1; Status := "success"; Timestamp := time;
     Data := "0x"; Error := EmptyString |}.

(** Three records; the second and third have the same timestamp. *)
Definition three : History :=
  {| records := <[1 := record 1 "0xaa" "0xbb" 10]>
                  (<[2 := record 2 "0xbb" "0xcc" 30]>
                     (<[3 := record 3 "0xcc" "0xaa" 30]> ∅));
     filePath := "data/history.json" |}.

(** One order of ranging over them. *)
Definition order : list Z := reverse (map_to_list (records three)).*1.

Lemma order_ranges : ranges_over order three.
Proof. unfold ranges_over, order. apply reverse_Permutation. Qed.

#[local] Instance newest_first_total : Total newest_first.
Proof. intros a b. unfold newest_first, After. lia. Qed.

#[local] Instance newest_first_trans : Transitive newest_first.
Proof. intros a b c. unfold newest_first, After. lia. Qed.

(** X5 at the three records. *)
Lemma GetTransactionsByAddress_witness :
  record 3 "0xcc" "0xaa" 30 ∈ GetTransactionsByAddress order three "0xaa".
Proof.
  destruct (GetTransactionsByAddress_is_the_matching_records order three "0xaa"
              order_ranges) as [_ H].
  apply H. split; [by exists 3|by right].
Defined.

(** X6 at the three records, limit 2, with merge sort for [sort.Slice]. *)
Lemma GetRecentTransactions_witness :
  length (GetRecentTransactions (merge_sort newest_first) order three 2) = 2%nat.
Proof.
  destruct (GetRecentTransactions_newest_first (merge_sort newest_first)
              (merge_sort_Permutation newest_first)
              (StronglySorted_merge_sort newest_first)
              order three 2 order_ranges) as [Hlen _].
  exact Hlen.
Defined.

Example GetRecentTransactions_limits :
  Timestamp <$> GetRecentTransactions (merge_sort newest_first) order three 2
    = [30; 30] ∧
  Timestamp <$> GetRecentTransactions (merge_sort newest_first) order three 0
    = [30; 30; 10] ∧
  Timestamp <$> GetRecentTransactions (merge_sort newest_first) order three (-1)
    = [30; 30; 10] ∧
  Timestamp <$> GetRecentTransactions (merge_sort newest_first) order three 3
    = [30; 30; 10].
Proof. vm_compute. repeat split; reflexivity. Qed.

Definition three_codec : JSONCodec (gmap Z TransactionRecord) :=
  history_codec [records three].

(** X7 at the three records. *)
Lemma load_after_save_witness :
  load (JH := three_codec) empty_history
    (save (JH := three_codec) false os.NoFault three empty_fs).2
  = (None, three).
Proof.
  apply (load_after_save (JH := three_codec) three empty_history empty_fs
           (Mock.render_history (records three)));
    [reflexivity|vm_compute; reflexivity|reflexivity].
Defined.

(** X9 at a hash that is already stored. *)
Lemma AddTransaction_stores_and_replaces_witness :
  ∃ out h' fs',
    AddTransaction (JH := three_codec) client 100 false os.NoFault three 2 empty_fs
    = Ok (out, h', fs') ∧
    Timestamp <$> GetTransaction h' 2 = Ok 100 ∧
    GetTransaction h' 3 = GetTransaction three 3.
Proof.
  destruct (AddTransaction_stores_and_replaces (JH := three_codec) client 100
              false os.NoFault three 2 empty_fs
              {| From_String := "0xaa"; To_String := Some "0xbb";
                 Value_String := "5"; GasPrice_String := "1"; TxData := [x01] |}
              false
              {| types.Status := types.ReceiptStatusSuccessful;
                 types.BlockNumber := 12; types.GasUsed := 21000 |}
              eq_refl (λ _, eq_refl))
    as (out & h' & fs' & Hadd & (r & Hr & _ & Ht & _) & Hother & _).
  exists out, h', fs'. split; [exact Hadd|]. split.
  - rewrite Hr. cbn. by rewrite Ht.
  - apply Hother. discriminate.
Defined.

(** A client that answers with a contract creation. *)
Definition creation_client : Client :=
  {| TransactionByHash := λ hash,
       inr ({| From_String := "0xaa"; To_String := None; Value_String := "0";
               GasPrice_String := "1"; TxData := [x60; x80] |}, false);
     TransactionReceipt := TransactionReceipt client |}.

Example AddTransaction_of_a_contract_creation :
  AddTransaction (JH := three_codec) creation_client 100 false os.NoFault three 4
    empty_fs = Panic.
Proof. reflexivity. Qed.

(** A directory where the history file should be. *)
Example load_of_a_directory :
  load (JH := three_codec) empty_history
    {| os.files := ∅; os.dirs := {["data/history.json"]} |}
  = (Some ErrReadFile, empty_history).
Proof. vm_compute. reflexivity. Qed.

End HistoryWitnesses.

(* ===================================================================== *)
(** * More of the monitor: dispatch, cancellation, registrations           *)
(* ===================================================================== *)

Module MonitorMore.
Import monitor MonitorFacts.

#[local] Instance observation_eq_dec : EqDecision observation.
Proof. solve_decision. Defined.

(** The callbacks registered for a hash, in registration order. *)
Definition callbacks_for (m : Monitor) (hash : Z) : list Callback :=
  default [] (callbacks m !! hash).

(** What holds of the invocations an execution has made: each was for a
    hash that has no loop any more and carried the status the hash has
    now. *)
Definition calls_final (w : World) : Prop :=
  ∀ h cb st, (h, (cb, st)) ∈ calls w →
    (h ∉ loops w) ∧ statuses (mon w) !! h = Some st ∧
    ∃ s, state_of (Status st) = Some s ∧ terminal s = true.

Lemma updateStatus_calls (m : Monitor) (h : Z) (status errMsg : string)
    (blockNum gasUsed now : Z) (st : TransactionStatus) :
  statuses m !! h = Some st →
  (updateStatus m h status blockNum gasUsed errMsg now).2 =
    map (λ cb, (cb, {| Hash := Hash st; Status := status; BlockNum := blockNum;
                       GasUsed := gasUsed; Error := errMsg; Timestamp := now |}))
      (callbacks_for m h).
Proof.
  intros Hst. unfold updateStatus, callbacks_for. rewrite Hst. cbn.
  by destruct (callbacks m !! h).
Qed.

(** What a tick that ends the loop does. *)
Lemma tick_Return (m : Monitor) (h : Z) (resp : string + types.Receipt) (now : Z)
    (st : TransactionStatus) :
  statuses m !! h = Some st → observe resp ≠ NotYetFound →
  ∃ st', monitorTransaction_tick m h resp now =
           ({| statuses := <[h := st']> (statuses m); callbacks := callbacks m |},
            map (λ cb, (cb, st')) (callbacks_for m h), Return) ∧
         Hash st' = Hash st ∧ Timestamp st' = now ∧
         state_of (Status st') = Some (spec_step Pending (observe resp)) ∧
         match resp with
         | inl msg => Error st' = msg ∧ BlockNum st' = 0 ∧ GasUsed st' = 0
         | inr receipt =>
             Error st' = EmptyString ∧ BlockNum st' = types.BlockNumber receipt ∧
             GasUsed st' = types.GasUsed receipt
         end.
Proof.
  intros Hst Hobs. unfold monitorTransaction_tick, observe in *.
  destruct resp as [msg|receipt].
  - destruct (String.eqb msg "not found"); [done|].
    eexists. split.
    + rewrite (surjective_pairing (updateStatus _ _ _ _ _ _ _)).
      rewrite (updateStatus_calls _ _ _ _ _ _ _ _ Hst).
      unfold updateStatus. rewrite Hst. cbn. reflexivity.
    + by repeat split.
  - eexists. split.
    + rewrite (surjective_pairing (updateStatus _ _ _ _ _ _ _)).
      rewrite (updateStatus_calls _ _ _ _ _ _ _ _ Hst).
      unfold updateStatus. rewrite Hst. cbn. reflexivity.
    + cbn. repeat split; try done.
      by destruct (types.Status receipt =? types.ReceiptStatusFailed).
Qed.

(** X10.  In a world an execution reaches, a tick of a loop whose query
    is answered with a receipt, or with an error other than "not found",
    invokes the callbacks registered for the hash at that moment, each
    once, in registration order, all with the record the hash then has:
    the new status, the block and gas of the receipt (zero on an error),
    the error message, the time of the update; and the loop ends.  A tick
    answered "not found" invokes nothing and the loop goes on. *)
Theorem tick_dispatches_in_registration_order (w w' : World) (h : Z)
    (resp : string + types.Receipt) (now : Z) :
  reachable w → step w (Tick h resp now) = Some w' →
  if decide (observe resp = NotYetFound)
  then calls w' = calls w ∧ mon w' = mon w ∧ loops w' = loops w
  else ∃ st', statuses (mon w') !! h = Some st' ∧
         calls w' = (calls w ++ map (λ cb, (h, (cb, st'))) (callbacks_for (mon w) h))%list ∧
         (h ∉ loops w') ∧
         Timestamp st' = now ∧
         state_of (Status st') = Some (spec_step Pending (observe resp)) ∧
         match resp with
         | inl msg => Error st' = msg ∧ BlockNum st' = 0 ∧ GasUsed st' = 0
         | inr receipt =>
             Error st' = EmptyString ∧ BlockNum st' = types.BlockNumber receipt ∧
             GasUsed st' = types.GasUsed receipt
         end.
Proof.
  intros [Hnd Hpend _]%Inv_reachable Hstep. cbn in Hstep.
  case_decide as Hin; [|done].
  destruct (Hpend h Hin) as (st & Hst & Hp).
  case_decide as Hobs.
  - unfold monitorTransaction_tick, observe in *. destruct resp as [msg|receipt].
    + destruct (String.eqb msg "not found"); [|done].
      injection Hstep as <-. cbn. by rewrite app_nil_r.
    + by destruct (types.Status receipt =? types.ReceiptStatusFailed).
  - destruct (tick_Return (mon w) h resp now st Hst Hobs)
      as (st' & Heq & _ & Ht & Hs & Hf).
    rewrite Heq in Hstep. injection Hstep as <-. cbn.
    exists st'. rewrite lookup_insert_eq. split; [done|]. split.
    + f_equal. by rewrite map_map.
    + split; [by apply exit_loop_NoDup|]. done.
Qed.

Lemma calls_final_step (w w' : World) (e : event) :
  Inv w → calls_final w → step w e = Some w' → calls_final w'.
Proof.
  intros Hinv Hcf Hstep h cb st Hin.
  destruct Hinv as [Hnd Hpend Hknown].
  destruct e as [h' now|h' resp now|h'|h' c|h' c]; cbn in Hstep.
  - unfold MonitorTransaction in Hstep.
    destruct (statuses (mon w) !! h') as [st'|] eqn:Hst'; injection Hstep as <-.
    + exact (Hcf h cb st Hin).
    + cbn in *. destruct (Hcf h cb st Hin) as (Hout & Hst & Hterm).
      assert (h ≠ h') by congruence.
      rewrite lookup_insert_ne by done. split; [|done].
      apply not_elem_of_cons. done.
  - case_decide as Hl; [|done].
    destruct (Hpend h' Hl) as (st0 & Hst0 & Hp).
    destruct (decide (observe resp = NotYetFound)) as [Hobs|Hobs].
    + assert (monitorTransaction_tick (mon w) h' resp now = (mon w, [], Continue))
        as Heq.
      { unfold monitorTransaction_tick, observe in *. destruct resp as [msg|r].
        - by destruct (String.eqb msg "not found").
        - by destruct (types.Status r =? types.ReceiptStatusFailed). }
      rewrite Heq in Hstep. injection Hstep as <-. cbn in *.
      rewrite app_nil_r in Hin. exact (Hcf h cb st Hin).
    + destruct (tick_Return (mon w) h' resp now st0 Hst0 Hobs)
        as (st' & Heq & _ & _ & Hs' & _).
      rewrite Heq in Hstep. injection Hstep as <-. cbn in *.
      apply elem_of_app in Hin as [Hin|Hin].
      * destruct (Hcf h cb st Hin) as (Hout & Hst & Hterm).
        assert (h ≠ h') by (intros ->; done).
        rewrite lookup_insert_ne by done. split; [|done].
        intros Hx. by apply exit_loop_elem in Hx.
      * apply list_elem_of_fmap in Hin as ([cb' st''] & [= -> -> ->] & Hin).
        apply list_elem_of_fmap in Hin as (cb'' & [= -> ->] & _).
        rewrite lookup_insert_eq. split; [by apply exit_loop_NoDup|].
        split; [done|]. eexists. split; [exact Hs'|].
        by destruct (observe resp).
  - case_decide as Hl; [|done]. injection Hstep as <-. cbn in *.
    destruct (Hcf h cb st Hin) as (Hout & Hst & Hterm). split; [|done].
    intros Hx. by apply exit_loop_elem in Hx.
  - injection Hstep as <-. exact (Hcf h cb st Hin).
  - injection Hstep as <-. cbn in *. destruct (Hcf h cb st Hin) as (? & ? & ?).
    unfold RemoveCallback. destruct (callbacks (mon w) !! h'); [case_decide|]; done.
Qed.

Lemma calls_final_run (es : list event) (w w' : World) :
  Inv w → calls_final w → run w es = Some w' → calls_final w'.
Proof.
  revert w. induction es as [|e es IH]; intros w Hinv Hcf; cbn.
  - by intros [= <-].
  - destruct (step w e) as [w1|] eqn:Hs; [|done].
    apply IH; [by eapply Inv_step|by eapply calls_final_step].
Qed.

(** X11.  Every callback invocation an execution has made was made for a
    hash that is no longer pending and has no loop, and the record it was
    given is the record of the hash as it is now: a callback never sees
    a pending or an outdated status. *)
Theorem invocations_carry_the_final_record (w : World) (h : Z) (cb : Callback)
    (st : TransactionStatus) :
  reachable w → (h, (cb, st)) ∈ calls w →
  statuses (mon w) !! h = Some st ∧ (h ∉ loops w) ∧
  ∃ s, state_at w h = Some s ∧ terminal s = true.
Proof.
  intros Hr Hin. pose proof (Inv_reachable w Hr) as Hinv.
  destruct Hr as [es Hes].
  assert (Hcf : calls_final w).
  { eapply calls_final_run; [apply Inv_init| |exact Hes].
    intros ? ? ? Hx. by apply elem_of_nil in Hx. }
  destruct (Hcf h cb st Hin) as (Hout & Hst & s & Hs & Ht).
  split; [done|]. split; [done|].
  exists s. unfold state_at. rewrite Hst. done.
Qed.

Lemma filter_none {A : Type} (P : A → Prop) `{∀ x, Decision (P x)} (l : list A) :
  (∀ x, x ∈ l → ¬ P x) → filter P l = [].
Proof.
  induction l as [|x l IH]; intros Hl; [done|].
  rewrite filter_cons_False by (apply Hl; left).
  apply IH. intros y Hy. apply Hl. by right.
Qed.

(** X12.  Once its context is cancelled, a loop ends at its next
    [select], in one of two ways.  When the [select] takes
    [<-ctx.Done()], the hash is left pending: its record, the queries
    made and the invocations made are as they were, and no callback was
    ever invoked for it.  When the [select] takes the tick, the query is
    made under the cancelled context and fails with an error that is not
    "not found": the hash goes to error with that message, and every
    callback registered for it is invoked once.  Either way no loop runs
    for the hash afterwards, and whatever follows, its record stays as it
    is, no query is made for it and no callback is invoked for it. *)
Theorem cancelled_loop_ends_at_its_next_select (w w' : World) (h : Z) (e : event) :
  reachable w →
  (e = CtxDone h ∨ ∃ msg now, msg ≠ "not found" ∧ e = Tick h (inl msg) now) →
  step w e = Some w' →
  (h ∉ loops w') ∧
  match e with
  | Tick _ (inl msg) now =>
      ∃ st', statuses (mon w') !! h = Some st' ∧
        Status st' = "error" ∧ Error st' = msg ∧ Timestamp st' = now ∧
        calls w' = (calls w ++ map (λ cb, (h, (cb, st'))) (callbacks_for (mon w) h))%list ∧
        polls w' = (polls w ++ [h])%list
  | _ =>
      state_at w' h = Some Pending ∧
      statuses (mon w') !! h = statuses (mon w) !! h ∧
      calls w' = calls w ∧ polls w' = polls w ∧ calls_of h w' = []
  end ∧
  ∀ es w'', run w' es = Some w'' →
    statuses (mon w'') !! h = statuses (mon w') !! h ∧
    polls_of h w'' = polls_of h w' ∧
    calls_of h w'' = calls_of h w' ∧
    (h ∉ loops w'').
Proof.
  intros Hr He Hstep.
  pose proof (Inv_reachable w Hr) as [Hnd Hpend Hknown].
  assert (Hcf : calls_final w).
  { destruct Hr as [es0 Hes0].
    eapply calls_final_run; [apply Inv_init| |exact Hes0].
    intros ? ? ? Hx. by apply elem_of_nil in Hx. }
  assert (Hin : h ∈ loops w).
  { destruct He as [->|(msg & now & _ & ->)]; cbn in Hstep; by case_decide. }
  destruct (Hpend h Hin) as (st & Hst & Hp).
  assert (Hout : (h ∉ loops w') ∧ is_Some (statuses (mon w') !! h)).
  { destruct He as [->|(msg & now & Hmsg & ->)]; cbn in Hstep;
      rewrite decide_True in Hstep by done.
    - injection Hstep as <-. cbn. split; [by apply exit_loop_NoDup|by rewrite Hst].
    - apply String.eqb_neq in Hmsg. rewrite Hmsg in Hstep.
      rewrite (surjective_pairing (updateStatus _ _ _ _ _ _ _)) in Hstep.
      injection Hstep as <-. cbn. split; [by apply exit_loop_NoDup|].
      by erewrite updateStatus_lookup_eq. }
  destruct Hout as [Hout Htracked].
  split; [exact Hout|]. split.
  - destruct He as [->|(msg & now & Hmsg & ->)]; cbn in Hstep;
      rewrite decide_True in Hstep by done.
    + injection Hstep as <-. cbn. split; [|split; [done|split; [done|split; [done|]]]].
      * unfold state_at. cbn. rewrite Hst. cbn. by rewrite Hp.
      * unfold calls_of. apply filter_none.
        intros [h' [cb st']] Hc Heq. cbn in Heq. subst h'.
        by destruct (Hcf h cb st' Hc).
    + apply String.eqb_neq in Hmsg. rewrite Hmsg in Hstep.
      rewrite (surjective_pairing (updateStatus _ _ _ _ _ _ _)) in Hstep.
      rewrite (updateStatus_calls _ _ _ _ _ _ _ _ Hst) in Hstep.
      injection Hstep as <-. cbn.
      eexists. split; [by apply updateStatus_lookup_eq|].
      split; [done|]. split; [done|]. split; [done|]. split; [|done].
      f_equal. by rewrite map_map.
  - intros es w'' Hrun.
    destruct (run_without_loop es w' w'' h Htracked Hout Hrun)
      as (H1 & H2 & H3 & H4 & _).
    done.
Qed.

Lemma step_tracked (w w' : World) (e : event) (h : Z) :
  is_Some (statuses (mon w) !! h) → step w e = Some w' →
  is_Some (statuses (mon w') !! h).
Proof.
  intros Hst Hstep.
  destruct e as [h' now|h' resp now|h'|h' c|h' c]; cbn in Hstep.
  - unfold MonitorTransaction in Hstep.
    destruct (statuses (mon w) !! h') eqn:Hst'; injection Hstep as <-; [done|].
    cbn. destruct (decide (h = h')) as [->|]; [by rewrite lookup_insert_eq|].
    by rewrite lookup_insert_ne.
  - case_decide; [|done].
    assert (is_Some (statuses (monitorTransaction_tick (mon w) h' resp now).1.1 !! h))
      as Ht.
    { destruct (decide (h = h')) as [->|Hne].
      - destruct Hst as [st Hst].
        unfold monitorTransaction_tick.
        destruct resp as [msg|r]; [destruct (String.eqb msg "not found")|];
          cbn; rewrite ?Hst; try done;
          by erewrite updateStatus_lookup_eq.
      - by rewrite monitorTransaction_tick_lookup_ne. }
    destruct (monitorTransaction_tick (mon w) h' resp now) as [[m' inv] nx].
    by injection Hstep as <-.
  - case_decide; [|done]. by injection Hstep as <-.
  - by injection Hstep as <-.
  - injection Hstep as <-. cbn. unfold RemoveCallback.
    destruct (callbacks (mon w) !! h'); [case_decide|]; done.
Qed.

Lemma run_tracked (es : list event) (w w' : World) (h : Z) :
  is_Some (statuses (mon w) !! h) → run w es = Some w' →
  is_Some (statuses (mon w') !! h).
Proof.
  revert w. induction es as [|e es IH]; intros w Hst; cbn.
  - by intros [= <-].
  - destruct (step w e) as [w1|] eqn:Hs; [|done].
    apply IH. by eapply step_tracked.
Qed.

(** X13.  Once [MonitorTransaction] has been called for a hash, the hash
    is tracked for good: whatever follows (its loop ending, being
    cancelled, other hashes coming and going), [GetStatus] finds it and
    another [MonitorTransaction] for it is refused and changes nothing.
    Nothing ever removes a hash from the monitor. *)
Theorem monitored_hash_is_refused_for_good (w : World) (h now : Z)
    (es : list event) (w' : World) (now' : Z) :
  run (MonitorTransaction w h now).2 es = Some w' →
  MonitorTransaction w' h now' = (Some ErrAlreadyMonitored, w') ∧
  ∃ st, GetStatus (mon w') h = Ok st.
Proof.
  intros Hrun.
  assert (Ht : is_Some (statuses (mon (MonitorTransaction w h now).2) !! h)).
  { unfold MonitorTransaction.
    destruct (statuses (mon w) !! h) eqn:Hst; cbn; [by rewrite Hst|].
    by rewrite lookup_insert_eq. }
  destruct (run_tracked es _ w' h Ht Hrun) as [st Hst].
  unfold MonitorTransaction, GetStatus. rewrite Hst. eauto.
Qed.

Lemma remove_first_not_elem (cb : Callback) (cbs : list Callback) :
  cb ∉ cbs → remove_first cb cbs = cbs.
Proof.
  induction cbs as [|c cbs IH]; [done|]. cbn.
  intros [Hne Hin]%not_elem_of_cons.
  rewrite decide_False by done. by rewrite IH.
Qed.

Lemma remove_first_app (cb : Callback) (cbs more : list Callback) :
  cb ∈ cbs → (remove_first cb (cbs ++ more) = remove_first cb cbs ++ more)%list.
Proof.
  induction cbs as [|c cbs IH]; [by intros ?%elem_of_nil|]. cbn.
  case_decide; [done|].
  intros [?|Hin]%elem_of_cons; [done|]. by rewrite IH.
Qed.

Lemma remove_first_length (cb : Callback) (cbs : list Callback) :
  cb ∈ cbs → S (length (remove_first cb cbs)) = length cbs.
Proof.
  induction cbs as [|c cbs IH]; [by intros ?%elem_of_nil|]. cbn.
  case_decide; [done|].
  intros [?|Hin]%elem_of_cons; [done|]. cbn. by rewrite IH.
Qed.

Lemma callbacks_for_RemoveCallback (m : Monitor) (h : Z) (cb : Callback) :
  callbacks_for (RemoveCallback m h cb) h = remove_first cb (callbacks_for m h).
Proof.
  unfold RemoveCallback, callbacks_for.
  destruct (callbacks m !! h) as [cbs|] eqn:Hc; cbn; [|by rewrite Hc].
  case_decide.
  - cbn. by rewrite lookup_insert_eq.
  - rewrite Hc. cbn. by rewrite remove_first_not_elem.
Qed.

(** X14.  [RemoveCallback] takes away one registration of the callback,
    the earliest, and leaves the list as it is when the callback is not
    registered; registrations for other hashes and the statuses are never
    touched.  So after [AddCallback] and then [RemoveCallback] of the same
    callback the list is as before when the callback was new; but when it
    was registered already, it is the earlier registration that goes, and
    the callback is now last. *)
Theorem RemoveCallback_removes_the_earliest (m : Monitor) (h : Z) (cb : Callback) :
  callbacks_for (RemoveCallback m h cb) h = remove_first cb (callbacks_for m h) ∧
  length (callbacks_for (RemoveCallback m h cb) h) =
    (if decide (cb ∈ callbacks_for m h) then pred (length (callbacks_for m h))
     else length (callbacks_for m h)) ∧
  callbacks_for (RemoveCallback (AddCallback m h cb) h cb) h =
    (if decide (cb ∈ callbacks_for m h)
     then remove_first cb (callbacks_for m h) ++ [cb]
     else callbacks_for m h)%list ∧
  (∀ h', h' ≠ h →
     callbacks_for (RemoveCallback m h cb) h' = callbacks_for m h' ∧
     callbacks_for (AddCallback m h cb) h' = callbacks_for m h') ∧
  statuses (RemoveCallback m h cb) = statuses m ∧
  statuses (AddCallback m h cb) = statuses m.
Proof.
  split; [apply callbacks_for_RemoveCallback|]. split; [|split; [|split; [|split]]].
  - rewrite callbacks_for_RemoveCallback. case_decide as Hin.
    + by rewrite <- (remove_first_length cb _ Hin).
    + by rewrite remove_first_not_elem.
  - rewrite callbacks_for_RemoveCallback.
    assert (callbacks_for (AddCallback m h cb) h = (callbacks_for m h ++ [cb])%list) as ->.
    { unfold AddCallback, callbacks_for. cbn. by rewrite lookup_insert_eq. }
    case_decide as Hin.
    + by apply remove_first_app.
    + induction (callbacks_for m h) as [|c cbs IH]; cbn.
      * by rewrite decide_True.
      * apply not_elem_of_cons in Hin as [Hne Hin].
        rewrite decide_False by done. by rewrite IH.
  - intros h' Hne. split.
    + unfold RemoveCallback, callbacks_for.
      destruct (callbacks m !! h); [case_decide|]; cbn; try done.
      by rewrite lookup_insert_ne.
    + unfold AddCallback, callbacks_for. cbn. by rewrite lookup_insert_ne.
  - unfold RemoveCallback. destruct (callbacks m !! h); [case_decide|]; done.
  - done.
Qed.

End MonitorMore.

Module MonitorMoreWitnesses.
Import monitor MonitorMore MonitorWitnesses.

(** Hash 7 monitored, two callbacks registered. *)
Definition registered : World :=
  default init (run init [CallMonitorTransaction 7 100; CallAddCallback 7 1%nat;
                          CallAddCallback 7 2%nat]).

Lemma registered_reachable : reachable registered.
Proof.
  exists [CallMonitorTransaction 7 100; CallAddCallback 7 1%nat;
          CallAddCallback 7 2%nat].
  reflexivity.
Qed.

(** X10 at a receipt that says failed. *)
Lemma tick_dispatches_witness :
  ∃ w' st', step registered (Tick 7 (inr failed_receipt) 110) = Some w' ∧
    calls w' = [(7, (1%nat, st')); (7, (2%nat, st'))] ∧ Status st' = "failed".
Proof.
  destruct (step registered (Tick 7 (inr failed_receipt) 110)) as [w'|] eqn:Hs;
    [|by vm_compute in Hs].
  pose proof (tick_dispatches_in_registration_order registered w' 7
                (inr failed_receipt) 110 registered_reachable Hs) as H.
  cbn in H. destruct H as (st' & Hst & Hc & _).
  exists w', st'. split; [done|]. split; [exact Hc|].
  vm_compute in Hs. injection Hs as <-. vm_compute in Hst. by injection Hst as <-.
Defined.

Lemma after_trace_call :
  (7, (1%nat, {| Hash := 7; Status := "failed"; BlockNum := 12; GasUsed := 21000;
                 Error := EmptyString; Timestamp := 110 |})) ∈ calls after_trace.
Proof. vm_compute. left. Qed.

(** X11 at the trace that ends in a failed receipt. *)
Lemma invocations_carry_the_final_record_witness :
  ∃ st, statuses (mon after_trace) !! 7 = Some st ∧ Status st = "failed".
Proof.
  destruct (invocations_carry_the_final_record after_trace 7 1%nat _
              after_trace_reachable after_trace_call) as (Hst & _).
  eexists. split; [exact Hst|reflexivity].
Defined.

(** X12: the context of hash 7 is cancelled and the tick is taken; the
    query fails, both callbacks are invoked with the error, and what
    follows changes nothing for the hash. *)
Lemma cancelled_loop_witness :
  ∃ w' w'' st',
    step registered (Tick 7 (inl "context canceled") 110) = Some w' ∧
    run w' [CallMonitorTransaction 7 200; CallAddCallback 7 3%nat] = Some w'' ∧
    calls w' = [(7, (1%nat, st')); (7, (2%nat, st'))] ∧
    Status st' = "error" ∧ Error st' = "context canceled" ∧
    calls_of 7 w'' = calls_of 7 w'.
Proof.
  destruct (step registered (Tick 7 (inl "context canceled") 110)) as [w'|] eqn:Hs;
    [|by vm_compute in Hs].
  destruct (run w' [CallMonitorTransaction 7 200; CallAddCallback 7 3%nat])
    as [w''|] eqn:Hrun; [|vm_compute in Hs; injection Hs as <-; by vm_compute in Hrun].
  destruct (cancelled_loop_ends_at_its_next_select registered w' 7
              (Tick 7 (inl "context canceled") 110) registered_reachable)
    as (_ & (st' & _ & Hst & Herr & _ & Hcalls & _) & Hafter);
    [right; exists "context canceled", 110; split; [discriminate|reflexivity]
    |exact Hs|].
  destruct (Hafter _ w'' Hrun) as (_ & _ & Hc & _).
  exists w', w'', st'. split; [done|]. split; [done|].
  split; [exact Hcalls|]. by repeat split.
Defined.

(** The other way: the [select] takes the cancellation, and the hash
    stays pending with no callback invoked. *)
Example cancelled_hash_stays_pending :
  ∃ w'', run registered [CtxDone 7; CallMonitorTransaction 7 200;
                        CallAddCallback 7 3%nat] = Some w'' ∧
         state_at w'' 7 = Some Pending ∧ calls w'' = [] ∧ loops w'' = [].
Proof. eexists. vm_compute. repeat split; reflexivity. Qed.

(** X13: after the trace that ends in a failed receipt, hash 7 is
    still refused. *)
Lemma monitored_hash_is_refused_witness :
  MonitorTransaction after_trace 7 300 = (Some ErrAlreadyMonitored, after_trace).
Proof.
  apply (monitored_hash_is_refused_for_good init 7 100 (tail trace) after_trace 300).
  reflexivity.
Defined.

Example RemoveCallback_of_a_callback_registered_twice :
  callbacks_for
    (RemoveCallback (AddCallback (mon registered) 7 1%nat) 7 1%nat) 7
  = [2%nat; 1%nat].
Proof. reflexivity. Qed.

End MonitorMoreWitnesses.

(* ===================================================================== *)
(** * The cipher of the backup archive                                     *)
(* ===================================================================== *)

Section BackupFacts.
Context `{CP : CryptoProvider}.
Import backup.

Lemma backup_deriveKey_length (password : string) :
  length (deriveKey password) = 32%nat.
Proof. apply sha256_Size. Qed.

Lemma backup_NewCipher (password : string) :
  aes_NewCipher (deriveKey password) = Ok (deriveKey password).
Proof. unfold aes_NewCipher. by rewrite backup_deriveKey_length. Qed.

Lemma encryptData_eq (data : list byte) (password : string) (rnd : Reader) :
  encryptData data password rnd =
  if decide (12 ≤ length rnd)%nat
  then (Data (take 12 rnd ++ gcm_Seal (deriveKey password) (take 12 rnd) data)%list,
        drop 12 rnd)
  else (Failed ErrRandRead, []).
Proof.
  unfold encryptData. rewrite backup_NewCipher. unfold ReadFull.
  case_decide as Hlen; [|done].
  unfold aesGCM_Seal. by rewrite length_take, Nat.min_l by lia.
Qed.

(** X15.  [encryptData] fails only when the random source does, and never
    panics; what it returns is the 12 random bytes followed by the data
    sealed under them and the SHA-256 of the password, and [decryptData]
    under the same password gives the data back. *)
Theorem decryptData_encryptData (data : list byte) (password : string) (rnd : Reader) :
  match (encryptData data password rnd).1 with
  | Data blob =>
      (12 ≤ length rnd)%nat ∧
      blob = (take 12 rnd ++
              gcm_Seal (sha256_Sum256 (bytes_of_string password)) (take 12 rnd) data)%list ∧
      (encryptData data password rnd).2 = drop 12 rnd ∧
      decryptData blob password = Data data
  | Failed e => e = ErrRandRead ∧ (length rnd < 12)%nat
  | Panicked => False
  end.
Proof.
  unfold encryptData. rewrite backup_NewCipher. unfold ReadFull.
  case_decide as Hlen; cbn; [|split; [done|lia]].
  assert (Hn : length (take 12 rnd) = 12%nat) by (rewrite length_take; lia).
  unfold aesGCM_Seal. rewrite Hn. cbn.
  split; [done|]. split; [done|]. split; [done|].
  unfold decryptData. rewrite backup_NewCipher.
  rewrite length_app, Hn.
  destruct (12 + _ <? 12)%nat eqn:Hlt; [apply Nat.ltb_lt in Hlt; lia|].
  rewrite take_app_length' by done. rewrite drop_app_length' by done.
  unfold aesGCM_Open. rewrite Hn. cbn. by rewrite gcm_Open_Seal.
Qed.

(** X16.  [decryptData] fails closed, and GCM's tag is the only check it
    makes of what follows the nonce.  It
    never panics and never fails on the key; it returns "ciphertext too
    short" exactly on fewer than 12 bytes; on 12 bytes or more it returns
    GCM's error exactly when [Open] rejects the rest under the SHA-256 of
    the password with the first 12 bytes as nonce, and the plaintext
    exactly when [Open] accepts.  As [Open] accepts only what [Seal]
    makes, the bytes it returns a plaintext for are those [encryptData]
    makes of that plaintext under that password when it draws the same
    nonce. *)
Theorem decryptData_fails_closed (bytes : list byte) (password : string) :
  decryptData bytes password ≠ Panicked ∧
  decryptData bytes password ≠ Failed ErrNewCipher ∧
  (decryptData bytes password = Failed ErrTooShort ↔ (length bytes < 12)%nat) ∧
  (decryptData bytes password = Failed ErrOpen ↔
     (12 ≤ length bytes)%nat ∧
     gcm_Open (sha256_Sum256 (bytes_of_string password)) (take 12 bytes)
       (drop 12 bytes) = None) ∧
  (∀ plaintext, decryptData bytes password = Data plaintext ↔
     (12 ≤ length bytes)%nat ∧
     gcm_Open (sha256_Sum256 (bytes_of_string password)) (take 12 bytes)
       (drop 12 bytes) = Some plaintext) ∧
  (keystore.gcm_opens_only_sealed →
   ∀ plaintext, decryptData bytes password = Data plaintext →
     (encryptData plaintext password (take 12 bytes)).1 = Data bytes).
Proof.
  assert (Heq : decryptData bytes password =
    if (length bytes <? 12)%nat then Failed ErrTooShort
    else match gcm_Open (sha256_Sum256 (bytes_of_string password)) (take 12 bytes)
                 (drop 12 bytes) with
         | Some plaintext => Data plaintext
         | None => Failed ErrOpen
         end).
  { unfold decryptData. rewrite backup_NewCipher.
    destruct (length bytes <? 12)%nat eqn:Hlt; [done|].
    apply Nat.ltb_ge in Hlt.
    unfold aesGCM_Open. rewrite length_take, Nat.min_l by lia. cbn.
    unfold deriveKey. by destruct (gcm_Open _ _ _). }
  rewrite Heq.
  destruct (length bytes <? 12)%nat eqn:Hlt;
    [apply Nat.ltb_lt in Hlt|apply Nat.ltb_ge in Hlt].
  { repeat split; try done; try lia; intros; try lia; try done.
    all: try (by destruct H). }
  destruct (gcm_Open _ _ _) as [pt|] eqn:Hopen.
  - split; [done|]. split; [done|]. split; [split; [done|lia]|].
    split; [split; [done|by intros [_ ?]]|].
    split; [intros plaintext; split; [by intros [= ->]|by intros [_ [= ->]]]|].
    intros Honly plaintext [= <-].
    apply Honly in Hopen;
      [|apply sha256_Size|rewrite length_take; lia].
    rewrite encryptData_eq. rewrite decide_True by (rewrite length_take; lia).
    cbn [fst]. f_equal. unfold deriveKey.
    rewrite take_take, Nat.min_id, <- Hopen. apply take_drop.
  - split; [done|]. split; [done|]. split; [split; [done|lia]|].
    split; [done|]. split; [|done].
    intros plaintext. split; [done|by intros [_ ?]].
Qed.

End BackupFacts.

Module BackupWitnesses.
Import backup MockInstances Vectors.

(** [encryptData] and back at the vectors: the nonce is the first 12
    bytes of the entropy. *)
Example encryptData_then_decryptData :
  ∃ blob, (encryptData secret password entropy).1 = Data blob ∧
          take 12 blob = replicate 12 xa5 ∧
          decryptData blob password = Data secret.
Proof. eexists. repeat split; reflexivity. Qed.

(** X16 at the vectors. *)
Lemma decryptData_fails_closed_witness :
  decryptData (take 12 entropy ++ gcm_Seal (deriveKey password) (take 12 entropy) secret)
    password = Data secret ∧
  (encryptData secret password (take 12 entropy)).1
  = Data (take 12 entropy ++ gcm_Seal (deriveKey password) (take 12 entropy) secret)%list.
Proof.
  assert (Hd : decryptData
                 (take 12 entropy ++
                  gcm_Seal (deriveKey password) (take 12 entropy) secret) password
               = Data secret) by (by vm_compute).
  split; [exact Hd|].
  destruct (decryptData_fails_closed
              (take 12 entropy ++ gcm_Seal (deriveKey password) (take 12 entropy) secret)
              password) as (_ & _ & _ & _ & _ & H).
  apply (H crypto_opens_only_sealed secret Hd).
Defined.

(** With the stand-in for the cipher, another password is rejected. *)
Example decryptData_wrong_password_at_the_vectors :
  decryptData (take 12 entropy ++ gcm_Seal (deriveKey password) (take 12 entropy) secret)
    wrong_password = Failed ErrOpen.
Proof. vm_compute. reflexivity. Qed.

Example decryptData_of_eleven_bytes :
  decryptData (replicate 11 x00) password = Failed ErrTooShort.
Proof. reflexivity. Qed.

Example encryptData_without_entropy :
  (encryptData secret password (replicate 11 x00)).1 = Failed ErrRandRead.
Proof. reflexivity. Qed.

End BackupWitnesses.

(* ===================================================================== *)
(** * The validator                                                        *)
(* ===================================================================== *)

Section ValidatorFacts.
Import validator.

(** A number of the transaction and its two limits: all three there, or
    all three nil.  Then no [Cmp] dereferences nil. *)
Definition all_or_none (x lo hi : option Z) : bool :=
  match x, lo, hi with
  | Some _, Some _, Some _ | None, None, None => true
  | _, _, _ => false
  end.

(** [x] is there, and so is [y], and [x < y]. *)
Definition below (x y : option Z) : bool :=
  match x, y with
  | Some a, Some b => a <? b
  | _, _ => false
  end.

Lemma below_true (x y : option Z) :
  below x y = true ↔ ∃ a b, x = Some a ∧ y = Some b ∧ a < b.
Proof.
  destruct x as [a|], y as [b|]; cbn.
  - rewrite Z.ltb_lt. split; [eauto|]. by intros (? & ? & [= <-] & [= <-] & ?).
  - split; [done|]. by intros (? & ? & _ & ? & _).
  - split; [done|]. by intros (? & ? & ? & _).
  - split; [done|]. by intros (? & ? & ? & _).
Qed.

Lemma compare_below (a b : Z) :
  (match a ?= b with Lt => -1 | Eq => 0 | Gt => 1 end <? 0) = (a <? b).
Proof. unfold Z.ltb at 2. by destruct (a ?= b). Qed.

Lemma compare_above (a b : Z) :
  (0 <? match a ?= b with Lt => -1 | Eq => 0 | Gt => 1 end) = (b <? a).
Proof.
  destruct (Z.compare_spec a b) as [->| |]; cbn; symmetry;
    [apply Z.ltb_irrefl|apply Z.ltb_ge; lia|apply Z.ltb_lt; lia].
Qed.

(** [ValidateTransaction] without the panics. *)
Lemma ValidateTransaction_eq (v : Validator) (tx : Transaction) :
  ValidateTransaction v tx =
  if all_or_none (GasPrice tx) (MinGasPrice v) (MaxGasPrice v) &&
     all_or_none (Value tx) (MinValue v) (MaxValue v)
  then
    Ok (report (match ChainID tx with
                | None => true
                | Some chainID => chainID <=? 0
                end) chainId_required
          (report (bool_decide (To tx = None)) to_required
             (report (below (MaxValue v) (Value tx)) (value_too_high v tx)
                (report (below (Value tx) (MinValue v)) (value_too_low v tx)
                   (report (MaxGasLimit v <? Gas tx) (gas_too_high v tx)
                      (report (below (MaxGasPrice v) (GasPrice tx))
                         (gasPrice_too_high v tx)
                         (report (below (GasPrice tx) (MinGasPrice v))
                            (gasPrice_too_low v tx) [])))))))
  else Panic.
Proof.
  unfold ValidateTransaction, Cmp, below.
  destruct (GasPrice tx) as [gp|], (MinGasPrice v) as [lo|], (MaxGasPrice v) as [hi|];
    cbn [all_or_none andb mbind result_bind]; try reflexivity;
    destruct (Value tx) as [val|], (MinValue v) as [vlo|], (MaxValue v) as [vhi|];
    cbn [all_or_none andb mbind result_bind]; try reflexivity;
    rewrite ?compare_below, ?compare_above; reflexivity.
Qed.

Lemma report_nil (failed : bool) (e : ValidationError) (errors : list ValidationError) :
  report failed e errors = [] ↔ failed = false ∧ errors = [].
Proof.
  unfold report. destruct failed.
  - split; [intros H%app_nil; by destruct H|by intros [? _]].
  - split; [by intros ->|by intros [_ ->]].
Qed.

Lemma report_fields (failed : bool) (e : ValidationError)
    (errors : list ValidationError) :
  Field <$> report failed e errors
  = ((Field <$> errors) ++ (if failed then [Field e] else []))%list.
Proof.
  unfold report. destruct failed; [by rewrite fmap_app|by rewrite app_nil_r].
Qed.

Lemma elem_of_reported (failed : bool) (f x : string) :
  x ∈ (if failed then [f] else []) ↔ failed = true ∧ x = f.
Proof.
  destruct failed.
  - rewrite list_elem_of_singleton. split; [done|by intros [_ ?]].
  - split; [by intros ?%elem_of_nil|by intros [? _]].
Qed.

Lemma chainID_check (chainID : option Z) :
  match chainID with None => true | Some c => c <=? 0 end = true ↔
  ∀ c, chainID = Some c → c ≤ 0.
Proof.
  destruct chainID as [c|].
  - rewrite Z.leb_le. split; [by intros ? ? [= <-]|eauto].
  - split; [by intros _ ? [=]|done].
Qed.

(** X17.  [ValidateTransaction] returns no error exactly for a
    transaction with a recipient and a positive chain ID, whose gas is at
    most the limit, and whose gas price and value are within their
    limits, both ends included.  (Where the validator has neither limit
    for one of the two, set to nil through its setter, it is the
    transaction without that number that passes.) *)
Theorem ValidateTransaction_accepts_iff (v : Validator) (tx : Transaction) :
  ValidateTransaction v tx = Ok [] ↔
  match GasPrice tx, MinGasPrice v, MaxGasPrice v with
  | Some gasPrice, Some min, Some max => min ≤ gasPrice ≤ max
  | None, None, None => True
  | _, _, _ => False
  end ∧
  Gas tx ≤ MaxGasLimit v ∧
  match Value tx, MinValue v, MaxValue v with
  | Some value, Some min, Some max => min ≤ value ≤ max
  | None, None, None => True
  | _, _, _ => False
  end ∧
  is_Some (To tx) ∧
  ∃ chainID, ChainID tx = Some chainID ∧ 0 < chainID.
Proof.
  rewrite ValidateTransaction_eq.
  destruct (all_or_none (GasPrice tx) _ _) eqn:Hg; cycle 1.
  { split; [done|]. intros [H _]. revert Hg H.
    by destruct (GasPrice tx), (MinGasPrice v), (MaxGasPrice v). }
  destruct (all_or_none (Value tx) _ _) eqn:Hv; cycle 1.
  { split; [done|]. intros (_ & _ & H & _). revert Hv H.
    by destruct (Value tx), (MinValue v), (MaxValue v). }
  cbn [andb]. split.
  - intros [= H].
    apply report_nil in H as [Hc H]. apply report_nil in H as [Ht H].
    apply report_nil in H as [Hvh H]. apply report_nil in H as [Hvl H].
    apply report_nil in H as [Hgas H]. apply report_nil in H as [Hgh H].
    apply report_nil in H as [Hgl _].
    apply Z.ltb_ge in Hgas.
    split; [|split; [done|split; [|split]]].
    + revert Hg Hgl Hgh. unfold below.
      destruct (GasPrice tx), (MinGasPrice v), (MaxGasPrice v); try done.
      intros _ ?%Z.ltb_ge ?%Z.ltb_ge. lia.
    + revert Hv Hvl Hvh. unfold below.
      destruct (Value tx), (MinValue v), (MaxValue v); try done.
      intros _ ?%Z.ltb_ge ?%Z.ltb_ge. lia.
    + destruct (To tx); [eauto|by rewrite bool_decide_eq_false in Ht].
    + destruct (ChainID tx) as [c|]; [|done]. exists c. split; [done|].
      by apply Z.leb_gt.
  - intros (HG & Hgas & HV & [to Hto] & c & Hc & Hpos).
    rewrite Hto, Hc.
    assert (below (GasPrice tx) (MinGasPrice v) = false ∧
            below (MaxGasPrice v) (GasPrice tx) = false) as [-> ->].
    { unfold below. destruct (GasPrice tx), (MinGasPrice v), (MaxGasPrice v);
        try done. split; apply Z.ltb_ge; lia. }
    assert (below (Value tx) (MinValue v) = false ∧
            below (MaxValue v) (Value tx) = false) as [-> ->].
    { unfold below. destruct (Value tx), (MinValue v), (MaxValue v);
        try done. split; apply Z.ltb_ge; lia. }
    rewrite (proj2 (Z.ltb_ge (MaxGasLimit v) (Gas tx))) by lia.
    rewrite (proj2 (Z.leb_gt c 0)) by lia.
    done.
Qed.

(** X18.  The errors come in the order of the checks (gas price, gas,
    value, recipient, chain ID), and a field is reported exactly when
    its check fails.  When the lower limits are not above the upper
    ones, no field is reported twice; with the gas price limits the
    wrong way round, a gas price between them is reported as too low and
    then as too high. *)
Theorem ValidateTransaction_reports_failed_checks (v : Validator) (tx : Transaction)
    (errors : list ValidationError) :
  ValidateTransaction v tx = Ok errors →
  sublist (Field <$> errors)
    ["gasPrice"; "gasPrice"; "gas"; "value"; "value"; "to"; "chainId"] ∧
  ("gasPrice" ∈ Field <$> errors ↔
     ∃ gasPrice, GasPrice tx = Some gasPrice ∧
       ((∃ min, MinGasPrice v = Some min ∧ gasPrice < min) ∨
        (∃ max, MaxGasPrice v = Some max ∧ max < gasPrice))) ∧
  ("gas" ∈ Field <$> errors ↔ MaxGasLimit v < Gas tx) ∧
  ("value" ∈ Field <$> errors ↔
     ∃ value, Value tx = Some value ∧
       ((∃ min, MinValue v = Some min ∧ value < min) ∨
        (∃ max, MaxValue v = Some max ∧ max < value))) ∧
  ("to" ∈ Field <$> errors ↔ To tx = None) ∧
  ("chainId" ∈ Field <$> errors ↔ ∀ chainID, ChainID tx = Some chainID → chainID ≤ 0) ∧
  ((∀ min max, MinGasPrice v = Some min → MaxGasPrice v = Some max → min ≤ max) →
   (∀ min max, MinValue v = Some min → MaxValue v = Some max → min ≤ max) →
   NoDup (Field <$> errors)) ∧
  (∀ gasPrice min max,
     GasPrice tx = Some gasPrice → MinGasPrice v = Some min →
     MaxGasPrice v = Some max → max < gasPrice < min →
     take 2 (Field <$> errors) = ["gasPrice"; "gasPrice"]).
Proof.
  rewrite ValidateTransaction_eq.
  destruct (all_or_none (GasPrice tx) _ _ && all_or_none (Value tx) _ _); [|done].
  intros [= <-]. rewrite !report_fields. cbn [fmap list_fmap app Field
    gasPrice_too_low gasPrice_too_high gas_too_high value_too_low value_too_high
    to_required chainId_required].
  pose proof (below_true (GasPrice tx) (MinGasPrice v)) as H1.
  pose proof (below_true (MaxGasPrice v) (GasPrice tx)) as H2.
  pose proof (Z.ltb_lt (MaxGasLimit v) (Gas tx)) as H3.
  pose proof (below_true (Value tx) (MinValue v)) as H4.
  pose proof (below_true (MaxValue v) (Value tx)) as H5.
  pose proof (bool_decide_eq_true (To tx = None)) as H6.
  pose proof (chainID_check (ChainID tx)) as H7.
  split.
  { clear.
    generalize (below (GasPrice tx) (MinGasPrice v)),
      (below (MaxGasPrice v) (GasPrice tx)),
      (MaxGasLimit v <? Gas tx), (below (Value tx) (MinValue v)),
      (below (MaxValue v) (Value tx)),
      (bool_decide (To tx = None)),
      (match ChainID tx with None => true | Some c => c <=? 0 end).
    intros [] [] [] [] [] [] []; cbn [app]; repeat constructor. }
  split.
  { rewrite !elem_of_app, !elem_of_reported, H1, H2.
    split.
    - intros [[[[[[[? _]|[? _]]|[_ ?]]|[_ ?]]|[_ ?]]|[_ ?]]|[_ ?]]; try discriminate.
      + destruct H as (a & b & Ha & Hb & Hlt). exists a. split; [done|]. left. eauto.
      + destruct H as (a & b & Ha & Hb & Hlt). exists b. split; [done|]. right. eauto.
    - intros (gp & Hgp & [(lo & Hlo & Hlt)|(hi & Hhi & Hlt)]).
      + left; left; left; left; left; left; split; [|done]. eauto.
      + left; left; left; left; left; right; split; [|done]. eauto. }
  split.
  { rewrite !elem_of_app, !elem_of_reported, H3.
    split.
    - intros [[[[[[[_ ?]|[_ ?]]|[? _]]|[_ ?]]|[_ ?]]|[_ ?]]|[_ ?]];
        try discriminate; done.
    - intros ?. left; left; left; left; right; by split. }
  split.
  { rewrite !elem_of_app, !elem_of_reported, H4, H5.
    split.
    - intros [[[[[[[_ ?]|[_ ?]]|[_ ?]]|[? _]]|[? _]]|[_ ?]]|[_ ?]]; try discriminate.
      + destruct H as (a & b & Ha & Hb & Hlt). exists a. split; [done|]. left. eauto.
      + destruct H as (a & b & Ha & Hb & Hlt). exists b. split; [done|]. right. eauto.
    - intros (val & Hval & [(lo & Hlo & Hlt)|(hi & Hhi & Hlt)]).
      + left; left; left; right; split; [|done]. eauto.
      + left; left; right; split; [|done]. eauto. }
  split.
  { rewrite !elem_of_app, !elem_of_reported, H6.
    split.
    - intros [[[[[[[_ ?]|[_ ?]]|[_ ?]]|[_ ?]]|[_ ?]]|[? _]]|[_ ?]];
        try discriminate; done.
    - intros ?. left; right; by split. }
  split.
  { rewrite !elem_of_app, !elem_of_reported, H7.
    split.
    - intros [[[[[[[_ ?]|[_ ?]]|[_ ?]]|[_ ?]]|[_ ?]]|[_ ?]]|[? _]];
        try discriminate; done.
    - intros ?. right; by split. }
  split.
  { intros Hg Hv.
    assert (Hb12 : below (GasPrice tx) (MinGasPrice v) &&
                   below (MaxGasPrice v) (GasPrice tx) = false).
    { apply andb_false_iff.
      destruct (below (GasPrice tx) (MinGasPrice v)) eqn:E1; [|by left].
      destruct (below (MaxGasPrice v) (GasPrice tx)) eqn:E2; [|by right].
      apply below_true in E1 as (a & lo & Ha & Hlo & Hlt).
      apply below_true in E2 as (hi & a' & Hhi & Ha' & Hlt').
      rewrite Ha in Ha'. injection Ha' as <-.
      specialize (Hg lo hi Hlo Hhi). lia. }
    assert (Hb45 : below (Value tx) (MinValue v) &&
                   below (MaxValue v) (Value tx) = false).
    { apply andb_false_iff.
      destruct (below (Value tx) (MinValue v)) eqn:E1; [|by left].
      destruct (below (MaxValue v) (Value tx)) eqn:E2; [|by right].
      apply below_true in E1 as (a & lo & Ha & Hlo & Hlt).
      apply below_true in E2 as (hi & a' & Hhi & Ha' & Hlt').
      rewrite Ha in Ha'. injection Ha' as <-.
      specialize (Hv lo hi Hlo Hhi). lia. }
    clear H1 H2 H3 H4 H5 H6 H7 Hg Hv. revert Hb12 Hb45.
    generalize (below (GasPrice tx) (MinGasPrice v)),
      (below (MaxGasPrice v) (GasPrice tx)),
      (MaxGasLimit v <? Gas tx), (below (Value tx) (MinValue v)),
      (below (MaxValue v) (Value tx)),
      (bool_decide (To tx = None)),
      (match ChainID tx with None => true | Some c => c <=? 0 end).
    intros [] [] [] [] [] [] []; cbn [app andb]; intros ? ?; try discriminate;
      apply (bool_decide_unpack _); vm_compute; exact I. }
  intros gp lo hi Hgp Hlo Hhi [Hlt Hlt'].
  assert (below (GasPrice tx) (MinGasPrice v) = true) as -> by (apply H1; eauto).
  assert (below (MaxGasPrice v) (GasPrice tx) = true) as -> by (apply H2; eauto).
  reflexivity.
Qed.

(** A number and its two limits: all three there, or all three nil. *)
Definition all_or_none_of (x min max : option Z) : Prop :=
  (is_Some x ∧ is_Some min ∧ is_Some max) ∨ (x = None ∧ min = None ∧ max = None).

Lemma all_or_none_spec (x min max : option Z) :
  all_or_none x min max = true ↔ all_or_none_of x min max.
Proof.
  unfold all_or_none_of. destruct x, min, max; cbn; split; try done; eauto.
  all: intros [(H1 & H2 & H3)|(H1 & H2 & H3)]; try done;
    by (destruct H1 || destruct H2 || destruct H3).
Qed.

(** X19.  [ValidateTransaction] panics exactly when, of the gas price
    and its two limits, or of the value and its two limits, some are nil
    and some are not: a [Cmp] then dereferences nil.  So with all four
    limits set, as [NewValidator] sets them, it panics exactly on a
    transaction without a gas price or without a value; and with both
    limits of one kind set to nil, on a transaction that has that
    number.  When it does not panic it returns at most seven errors. *)
Theorem ValidateTransaction_panics_iff (v : Validator) (tx : Transaction) :
  (ValidateTransaction v tx = Panic ↔
     ¬ (all_or_none_of (GasPrice tx) (MinGasPrice v) (MaxGasPrice v) ∧
        all_or_none_of (Value tx) (MinValue v) (MaxValue v))) ∧
  (is_Some (MinGasPrice v) → is_Some (MaxGasPrice v) →
   is_Some (MinValue v) → is_Some (MaxValue v) →
   (ValidateTransaction v tx = Panic ↔ GasPrice tx = None ∨ Value tx = None)) ∧
  (MinGasPrice v = None → MaxGasPrice v = None →
   is_Some (GasPrice tx) → ValidateTransaction v tx = Panic) ∧
  (∀ errors, ValidateTransaction v tx = Ok errors → (length errors ≤ 7)%nat).
Proof.
  assert (Hp : ValidateTransaction v tx = Panic ↔
     ¬ (all_or_none_of (GasPrice tx) (MinGasPrice v) (MaxGasPrice v) ∧
        all_or_none_of (Value tx) (MinValue v) (MaxValue v))).
  { rewrite ValidateTransaction_eq, <- !all_or_none_spec, <- andb_true_iff.
    destruct (_ && _); split; first [done | by intros []]. }
  split; [exact Hp|]. split; [|split].
  - intros [a Ha] [b Hb] [c Hc] [d Hd]. rewrite Hp. unfold all_or_none_of.
    rewrite Ha, Hb, Hc, Hd. split.
    + intros Hn. destruct (GasPrice tx) as [gp|]; [|by left].
      destruct (Value tx) as [val|]; [|by right].
      exfalso. apply Hn. split; left; eauto.
    + intros [Hn|Hn] [[([? ?] & _)|(_ & ? & _)] [([? ?] & _)|(_ & ? & _)]]; congruence.
  - intros Hlo Hhi [gp Hgp]. apply Hp. unfold all_or_none_of.
    rewrite Hlo, Hhi, Hgp. intros [[(_ & [? ?] & _)|(? & _)] _]; congruence.
  - rewrite ValidateTransaction_eq.
    destruct (_ && _); [|done]. intros errors [= <-].
    rewrite <- (length_fmap Field), !report_fields. cbn [fmap list_fmap app].
    rewrite !length_app.
    repeat match goal with |- context [length (if ?b then _ else _)] =>
      destruct b end; cbn; lia.
Qed.

End ValidatorFacts.

Module ValidatorWitnesses.
Import validator.

(** A transfer of one ether at 20 gwei on chain 1. *)
Definition transfer : Transaction :=
  {| From := 1; To := Some 2; Value := Some (10 ^ 18); Gas := 21000;
     GasPrice := Some 20000000000; Data := []; Nonce := 0; ChainID := Some 1 |}.

(** The same without a recipient, with too much gas and chain ID zero. *)
Definition bad_transfer : Transaction :=
  {| From := 1; To := None; Value := Some (10 ^ 18); Gas := 20000000;
     GasPrice := Some 20000000000; Data := []; Nonce := 0; ChainID := Some 0 |}.

(** A transaction without a gas price. *)
Definition unpriced : Transaction :=
  {| From := 1; To := Some 2; Value := Some 1; Gas := 21000; GasPrice := None;
     Data := []; Nonce := 0; ChainID := Some 1 |}.

Lemma ValidateTransaction_bad_transfer :
  ValidateTransaction NewValidator bad_transfer
  = Ok [ {| Field := "gas"; Message := "gas limit too high: 20000000 > 10000000" |};
         {| Field := "to"; Message := "recipient address is required" |};
         {| Field := "chainId"; Message := "valid chain ID is required" |} ].
Proof. vm_compute. reflexivity. Qed.

(** X18 at the transfer that fails three checks. *)
Lemma ValidateTransaction_reports_witness :
  "gas" ∈ Field <$> [ {| Field := "gas";
                         Message := "gas limit too high: 20000000 > 10000000" |};
                      {| Field := "to"; Message := "recipient address is required" |};
                      {| Field := "chainId"; Message := "valid chain ID is required" |} ].
Proof.
  apply (ValidateTransaction_reports_failed_checks NewValidator bad_transfer _
           ValidateTransaction_bad_transfer).
  vm_compute. reflexivity.
Defined.

(** X19: with the limits [NewValidator] sets, the transaction without a
    gas price makes it panic; with the gas price limits set to nil, it is
    the transfer, which has one, that does. *)
Lemma ValidateTransaction_panics_witness :
  ValidateTransaction NewValidator unpriced = Panic ∧
  ValidateTransaction (SetGasPriceLimits NewValidator None None) transfer = Panic.
Proof.
  destruct (ValidateTransaction_panics_iff NewValidator unpriced) as (_ & H & _).
  destruct (ValidateTransaction_panics_iff
              (SetGasPriceLimits NewValidator None None) transfer) as (_ & _ & H' & _).
  split.
  - apply H; cbn; eauto.
  - apply H'; cbn; eauto.
Defined.

Example NewValidator_accepts_the_transfer :
  ValidateTransaction NewValidator transfer = Ok [].
Proof. vm_compute. reflexivity. Qed.

(** Nil against nil is no panic: without gas price limits the transaction
    without a gas price passes. *)
Example no_limits_no_price :
  ValidateTransaction (SetGasPriceLimits NewValidator None None) unpriced = Ok [].
Proof. vm_compute. reflexivity. Qed.

(** With the gas price limits the wrong way round, a price between them
    is reported twice. *)
Example inverted_limits_report_twice :
  Field <$> default [] (match ValidateTransaction
                                (SetGasPriceLimits NewValidator (Some (10 ^ 12)) (Some 1))
                                transfer with
                        | Ok errors => Some errors | _ => None end)
  = ["gasPrice"; "gasPrice"].
Proof. vm_compute. reflexivity. Qed.

End ValidatorWitnesses.

(* ===================================================================== *)
(** * From generating a key to signing with it                             *)
(* ===================================================================== *)

Section KeyLifeCycle.
Context `{CP : CryptoProvider} `{JK : JSONCodec keystore.EncryptedKey}.
Import keystore.

(** [DecryptKey] reads three fields of the record. *)
Lemma DecryptKey_fields (key key' : EncryptedKey) (password : string) :
  KDFParams (Crypto key') !! "salt" = KDFParams (Crypto key) !! "salt" →
  IV (CipherParams (Crypto key')) = IV (CipherParams (Crypto key)) →
  CipherText (Crypto key') = CipherText (Crypto key) →
  DecryptKey key' password = DecryptKey key password.
Proof. intros Hs Hi Hc. unfold DecryptKey. by rewrite Hs, Hi, Hc. Qed.

(** X20.  What the generate command stores, the sign commands get back:
    a key that [EncryptKey] made and [SaveKey] wrote in full is what
    [LoadKey] reads under the same name, and [DecryptKey] of it under
    the same password is the secret.  The JSON codec has to bring back
    the salt, the nonce and the ciphertext as they were written; it need
    not bring back the other fields (the numbers among the KDF
    parameters come back as floats). *)
Theorem saved_key_loads_and_decrypts (secret : list byte) (password name : string)
    (rnd : Reader) (m : Manager) (fs : os.FS) (key key' : EncryptedKey)
    (data : list byte) :
  (EncryptKey secret password rnd).1 = Ok key →
  MarshalIndent key = Some data → Unmarshal data = Some key' →
  KDFParams (Crypto key') !! "salt" = KDFParams (Crypto key) !! "salt" →
  IV (CipherParams (Crypto key')) = IV (CipherParams (Crypto key)) →
  CipherText (Crypto key') = CipherText (Crypto key) →
  (SaveKey os.NoFault m key name fs).1 = os.Returned None ∧
  LoadKey m name (SaveKey os.NoFault m key name fs).2 = Ok key' ∧
  FromECDSA <$> DecryptKey key' password = Ok secret.
Proof.
  intros He Hm Hu Hs Hi Hc.
  unfold SaveKey, LoadKey. rewrite Hm. cbn [fst snd os.WriteFile].
  split; [done|]. split.
  - unfold os.ReadFile, os.written. cbn [os.files].
    rewrite lookup_insert_eq. cbn. by rewrite Hu.
  - rewrite (DecryptKey_fields key key') by done.
    apply EncryptKey_Ok_inv in He as (Hl & priv & Hk & ->).
    rewrite DecryptKey_sealed_key by (rewrite length_take, length_drop; lia).
    rewrite gcm_Open_Seal, Hk. cbn. f_equal. by apply FromECDSA_ToECDSA.
Qed.

End KeyLifeCycle.

Module KeyLifeCycleWitnesses.
Import MockInstances StoreWitnesses.

(** X20 at the vectors. *)
Lemma saved_key_loads_and_decrypts_witness :
  keystore.LoadKey (JK := codec) manager "alice" saved_fs = Ok Vectors.key ∧
  FromECDSA <$> keystore.DecryptKey Vectors.key Vectors.password = Ok Vectors.secret.
Proof.
  destruct (saved_key_loads_and_decrypts (JK := codec) Vectors.secret Vectors.password
              "alice" Vectors.entropy manager empty_fs Vectors.key Vectors.key
              (Mock.render_key Vectors.key) Vectors.EncryptKey_key eq_refl)
    as (_ & Hl & Hd); [by vm_compute|reflexivity..|].
  split; [exact Hl|exact Hd].
Defined.

End KeyLifeCycleWitnesses.

(* ===================================================================== *)
(** * The gas price history                                                *)
(* ===================================================================== *)

Section SimulatorFacts.
Import simulator.

(** The price a block contributes: its base fee, else the gas price of
    its first transaction, else none. *)
Definition price_of (block : Block) : option Z :=
  match BaseFee block with
  | Some baseFee => Some baseFee
  | None => head (Transactions block)
  end.

(** The number [BlockByNumber] is given in iteration [i]. *)
Definition asked (currentBlock i : Z) : Z :=
  int64 (uint64 (currentBlock - uint64 i)).

Lemma asked_on_chain (currentBlock i : Z) :
  0 ≤ i ≤ currentBlock → currentBlock < 2 ^ 63 →
  asked currentBlock i = currentBlock - i.
Proof.
  intros Hi Hc. unfold asked, int64, uint64.
  rewrite (Z.mod_small i) by lia.
  rewrite (Z.mod_small (currentBlock - i)) by lia.
  rewrite Z.mod_small by lia. lia.
Qed.

Lemma asked_past_genesis (currentBlock : Z) :
  0 ≤ currentBlock < 2 ^ 63 →
  asked currentBlock (currentBlock + 1) = -1 ∧
  uint64 (currentBlock - uint64 (currentBlock + 1)) = 2 ^ 64 - 1.
Proof.
  intros Hc. unfold asked, int64, uint64.
  rewrite (Z.mod_small (currentBlock + 1)) by lia.
  replace (currentBlock - (currentBlock + 1)) with (-1) by lia.
  split; reflexivity.
Qed.

Lemma price_loop_all (c : Client) (currentBlock : Z) (n : nat) (i : Z)
    (prices : list Z) :
  (∀ j, i ≤ j < i + Z.of_nat n → is_Some (BlockByNumber c (asked currentBlock j))) →
  price_loop c currentBlock i n prices
  = inr (prices ++
         omap (λ j, BlockByNumber c (asked currentBlock j) ≫= price_of)
           (seqZ i (Z.of_nat n)))%list.
Proof.
  revert i prices. induction n as [|n IH]; intros i prices Hall.
  - cbn. by rewrite app_nil_r.
  - rewrite seqZ_cons by lia.
    replace (Z.pred (Z.of_nat (S n))) with (Z.of_nat n) by lia.
    cbn [price_loop omap list_omap]. fold (asked currentBlock i).
    destruct (Hall i) as [block Hb]; [lia|]. rewrite Hb. cbn [mbind option_bind].
    rewrite IH by (intros j Hj; apply Hall; lia).
    f_equal. unfold price_of. replace (Z.succ i) with (i + 1) by lia.
    destruct (BaseFee block) as [fee|]; [by rewrite <- app_assoc|].
    destruct (Transactions block) as [|p ps]; [done|]. cbn. by rewrite <- app_assoc.
Qed.

Lemma price_loop_fails (c : Client) (currentBlock : Z) (n : nat) (i k : Z)
    (prices : list Z) :
  i ≤ k < i + Z.of_nat n →
  (∀ j, i ≤ j < k → is_Some (BlockByNumber c (asked currentBlock j))) →
  BlockByNumber c (asked currentBlock k) = None →
  price_loop c currentBlock i n prices
  = inl (ErrBlock (uint64 (currentBlock - uint64 k))).
Proof.
  revert i prices. induction n as [|n IH]; intros i prices Hk Hall Hnone; [lia|].
  cbn [price_loop]. fold (asked currentBlock i).
  destruct (decide (i = k)) as [->|Hne].
  - by rewrite Hnone.
  - destruct (Hall i) as [block Hb]; [lia|]. rewrite Hb.
    apply IH; [lia| |done]. intros j Hj. apply Hall. lia.
Qed.

Lemma omap_ext_elem {A B : Type} (f g : A → option B) (l : list A) :
  (∀ x, x ∈ l → f x = g x) → omap f l = omap g l.
Proof.
  induction l as [|x l IH]; intros Hl; [done|]. cbn.
  rewrite (Hl x) by left. rewrite IH; [done|]. intros y Hy. apply Hl. by right.
Qed.

Lemma omap_length_le {A B : Type} (f : A → option B) (l : list A) :
  (length (omap f l) ≤ length l)%nat.
Proof. induction l as [|x l IH]; cbn; [done|]. destruct (f x); cbn; lia. Qed.

Lemma omap_all_Some {A B : Type} (f : A → option B) (l : list A) :
  (∀ x, x ∈ l → is_Some (f x)) → Some <$> omap f l = f <$> l.
Proof.
  induction l as [|x l IH]; intros Hl; [done|]. cbn.
  destruct (Hl x) as [y Hy]; [left|]. rewrite Hy. cbn. f_equal.
  apply IH. intros z Hz. apply Hl. by right.
Qed.

(** X21.  When the chain has the blocks asked for, [GetGasPriceHistory]
    returns the prices of the blocks from the current one downward,
    newest first: of each block its base fee, else the gas price of its
    first transaction.  A block with neither is skipped, so the list can
    be shorter than [blocks]; only when every block has a price is the
    price at index [j] that of the block [j] behind the current one. *)
Theorem GetGasPriceHistory_newest_first (c : Client) (blocks currentBlock : Z) :
  BlockNumber c = Some currentBlock → currentBlock < 2 ^ 63 →
  blocks ≤ currentBlock + 1 →
  (∀ j, 0 ≤ j < blocks → is_Some (BlockByNumber c (currentBlock - j))) →
  ∃ prices,
    GetGasPriceHistory c blocks = inr prices ∧
    prices = omap (λ j, BlockByNumber c (currentBlock - j) ≫= price_of)
               (seqZ 0 blocks) ∧
    Z.of_nat (length prices) ≤ Z.max 0 blocks ∧
    ((∀ j block, 0 ≤ j < blocks → BlockByNumber c (currentBlock - j) = Some block →
        is_Some (price_of block)) →
     ∀ j, 0 ≤ j < blocks →
       prices !! Z.to_nat j = BlockByNumber c (currentBlock - j) ≫= price_of).
Proof.
  intros Hcur Hc Hb Hall. eexists. split; [|split; [reflexivity|split]].
  - unfold GetGasPriceHistory. rewrite Hcur.
    rewrite price_loop_all.
    + cbn [app]. f_equal.
      assert (seqZ 0 (Z.of_nat (Z.to_nat blocks)) = seqZ 0 blocks) as ->.
      { destruct (decide (0 ≤ blocks)); [by rewrite Z2Nat.id|].
        replace (Z.to_nat blocks) with 0%nat by lia.
        by rewrite (seqZ_nil 0 blocks) by lia. }
      apply omap_ext_elem. intros j Hj%elem_of_seqZ.
      by rewrite asked_on_chain by lia.
    + intros j Hj. rewrite asked_on_chain by lia. apply Hall. lia.
  - pose proof (omap_length_le
                  (λ j, BlockByNumber c (currentBlock - j) ≫= price_of)
                  (seqZ 0 blocks)) as Hle.
    rewrite length_seqZ in Hle. lia.
  - intros Hprice j Hj.
    pose proof (omap_all_Some
                  (λ j, BlockByNumber c (currentBlock - j) ≫= price_of)
                  (seqZ 0 blocks)) as Heq.
    assert (Hsome : ∀ x, x ∈ seqZ 0 blocks →
              is_Some (BlockByNumber c (currentBlock - x) ≫= price_of)).
    { intros x Hx%elem_of_seqZ. destruct (Hall x) as [block Hblock]; [lia|].
      rewrite Hblock. cbn. apply (Hprice x); [lia|done]. }
    specialize (Heq Hsome).
    apply (f_equal (λ l, l !! Z.to_nat j)) in Heq.
    rewrite !list_lookup_fmap in Heq.
    rewrite (lookup_seqZ_lt 0 blocks (Z.to_nat j)) in Heq by lia.
    rewrite Z2Nat.id, Z.add_0_l in Heq by lia.
    destruct (omap _ _ !! Z.to_nat j) as [q|]; [|done].
    cbn [fmap option_fmap option_map] in Heq. by injection Heq.
Qed.

(** X22.  Asked for more blocks than the chain has, [GetGasPriceHistory]
    goes on below block 0: the unsigned block number wraps around, the
    client is asked for block -1, and when it has no answer to that the
    prices gathered are dropped and the error names block
    18446744073709551615. *)
Theorem GetGasPriceHistory_past_genesis (c : Client) (blocks currentBlock : Z) :
  BlockNumber c = Some currentBlock → 0 ≤ currentBlock < 2 ^ 63 →
  currentBlock + 1 < blocks →
  (∀ j, 0 ≤ j ≤ currentBlock → is_Some (BlockByNumber c (currentBlock - j))) →
  BlockByNumber c (-1) = None →
  GetGasPriceHistory c blocks = inl (ErrBlock 18446744073709551615).
Proof.
  intros Hcur Hc Hb Hall Hnone.
  destruct (asked_past_genesis currentBlock Hc) as [Hask Hnum].
  unfold GetGasPriceHistory. rewrite Hcur.
  rewrite (price_loop_fails c currentBlock _ 0 (currentBlock + 1)).
  - by rewrite Hnum.
  - lia.
  - intros j Hj. rewrite asked_on_chain by lia. apply Hall. lia.
  - by rewrite Hask.
Qed.

End SimulatorFacts.

Module SimulatorWitnesses.
Import simulator.

(** A chain of three blocks: block 0 from before EIP-1559 with one
    transaction, block 1 with a base fee, block 2 with a base fee. *)
Definition chain : Client :=
  {| BlockNumber := Some 2;
     BlockByNumber := λ n,
       if decide (n = 0) then Some {| BaseFee := None; Transactions := [5; 9] |}
       else if decide (n = 1) then Some {| BaseFee := Some 7; Transactions := [] |}
       else if decide (n = 2) then Some {| BaseFee := Some 8; Transactions := [3] |}
       else None |}.

Lemma chain_has (j : Z) : 0 ≤ j ≤ 2 → is_Some (BlockByNumber chain (2 - j)).
Proof.
  intros Hj. assert (j = 0 ∨ j = 1 ∨ j = 2) as [-> | [-> | ->]] by lia; cbn; eauto.
Qed.

(** X21 at the chain, all three blocks. *)
Lemma GetGasPriceHistory_newest_first_witness :
  GetGasPriceHistory chain 3 = inr [8; 7; 5].
Proof.
  destruct (GetGasPriceHistory_newest_first chain 3 2 eq_refl) as (prices & H & -> & _).
  - reflexivity.
  - reflexivity.
  - intros j Hj. apply chain_has. lia.
  - exact H.
Defined.

(** X22 at the chain, four blocks asked for. *)
Lemma GetGasPriceHistory_past_genesis_witness :
  GetGasPriceHistory chain 4 = inl (ErrBlock 18446744073709551615).
Proof.
  apply (GetGasPriceHistory_past_genesis chain 4 2 eq_refl).
  - split; [discriminate|reflexivity].
  - reflexivity.
  - apply chain_has.
  - reflexivity.
Defined.

(** A block without base fee and without transactions gives no price. *)
Example GetGasPriceHistory_skips_a_block :
  GetGasPriceHistory
    {| BlockNumber := Some 1;
       BlockByNumber := λ n,
         if decide (n = 1) then Some {| BaseFee := None; Transactions := [] |}
         else Some {| BaseFee := Some 4; Transactions := [] |} |} 2
  = inr [4].
Proof. reflexivity. Qed.

End SimulatorWitnesses.
